(** * Closest focal sequence by SNP distance: get_distance_to_focal_set.py

    A shallow embedding of [scripts/get_distance_to_focal_set.py]: the
    encoder [calculate_snp_matrix], the distance engine
    [calculate_distance_matrix] and the chunk loop of the script, followed by
    the properties of the specification checked against them.

    Conventions of the embedding.
    - Python integers and NumPy integer cells are [Z]; positions inside a
      sequence are [nat] where they index a list and [Z] where the source
      stores them in an array.
    - A FASTA record is a name and a string of 8-bit characters.  The
      embedding is of the source on ASCII text, where a character is one
      byte of its UTF-8 encoding, so that [len(s)] is also the number of
      cells of the array of [s]; the statements that depend on it assume
      [isascii] of the sequences they read.
    - A NumPy one-dimensional buffer is its size and its cell function; a
      two-dimensional matrix (scipy sparse or NumPy dense) is its shape and
      its cell function.  Cells of the distance matrix are float64 in the
      source but always hold integers; they are [Z] here, and the adjusted
      score of the selection policy, the only place with a fraction, is an
      exact rational [Q].
    - A raised exception is the [Raise] branch of [result]. *)

From Stdlib Require Import String Ascii ZArith List Bool Lia QArith.
Close Scope Q_scope.
Import ListNotations.
Open Scope Z_scope.

(** ** Exceptions *)

Inductive exn : Type :=
| LengthError      (* ValueError('Fasta file appears to have sequences of different lengths!') *)
| BroadcastError   (* NumPy: could not broadcast input array into a slice *)
| DimensionError.  (* scipy / NumPy: dimension mismatch of two operands *)

Inductive result (A : Type) : Type :=
| Ok (a : A)
| Raise (e : exn).
Arguments Ok {A} a.
Arguments Raise {A} e.

Definition bind {A B : Type} (m : result A) (f : A -> result B) : result B :=
  match m with
  | Ok a => f a
  | Raise e => Raise e
  end.

Notation "x <- m ;; k" := (bind m (fun x => k))
  (at level 61, m at next level, right associativity).
Notation "' pat <- m ;; k" := (bind m (fun x => match x with pat => k end))
  (at level 61, pat pattern, m at next level, right associativity).

(** ** Symbols and their integer codes *)

Definition INITIALISATION_LENGTH : Z := 1000000.

Definition code_a : Z := 97.
Definition code_c : Z := 99.
Definition code_g : Z := 103.
Definition code_t : Z := 116.
Definition code_n : Z := 110.  (* the default [fill_value], written 110 below *)
Definition code_gap : Z := 45.

(** [str.lower] on one 8-bit character. *)
Definition lower (ch : ascii) : ascii :=
  let k := N_of_ascii ch in
  if ((65 <=? k) && (k <=? 90))%N then ascii_of_N (k + 32) else ch.

(** One byte read as [np.int8]. *)
Definition int8_of_ascii (ch : ascii) : Z :=
  let k := Z.of_N (N_of_ascii ch) in
  if k <? 128 then k else k - 256.

Definition is_acgt (x : Z) : bool :=
  (x =? code_a) || (x =? code_c) || (x =? code_g) || (x =? code_t).

(** [sequence_to_int_array(s, fill_value, fill_gaps)], for a sequence of
    ASCII characters and a fill value that an [np.int8] cell holds
    ([-128 <= fill_value <= 127]): one cell per character.  (A character
    outside ASCII is several bytes, hence several cells, in the source, and
    a fill value outside the range does not fit the cell.) *)
Definition sequence_to_int_array (s : string) (fill_value : Z) (fill_gaps : bool)
  : list Z :=
  let seq := map (fun ch => int8_of_ascii (lower ch)) (list_ascii_of_string s) in
  if fill_gaps
  then map (fun x => if is_acgt x then x else fill_value) seq
  else map (fun x => if is_acgt x || (x =? code_gap) then x else fill_value) seq.

(** ** One-dimensional NumPy buffers *)

Record ndarray : Type := { size : Z; at_ : Z -> Z }.

(** [np.empty(n)]: the cells hold whatever the allocator left; they are
    written before they are read, and the model starts them at zero. *)
Definition np_empty (n : Z) : ndarray := {| size := n; at_ := fun _ => 0 |}.

(** [a.resize(n)]: in place, cells kept, new cells zero. *)
Definition resize (a : ndarray) (n : Z) : ndarray :=
  {| size := n; at_ := fun k => if k <? Z.min (size a) n then at_ a k else 0 |}.

(** The bounds of the slice [lo:hi] of a buffer of [n] cells, for
    non-negative [lo] and [hi]: both are clipped to [n]. *)
Definition clip (n k : Z) : Z := Z.min k n.

Definition slice_len (n lo hi : Z) : Z := Z.max 0 (clip n hi - clip n lo).

(** [a[lo:hi] = x] for a scalar [x]: never fails. *)
Definition set_slice_scalar (a : ndarray) (lo hi x : Z) : ndarray :=
  {| size := size a;
     at_ := fun k => if (clip (size a) lo <=? k) && (k <? clip (size a) hi)
                     then x else at_ a k |}.

(** [a[lo:hi] = v] for an array [v]: the lengths agree, or [v] has one
    cell and is broadcast, or NumPy raises. *)
Definition set_slice (a : ndarray) (lo hi : Z) (v : list Z) : result ndarray :=
  let m := slice_len (size a) lo hi in
  if Z.of_nat (length v) =? m then
    Ok {| size := size a;
          at_ := fun k => if (clip (size a) lo <=? k) && (k <? clip (size a) hi)
                          then nth (Z.to_nat (k - clip (size a) lo)) v 0
                          else at_ a k |}
  else if Z.of_nat (length v) =? 1 then Ok (set_slice_scalar a lo hi (nth 0 v 0))
  else Raise BroadcastError.

(** [a[0:hi]] as a list of cells. *)
Definition slice_to (a : ndarray) (hi : Z) : list Z :=
  map (fun k => at_ a (Z.of_nat k)) (seq 0 (Z.to_nat (clip (size a) hi))).

(** ** Two-dimensional matrices *)

Record matrix : Type := { shape0 : nat; shape1 : nat; item : nat -> nat -> Z }.

(** [sparse.csc_matrix((val, (row, col)), shape=(n, m))]: a cell is the sum
    of the values stored at its coordinates (the encoder stores at most one
    value per coordinate, [coo_item_enc], so no int8 sum is ever formed). *)
Fixpoint coo_item (val row col : list Z) (i p : Z) : Z :=
  match val, row, col with
  | v :: val', r :: row', c :: col' =>
      (if (r =? i) && (c =? p) then v else 0) + coo_item val' row' col' i p
  | _, _, _ => 0
  end.

Definition csc_matrix (val row col : list Z) (n m : nat) : matrix :=
  {| shape0 := n; shape1 := m;
     item := fun i p => coo_item val row col (Z.of_nat i) (Z.of_nat p) |}.

(** ** The SNP encoder *)

Record SeqRecord : Type := { name : string; seq_ : string }.

(** The dictionary returned by [calculate_snp_matrix]. *)
Record snp_dict : Type := {
  snps : matrix;
  consensus_of : list Z;
  names : list string;
  filled_positions : list (list Z)
}.

(** Element-wise helpers on integer arrays of one record. *)

(** [(consensus != s) & (s != fill_value)], cell by cell.  The two arrays
    have the same length when this is reached. *)
Fixpoint snp_mask (consensus s : list Z) (fill_value : Z) : list bool :=
  match consensus, s with
  | c :: consensus', x :: s' =>
      (negb (c =? x) && negb (x =? fill_value)) :: snp_mask consensus' s' fill_value
  | _, _ => []
  end.

(** [np.sum(mask)]. *)
Definition np_sum (mask : list bool) : Z :=
  Z.of_nat (length (filter (fun b => b) mask)).

(** [np.flatnonzero(mask)], the positions counted from [k]. *)
Fixpoint flatnonzero_from (k : Z) (mask : list bool) : list Z :=
  match mask with
  | [] => []
  | b :: mask' =>
      if b then k :: flatnonzero_from (k + 1) mask'
      else flatnonzero_from (k + 1) mask'
  end.

Definition flatnonzero (mask : list bool) : list Z := flatnonzero_from 0 mask.

(** [s[mask]]. *)
Fixpoint select (s : list Z) (mask : list bool) : list Z :=
  match s, mask with
  | x :: s', b :: mask' => if b then x :: select s' mask' else select s' mask'
  | _, _ => []
  end.

(** [np.where(s == fill_value)[0]]. *)
Definition where_eq (s : list Z) (fill_value : Z) : list Z :=
  flatnonzero (map (fun x => x =? fill_value) s).

(** The local variables of [calculate_snp_matrix] that live across the
    iterations of its loop. *)
Record enc_state : Type := {
  row : ndarray;
  col : ndarray;
  val : ndarray;
  r : Z;
  n_snps : Z;
  nseqs : Z;
  seq_names : list string;
  filled : list (list Z);
  current_length : Z;
  consensus : option (list Z);
  align_length : Z;
  right : Z
}.

Definition init_state (consensus0 : option (list Z)) : enc_state :=
  {| row := np_empty INITIALISATION_LENGTH;
     col := np_empty INITIALISATION_LENGTH;
     val := np_empty INITIALISATION_LENGTH;
     r := 0;
     n_snps := 0;
     nseqs := 0;
     seq_names := [];
     filled := [];
     current_length := INITIALISATION_LENGTH;
     consensus := consensus0;
     align_length := 0;
     right := 0 |}.

Definition string_in (h : string) (l : list string) : bool :=
  existsb (String.eqb h) l.

(** The growth step of lines 88 to 93: one increment when the count reaches
    half of the capacity.  [current_length / 2] is a float division of an
    integer in the source, hence the comparison of the doubles. *)
Definition grow (st : enc_state) (right' : Z) : enc_state :=
  if 2 * right' >=? current_length st then
    let current_length' := current_length st + INITIALISATION_LENGTH in
    {| row := resize (row st) current_length';
       col := resize (col st) current_length';
       val := resize (val st) current_length';
       r := r st; n_snps := n_snps st; nseqs := nseqs st;
       seq_names := seq_names st; filled := filled st;
       current_length := current_length';
       consensus := consensus st; align_length := align_length st;
       right := right st |}
  else st.

(** The body of the loop for a record that is not ignored (lines 68 to 99).
    [len(s)] is the number of characters of the record and
    [len(consensus)] the number of cells of the reference; the array of an
    ASCII record has one cell per character, so that after the check of
    line 78 the arrays compared at line 82 have the same length. *)
Definition encode_record (fill_value : Z) (st : enc_state) (record : SeqRecord)
  : result enc_state :=
  let h := name record in
  let s := seq_ record in
  let '(align_length', consensus') :=
    match consensus st with
    | None => (Z.of_nat (String.length s), sequence_to_int_array s fill_value true)
    | Some c => (Z.of_nat (length c), c)
    end in
  let nseqs' := nseqs st + 1 in
  let seq_names' := seq_names st ++ [h] in
  if negb (Z.of_nat (String.length s) =? align_length') then Raise LengthError
  else
    let s := sequence_to_int_array s fill_value true in
    let mask := snp_mask consensus' s fill_value in
    let right' := n_snps st + np_sum mask in
    let filled' := filled st ++ [where_eq s fill_value] in
    let st1 := grow st right' in
    let row' := set_slice_scalar (row st1) (n_snps st) right' (r st) in
    col' <- set_slice (col st1) (n_snps st) right' (flatnonzero mask) ;;
    val' <- set_slice (val st1) (n_snps st) right' (select s mask) ;;
    Ok {| row := row'; col := col'; val := val';
          r := r st + 1;
          n_snps := right';
          nseqs := nseqs';
          seq_names := seq_names';
          filled := filled';
          current_length := current_length st1;
          consensus := Some consensus';
          align_length := align_length';
          right := right' |}.

(** The [for record in fastafile] loop.  [fastafile] is an iterator: the
    records that the loop did not consume are returned with the state, for
    the next call on the same iterator. *)
Fixpoint for_records (fill_value chunk_size : Z) (ignore_seqs : list string)
    (st : enc_state) (fastafile : list SeqRecord)
  : result (enc_state * list SeqRecord) :=
  match fastafile with
  | [] => Ok (st, [])
  | record :: rest =>
      if string_in (name record) ignore_seqs
      then for_records fill_value chunk_size ignore_seqs st rest
      else
        match encode_record fill_value st record with
        | Raise e => Raise e
        | Ok st' =>
            if negb (chunk_size =? 0) && (chunk_size =? nseqs st')
            then Ok (st', rest)
            else for_records fill_value chunk_size ignore_seqs st' rest
        end
  end.

(** [calculate_snp_matrix(fastafile, consensus, fill_value=fill_value,
    chunk_size=chunk_size, ignore_seqs=ignore_seqs)].  [None] for
    [ignore_seqs] is the empty list; the result [None] is the source's
    [return None]. *)
Definition calculate_snp_matrix (fastafile : list SeqRecord)
    (consensus0 : option (list Z)) (fill_value chunk_size : Z)
    (ignore_seqs : list string)
  : result (option snp_dict * list SeqRecord) :=
  '(st, rest) <- for_records fill_value chunk_size ignore_seqs
                   (init_state consensus0) fastafile ;;
  if nseqs st =? 0 then Ok (None, rest)
  else
    let row' := slice_to (row st) (right st) in
    let col' := slice_to (col st) (right st) in
    let val' := slice_to (val st) (right st) in
    let sparse_snps :=
      csc_matrix val' row' col' (Z.to_nat (nseqs st)) (Z.to_nat (align_length st)) in
    Ok (Some {| snps := sparse_snps;
                consensus_of := match consensus st with Some c => c | None => [] end;
                names := seq_names st;
                filled_positions := filled st |}, rest).

(** ** Matrix operations used by the distance engine *)

Fixpoint sum_upto (n : nat) (f : nat -> Z) : Z :=
  match n with
  | O => 0
  | S k => sum_upto k f + f k
  end.

Definition Z_of_bool (b : bool) : Z := if b then 1 else 0.

(** [M == x] and [M > x]: matrices of booleans, held as 0 and 1. *)
Definition eq_scalar (M : matrix) (x : Z) : matrix :=
  {| shape0 := shape0 M; shape1 := shape1 M;
     item := fun i p => Z_of_bool (item M i p =? x) |}.

Definition gt_scalar (M : matrix) (x : Z) : matrix :=
  {| shape0 := shape0 M; shape1 := shape1 M;
     item := fun i p => Z_of_bool (item M i p >? x) |}.

(** [k * M] for a scalar [k]. *)
Definition scale (k : Z) (M : matrix) : matrix :=
  {| shape0 := shape0 M; shape1 := shape1 M;
     item := fun i p => k * item M i p |}.

Definition transpose (M : matrix) : matrix :=
  {| shape0 := shape1 M; shape1 := shape0 M; item := fun i p => item M p i |}.

(** [X * Y] on scipy sparse matrices: the matrix product. *)
Definition matmul (X Y : matrix) : result matrix :=
  if Nat.eqb (shape1 X) (shape0 Y) then
    Ok {| shape0 := shape0 X; shape1 := shape1 Y;
          item := fun i j => sum_upto (shape1 X) (fun p => item X i p * item Y p j) |}
  else Raise DimensionError.

(** [M.sum(1)]: the column of the row sums. *)
Definition sum1 (M : matrix) : matrix :=
  {| shape0 := shape0 M; shape1 := 1;
     item := fun i _ => sum_upto (shape1 M) (fun p => item M i p) |}.

(** [M.todense()]. *)
Definition todense (M : matrix) : matrix := M.

Definition np_zeros (n m : nat) : matrix :=
  {| shape0 := n; shape1 := m; item := fun _ _ => 0 |}.

(** NumPy broadcasting of [V] to the shape [(n, m)]: a dimension of [V] is
    the target's or 1. *)
Definition broadcast_to (V : matrix) (n m : nat) : result matrix :=
  if (Nat.eqb (shape0 V) n || Nat.eqb (shape0 V) 1)
     && (Nat.eqb (shape1 V) m || Nat.eqb (shape1 V) 1)
  then Ok {| shape0 := n; shape1 := m;
             item := fun i j => item V (if Nat.eqb (shape0 V) 1 then O else i)
                                       (if Nat.eqb (shape1 V) 1 then O else j) |}
  else Raise DimensionError.

(** [T[:] = V]. *)
Definition assign_all (T V : matrix) : result matrix :=
  broadcast_to V (shape0 T) (shape1 T).

(** [X + Y] and [X - Y], [Y] broadcast to the shape of [X] (the shapes are
    equal wherever the engine adds two matrices; [+=] broadcasts a row). *)
Definition madd (X Y : matrix) : result matrix :=
  Y' <- broadcast_to Y (shape0 X) (shape1 X) ;;
  Ok {| shape0 := shape0 X; shape1 := shape1 X;
        item := fun i j => item X i j + item Y' i j |}.

Definition msub (X Y : matrix) : result matrix :=
  Y' <- broadcast_to Y (shape0 X) (shape1 X) ;;
  Ok {| shape0 := shape0 X; shape1 := shape1 X;
        item := fun i j => item X i j - item Y' i j |}.

(** ** The distance engine *)

(** [calculate_distance_matrix(sparse_matrix_A, sparse_matrix_B, consensus)],
    statement by statement. *)
Definition calculate_distance_matrix (sparse_matrix_A sparse_matrix_B : matrix)
    (consensus_arg : list Z) : result matrix :=
  let n_seqs_A := shape0 sparse_matrix_A in
  let n_seqs_B := shape0 sparse_matrix_B in
  d <- matmul (scale 1 (eq_scalar sparse_matrix_A 97))
              (eq_scalar (transpose sparse_matrix_B) 97) ;;
  dc <- matmul (scale 1 (eq_scalar sparse_matrix_A 99))
               (eq_scalar (transpose sparse_matrix_B) 99) ;;
  d <- madd d dc ;;
  dg <- matmul (scale 1 (eq_scalar sparse_matrix_A 103))
               (eq_scalar (transpose sparse_matrix_B) 103) ;;
  d <- madd d dg ;;
  dt <- matmul (scale 1 (eq_scalar sparse_matrix_A 116))
               (eq_scalar (transpose sparse_matrix_B) 116) ;;
  d <- madd d dt ;;
  let d := todense d in
  n_comp <- matmul (scale 1 (eq_scalar sparse_matrix_A 110))
                   (transpose (eq_scalar sparse_matrix_B 110)) ;;
  let n_comp := todense n_comp in
  d <- madd d n_comp ;;
  let temp_total := np_zeros n_seqs_A n_seqs_B in
  temp_total <- assign_all temp_total (sum1 (scale 1 (gt_scalar sparse_matrix_A 0))) ;;
  temp_total <- madd temp_total
                  (transpose (sum1 (scale 1 (gt_scalar sparse_matrix_B 0)))) ;;
  total_differences_shared <-
    matmul (scale 1 (gt_scalar sparse_matrix_A 0))
           (gt_scalar (transpose sparse_matrix_B) 0) ;;
  let n_total := np_zeros n_seqs_A n_seqs_B in
  let n_sum := sum1 (scale 1 (eq_scalar sparse_matrix_A 110)) in
  n_total <- assign_all n_total n_sum ;;
  n_total <- madd n_total
               (transpose (sum1 (scale 1 (eq_scalar sparse_matrix_B 110)))) ;;
  diff_n <- msub n_total (scale 2 n_comp) ;;
  d1 <- msub temp_total (todense total_differences_shared) ;;
  d2 <- msub d1 d ;;
  msub d2 diff_n.

(** ** The script: closest focal match per context sequence *)

(** [np.argmin] of a non-empty row: the first position of the least value. *)
Fixpoint argmin_from (best_i : nat) (best : Q) (k : nat) (l : list Q) : nat :=
  match l with
  | [] => best_i
  | x :: l' =>
      if Qle_bool best x then argmin_from best_i best (S k) l'
      else argmin_from k x (S k) l'
  end.

Definition argmin (l : list Q) : nat :=
  match l with
  | [] => O
  | x :: l' => argmin_from O x 1%nat l'
  end.

(** Row [i] of [d + mask_count_focal / alignment_length]. *)
Definition adjusted_row (d : matrix) (mask_count_focal : list Z)
    (alignment_length : Z) (i : nat) : list Q :=
  map (fun j => (inject_Z (item d i j)
                 + inject_Z (nth j mask_count_focal 0%Z) / inject_Z alignment_length)%Q)
      (seq 0 (shape1 d)).

(** [np.argmin(d + mask_count_focal / alignment_length, axis=1)]. *)
Definition closest_match_of (d : matrix) (mask_count_focal : list Z)
    (alignment_length : Z) : list nat :=
  map (fun i => argmin (adjusted_row d mask_count_focal alignment_length i))
      (seq 0 (shape0 d)).

(** A Python [dict] with string keys, in insertion order: assigning to a
    key that is present replaces its value in place. *)
Fixpoint dict_set {V : Type} (m : list (string * V)) (k : string) (v : V)
  : list (string * V) :=
  match m with
  | [] => [(k, v)]
  | (k', v') :: m' =>
      if String.eqb k' k then (k, v) :: m' else (k', v') :: dict_set m' k v
  end.

(** What the script writes to the output file. *)
Inductive out_line : Type :=
| Header                                              (* strain, closest strain, distance *)
| Line (strain closest : string) (distance : Z).

Inductive exit_status : Type :=
| Finished                 (* the script ran to its end *)
| Exit1                    (* [sys.exit(1)]: no valid focal sequence *)
| Uncaught (e : exn)       (* an exception ended the script *)
| OutOfFuel.               (* the model's bound on iterations was too small *)

(** Lines 210 to 216: the dictionary [minimal_distance_to_focal_set] filled
    from [closest_match], then one line written per key. *)
Definition write_lines (focal_seqs_dict context_seqs_dict : snp_dict)
    (d : matrix) (closest_match : list nat) : list out_line :=
  let minimal_distance_to_focal_set :=
    fold_left
      (fun m '(context_index, focal_index) =>
         dict_set m (nth context_index (names context_seqs_dict) EmptyString)
           (item d context_index focal_index,
            nth focal_index (names focal_seqs_dict) EmptyString))
      (combine (seq 0 (length closest_match)) closest_match) [] in
  map (fun '(seqid, (dist, closest)) => Line seqid closest dist)
      minimal_distance_to_focal_set.

(** One pass of the body of [while True] after a chunk was read (lines 198
    to 216): the lines written for the chunk.  [mask_count_context] is
    computed by the source and never used. *)
Definition chunk_lines (focal_seqs_dict context_seqs_dict : snp_dict)
    (alignment_length : Z) : result (list out_line) :=
  let mask_count_focal :=
    map (fun x => Z.of_nat (length x)) (filled_positions focal_seqs_dict) in
  let mask_count_context :=
    combine (names context_seqs_dict)
            (map (fun x => Z.of_nat (length x)) (filled_positions context_seqs_dict)) in
  d <- calculate_distance_matrix (snps context_seqs_dict) (snps focal_seqs_dict)
         (consensus_of context_seqs_dict) ;;
  let closest_match := closest_match_of d mask_count_focal alignment_length in
  Ok (write_lines focal_seqs_dict context_seqs_dict d closest_match).

(** The [while True] loop.  [seqs] is the iterator over the context
    alignment, [out] the lines written so far; every pass that does not end
    the loop consumes at least one record, so [fuel] above the number of
    records is never exhausted ([chunk_loop_fuel] below). *)
Fixpoint chunk_loop (fuel : nat) (ref : list Z) (alignment_length : Z)
    (focal_seqs_dict : snp_dict) (chunk_size : Z) (seqs : list SeqRecord)
    (out : list out_line) : list out_line * exit_status :=
  match fuel with
  | O => (out, OutOfFuel)
  | S fuel' =>
      match calculate_snp_matrix seqs (Some ref) 110 chunk_size [] with
      | Raise e => (out, Uncaught e)
      | Ok (None, _) => (out, Finished)
      | Ok (Some context_seqs_dict, rest) =>
          match chunk_lines focal_seqs_dict context_seqs_dict alignment_length with
          | Raise e => (out, Uncaught e)
          | Ok lines =>
              chunk_loop fuel' ref alignment_length focal_seqs_dict chunk_size
                rest (out ++ lines)
          end
      end
  end.

(** The script, from the parsed arguments: the reference sequence, the
    focal alignment, [--ignore-seqs], the context alignment and
    [--chunk-size].  The result is the content of the output file and how
    the script ended. *)
Definition main (reference : string) (focal_seqs : list SeqRecord)
    (ignore_seqs : list string) (alignment : list SeqRecord) (chunk_size : Z)
  : list out_line * exit_status :=
  let ref := sequence_to_int_array reference 110 true in
  let alignment_length := Z.of_nat (length ref) in
  match calculate_snp_matrix focal_seqs (Some ref) 110 0 ignore_seqs with
  | Raise e => ([], Uncaught e)
  | Ok (None, _) => ([], Exit1)
  | Ok (Some focal_seqs_dict, _) =>
      chunk_loop (S (length alignment)) ref alignment_length focal_seqs_dict
        chunk_size alignment [Header]
  end.

(** ** Records of the examples *)

Definition rec_ (n s : string) : SeqRecord := {| name := n; seq_ := s |}.

(** ** Notions used in the statements *)

(** The counts the engine builds, for row [i] of [A] and row [j] of [B]. *)
Definition count_eq (M : matrix) (i : nat) (x : Z) : Z :=
  sum_upto (shape1 M) (fun p => Z_of_bool (item M i p =? x)).

Definition count_pos (M : matrix) (i : nat) : Z :=
  sum_upto (shape1 M) (fun p => Z_of_bool (item M i p >? 0)).

Definition count_both_eq (A B : matrix) (i j : nat) (x : Z) : Z :=
  sum_upto (shape1 A)
    (fun p => Z_of_bool (item A i p =? x) * Z_of_bool (item B j p =? x)).

Definition count_both_pos (A B : matrix) (i j : nat) : Z :=
  sum_upto (shape1 A)
    (fun p => Z_of_bool (item A i p >? 0) * Z_of_bool (item B j p >? 0)).

Definition distance_formula (A B : matrix) (i j : nat) : Z :=
  (count_pos A i + count_pos B j - count_both_pos A B i j)
  - (count_both_eq A B i j 97 + count_both_eq A B i j 99
     + count_both_eq A B i j 103 + count_both_eq A B i j 116
     + count_both_eq A B i j 110)
  - (count_eq A i 110 + count_eq B j 110 - 2 * count_both_eq A B i j 110).

(** A matrix of the given shape whose cells inside the shape are [f]. *)
Definition is_mat (M : matrix) (n m : nat) (f : nat -> nat -> Z) : Prop :=
  shape0 M = n /\ shape1 M = m
  /\ forall i j, (i < n)%nat -> (j < m)%nat -> item M i j = f i j.

(** What one alignment position adds to an entry, from the cells [a] and
    [b] of the two rows at that position: the engine's formula on a single
    column. *)
Definition pos_term (a b : Z) : Z :=
  (Z_of_bool (a >? 0) + Z_of_bool (b >? 0) - Z_of_bool (a >? 0) * Z_of_bool (b >? 0))
  - (Z_of_bool (a =? 97) * Z_of_bool (b =? 97)
     + Z_of_bool (a =? 99) * Z_of_bool (b =? 99)
     + Z_of_bool (a =? 103) * Z_of_bool (b =? 103)
     + Z_of_bool (a =? 116) * Z_of_bool (b =? 116)
     + Z_of_bool (a =? 110) * Z_of_bool (b =? 110))
  - (Z_of_bool (a =? 110) + Z_of_bool (b =? 110)
     - 2 * (Z_of_bool (a =? 110) * Z_of_bool (b =? 110))).

(** The cell that a symbol [x] leaves in the SNP matrix at a position where
    the reference holds [c]. *)
Definition snp_cell (c x fill_value : Z) : Z :=
  if negb (c =? x) && negb (x =? fill_value) then x else 0.

(** The cell of an encoded sequence [s] at position [p]. *)
Definition row_cell (ref s : list Z) (fill_value : Z) (p : nat) : Z :=
  match nth_error ref p, nth_error s p with
  | Some c, Some x => snp_cell c x fill_value
  | _, _ => 0
  end.

(** The number of SNPs of [s] against [ref], [np.sum(snps)] as a [nat]. *)
Definition snp_count (ref s : list Z) (fill_value : Z) : nat :=
  length (filter (fun b => b) (snp_mask ref s fill_value)).

(** The integer array of a record, as line 81 computes it. *)
Definition int_array (f : Z) (rec : SeqRecord) : list Z :=
  sequence_to_int_array (seq_ rec) f true.

(** The contents of the three buffers after the records [acc] were encoded
    against [ref], the first of them as row [k]. *)
Fixpoint enc_row (ref : list Z) (f k : Z) (acc : list SeqRecord) : list Z :=
  match acc with
  | [] => []
  | rec :: acc' =>
      repeat k (snp_count ref (int_array f rec) f) ++ enc_row ref f (k + 1) acc'
  end.

Definition enc_col (ref : list Z) (f : Z) (acc : list SeqRecord) : list Z :=
  concat (map (fun rec => flatnonzero (snp_mask ref (int_array f rec) f)) acc).

Definition enc_val (ref : list Z) (f : Z) (acc : list SeqRecord) : list Z :=
  concat (map (fun rec => select (int_array f rec) (snp_mask ref (int_array f rec) f)) acc).

(** The default of [nth] on lists of records. *)
Definition empty_record : SeqRecord := {| name := EmptyString; seq_ := EmptyString |}.

(** The state after the records [acc] were accepted and encoded against
    [ref], none of them overflowing the buffers. *)
Record Inv (ref : list Z) (f : Z) (st : enc_state) (acc : list SeqRecord) : Prop := {
  inv_consensus : consensus st = Some ref;
  inv_r : r st = Z.of_nat (length acc);
  inv_nseqs : nseqs st = Z.of_nat (length acc);
  inv_names : seq_names st = map name acc;
  inv_filled : filled st = map (fun rec => where_eq (int_array f rec) f) acc;
  inv_size_row : size (row st) = current_length st;
  inv_size_col : size (col st) = current_length st;
  inv_size_val : size (val st) = current_length st;
  inv_n : n_snps st = Z.of_nat (length (enc_val ref f acc));
  inv_cap : n_snps st <= current_length st;
  inv_cap_min : INITIALISATION_LENGTH <= current_length st;
  inv_right : right st = n_snps st;
  inv_row : slice_to (row st) (n_snps st) = enc_row ref f 0 acc;
  inv_col : slice_to (col st) (n_snps st) = enc_col ref f acc;
  inv_val : slice_to (val st) (n_snps st) = enc_val ref f acc;
  inv_align : acc <> [] -> align_length st = Z.of_nat (length ref);
  inv_len : Forall (fun rec => String.length (seq_ rec) = length ref) acc
}.

(** The records that a call accepts and the records it leaves in the
    iterator, when no record raises: ignored names are skipped, and the call
    stops after the record that brings the count to [chunk_size]. *)
Fixpoint take_chunk (chunk_size : Z) (ignore_seqs : list string) (count : Z)
    (fastafile : list SeqRecord) : list SeqRecord * list SeqRecord :=
  match fastafile with
  | [] => ([], [])
  | record :: rest =>
      if string_in (name record) ignore_seqs
      then take_chunk chunk_size ignore_seqs count rest
      else if negb (chunk_size =? 0) && (chunk_size =? count + 1)
           then ([record], rest)
           else let '(acc, rest') :=
                  take_chunk chunk_size ignore_seqs (count + 1) rest in
                (record :: acc, rest')
  end.

Definition accepted (chunk_size : Z) (ignore_seqs : list string)
    (fastafile : list SeqRecord) : list SeqRecord :=
  fst (take_chunk chunk_size ignore_seqs 0 fastafile).

Definition remaining (chunk_size : Z) (ignore_seqs : list string)
    (fastafile : list SeqRecord) : list SeqRecord :=
  snd (take_chunk chunk_size ignore_seqs 0 fastafile).

(** [D] is the encoding of the records [acc] against [ref]. *)
Record encodes (ref : list Z) (f : Z) (acc : list SeqRecord) (D : snp_dict)
  : Prop := {
  enc_shape0 : shape0 (snps D) = length acc;
  enc_shape1 : shape1 (snps D) = length ref;
  enc_item : forall i p,
      item (snps D) i p = row_cell ref (int_array f (nth i acc empty_record)) f p;
  enc_consensus : consensus_of D = ref;
  enc_names : names D = map name acc;
  enc_filled : filled_positions D = map (fun rec => where_eq (int_array f rec) f) acc;
  enc_lengths : Forall (fun rec => String.length (seq_ rec) = length ref) acc
}.

(** Two small SNP matrices over the reference [acgt]: the rows of [acga],
    [acnt] and of [ccgt]. *)
Definition example_A : matrix := csc_matrix [97] [0] [3] 2 4.
Definition example_B : matrix := csc_matrix [99] [0] [0] 1 4.

(** Position [p] of [s] is masked: its symbol was normalised to the unknown
    code (every symbol that is not a, c, g or t, the gap included). *)
Definition masked (s : list Z) (p : nat) : bool :=
  match nth_error s p with
  | Some x => x =? 110
  | None => false
  end.

(** Position [p] of [s] deviates from the reference. *)
Definition deviates (ref s : list Z) (p : nat) : bool :=
  match nth_error ref p, nth_error s p with
  | Some c, Some x => negb (c =? x)
  | _, _ => false
  end.

(** Position [p] of [s] is a SNP: it deviates and is not masked. *)
Definition is_snp (ref s : list Z) (p : nat) : bool :=
  deviates ref s p && negb (masked s p).

(** Both sequences carry the same non-reference base at [p]. *)
Definition same_base (ref a b : list Z) (p : nat) : bool :=
  is_snp ref a p && is_snp ref b p && (nth p a 0 =? nth p b 0).

(** The number of positions below [n] that satisfy [P]. *)
Definition count_if (n : nat) (P : nat -> bool) : Z :=
  sum_upto n (fun p => Z_of_bool (P p)).

(** The entry [(i, j)] of the distance matrix of two alignments encoded
    against [ref] with the defaults of the script. *)
Definition distance_entry (ref : list Z) (la lb : list SeqRecord) (i j : nat)
  : option Z :=
  match calculate_snp_matrix la (Some ref) 110 0 [],
        calculate_snp_matrix lb (Some ref) 110 0 [] with
  | Ok (Some DA, _), Ok (Some DB, _) =>
      match calculate_distance_matrix (snps DA) (snps DB) (consensus_of DA) with
      | Ok d => Some (item d i j)
      | Raise _ => None
      end
  | _, _ => None
  end.

(** The formula of the specification, in its words: a position is
    noteworthy when the sequence deviates from the reference or is masked
    there. *)
Definition noteworthy (ref s : list Z) (p : nat) : bool :=
  deviates ref s p || masked s p.

Definition stated_distance (ref a b : list Z) : Z :=
  let n := length ref in
  (count_if n (noteworthy ref a) + count_if n (noteworthy ref b)
   - count_if n (fun p => noteworthy ref a p && noteworthy ref b p))
  - count_if n (same_base ref a b)
  - (count_if n (masked a) + count_if n (masked b)
     - 2 * count_if n (fun p => masked a p && masked b p)).

(** The formula the code computes on encoded sets: the same, with "is a
    SNP" (deviates and is not masked) for "noteworthy" and no masked term. *)
Definition snp_distance (ref a b : list Z) : Z :=
  let n := length ref in
  (count_if n (is_snp ref a) + count_if n (is_snp ref b)
   - count_if n (fun p => is_snp ref a p && is_snp ref b p))
  - count_if n (same_base ref a b).

(** The reference [a], of one position, and one-record alignments over it. *)
Definition ref_a : list Z := sequence_to_int_array "a" 110 true.

(** The dictionary of a call that returned one (an empty one otherwise). *)
Definition dict_of (res : result (option snp_dict * list SeqRecord)) : snp_dict :=
  match res with
  | Ok (Some D, _) => D
  | _ => {| snps := np_zeros 0 0; consensus_of := []; names := [];
            filled_positions := [] |}
  end.

Definition example_x : list SeqRecord := [rec_ "x" "n"].
Definition example_y : list SeqRecord := [rec_ "y" "c"].
Definition dict_x : snp_dict :=
  dict_of (calculate_snp_matrix example_x (Some ref_a) 110 0 []).
Definition dict_y : snp_dict :=
  dict_of (calculate_snp_matrix example_y (Some ref_a) 110 0 []).

(** The term [n_comp] of line 131, the product of the two is-unknown
    indicator matrices. *)
Definition shared_masked_term (A B : matrix) : result matrix :=
  n_comp <- matmul (scale 1 (eq_scalar A 110)) (transpose (eq_scalar B 110)) ;;
  Ok (todense n_comp).

(** The number of positions at which both sequences are masked. *)
Definition both_masked_count (ref a b : list Z) : Z :=
  count_if (length ref) (fun p => masked a p && masked b p).

(** The entry [(i, j)] of that term for two alignments encoded against
    [ref] with the defaults of the script. *)
Definition shared_masked_entry (ref : list Z) (la lb : list SeqRecord) (i j : nat)
  : option Z :=
  match calculate_snp_matrix la (Some ref) 110 0 [],
        calculate_snp_matrix lb (Some ref) 110 0 [] with
  | Ok (Some DA, _), Ok (Some DB, _) =>
      match shared_masked_term (snps DA) (snps DB) with
      | Ok M => Some (item M i j)
      | Raise _ => None
      end
  | _, _ => None
  end.

Definition example_x2 : list SeqRecord := [rec_ "y" "n"].
Definition dict_x2 : snp_dict :=
  dict_of (calculate_snp_matrix example_x2 (Some ref_a) 110 0 []).

(** The column [p] of a matrix, [M[:, p:p+1]]. *)
Definition column (M : matrix) (p : nat) : matrix :=
  {| shape0 := shape0 M; shape1 := 1; item := fun i _ => item M i p |}.

(** The contribution of position [p] to the entry [(i, j)]: the entry of
    the engine run on the column [p] of the two matrices alone. *)
Definition contribution (A B : matrix) (c : list Z) (p i j : nat) : result Z :=
  d <- calculate_distance_matrix (column A p) (column B p) c ;;
  Ok (item d i j).

(** The contribution of [p] to the entry [(i, j)] for two alignments
    encoded against [ref] with the defaults of the script. *)
Definition contribution_entry (ref : list Z) (la lb : list SeqRecord) (p i j : nat)
  : option Z :=
  match calculate_snp_matrix la (Some ref) 110 0 [],
        calculate_snp_matrix lb (Some ref) 110 0 [] with
  | Ok (Some DA, _), Ok (Some DB, _) =>
      match contribution (snps DA) (snps DB) (consensus_of DA) p i j with
      | Ok t => Some t
      | Raise _ => None
      end
  | _, _ => None
  end.

(** The first record of the stream that is not ignored. *)
Fixpoint first_accepted (ignore_seqs : list string) (fastafile : list SeqRecord)
  : option SeqRecord :=
  match fastafile with
  | [] => None
  | record :: rest =>
      if string_in (name record) ignore_seqs then first_accepted ignore_seqs rest
      else Some record
  end.

(** [D] is what the specification's self-encoding property can promise of
    the encoding of [S] against itself: one row of the length of [S], no
    non-zero cell, and the masked positions of [S] as the row's list. *)
Definition self_encoded (S : string) (D : snp_dict) : Prop :=
  shape0 (snps D) = 1%nat
  /\ shape1 (snps D) = String.length S
  /\ (forall i p, item (snps D) i p = 0)
  /\ filled_positions D = [where_eq (sequence_to_int_array S 110 true) 110]
  /\ (forall p, In (Z.of_nat p) (where_eq (sequence_to_int_array S 110 true) 110)
                <-> masked (sequence_to_int_array S 110 true) p = true).

(** The states of the loop: [reaches f c0 acc st] when the loop, started
    with the reference argument [c0], is in state [st] after it accepted
    and encoded the records [acc]. *)
Inductive reaches (f : Z) (c0 : option (list Z)) : list SeqRecord -> enc_state -> Prop :=
| reaches_init : reaches f c0 [] (init_state c0)
| reaches_step (acc : list SeqRecord) (st : enc_state) (rec : SeqRecord)
    (st' : enc_state) :
    reaches f c0 acc st ->
    encode_record f st rec = Ok st' ->
    reaches f c0 (acc ++ [rec]) st'.

(** The reference in force once the records [acc] were accepted. *)
Definition ref_of (f : Z) (c0 : option (list Z)) (acc : list SeqRecord) : list Z :=
  match c0 with
  | Some c => c
  | None => match acc with
            | rec :: _ => int_array f rec
            | [] => []
            end
  end.

(** The number of SNP triples that a record contributes. *)
Definition triples (ref : list Z) (f : Z) (rec : SeqRecord) : Z :=
  Z.of_nat (snp_count ref (int_array f rec) f).

(** The buffers have the current capacity and the triple count is at most
    half of it. *)
Definition half_full (st : enc_state) : Prop :=
  2 * n_snps st <= current_length st
  /\ size (row st) = current_length st
  /\ size (col st) = current_length st
  /\ size (val st) = current_length st.

(** What the bound gives for the record [rec] that the loop meets in state
    [st]: the slice [n_snps:right] lies inside the three buffers after the
    growth step, a record of the reference's length is written and leaves
    the buffers at most half full, and a record of another length raises
    the length error. *)
Definition record_fits (ref : list Z) (st : enc_state) (rec : SeqRecord) : Prop :=
  let right' := n_snps st + triples ref 110 rec in
  let st1 := grow st right' in
  (0 <= n_snps st /\ n_snps st <= right' /\ right' <= current_length st1
   /\ size (row st1) = current_length st1
   /\ size (col st1) = current_length st1
   /\ size (val st1) = current_length st1)
  /\ (String.length (seq_ rec) = length ref ->
      exists st', encode_record 110 st rec = Ok st'
                  /\ n_snps st' = right'
                  /\ current_length st' = current_length st1
                  /\ half_full st')
  /\ (String.length (seq_ rec) <> length ref ->
      encode_record 110 st rec = Raise LengthError).

(** The reference and the context set of the specification's scenario. *)
Definition ref_acgt : list Z := sequence_to_int_array "acgt" 110 true.
Definition example_context : list SeqRecord := [rec_ "c1" "acgA"; rec_ "c2" "acNt"].

(** [str.isascii]: every character is below 128, hence one byte of the
    UTF-8 encoding of the string. *)
Definition isascii (s : string) : bool :=
  forallb (fun ch => (N_of_ascii ch <? 128)%N) (list_ascii_of_string s).

(** The sequences of the records [l] are ASCII. *)
Definition ascii_records (l : list SeqRecord) : Prop :=
  Forall (fun rec => isascii (seq_ rec) = true) l.




Definition not_ignored (ign : list string) (rec : SeqRecord) : bool :=
  negb (string_in (name rec) ign).

(** The adjusted score of the focal sequence [j] for the context sequence
    [i]: [d[i, j] + mask_count_focal[j] / alignment_length]. *)
Definition adjusted (d : matrix) (mask_count_focal : list Z) (alignment_length : Z)
    (i j : nat) : Q :=
  (inject_Z (item d i j)
   + inject_Z (nth j mask_count_focal 0%Z) / inject_Z alignment_length)%Q.

(** A context dictionary with other masked-position lists. *)
Definition with_filled (D : snp_dict) (fp : list (list Z)) : snp_dict :=
  {| snps := snps D; consensus_of := consensus_of D; names := names D;
     filled_positions := fp |}.

(** The matrix of a call that returned one (an empty one otherwise). *)
Definition matrix_of (res : result matrix) : matrix :=
  match res with
  | Ok d => d
  | Raise _ => np_zeros 0 0
  end.

(** A focal set of two sequences, one of them masked at a position, its
    encoding, the encoding of the scenario's context set and their distance
    matrix. *)
Definition example_focal : list SeqRecord := [rec_ "f1" "acnt"; rec_ "f2" "acgt"].
Definition dict_focal : snp_dict :=
  dict_of (calculate_snp_matrix example_focal (Some ref_acgt) 110 0 []).
Definition dict_context : snp_dict :=
  dict_of (calculate_snp_matrix example_context (Some ref_acgt) 110 0 []).
Definition example_d : matrix :=
  matrix_of (calculate_distance_matrix (snps dict_context) (snps dict_focal)
               (consensus_of dict_context)).

(** The distance of two records encoded against [ref]. *)
Definition entry_of (ref : list Z) (a b : SeqRecord) : Z :=
  sum_upto (length ref)
    (fun p => pos_term (row_cell ref (int_array 110 a) 110 p)
                       (row_cell ref (int_array 110 b) 110 p)).

(** The line that the script writes for one context record, from the
    record, the reference and the accepted focal records alone. *)
Definition line_of (ref : list Z) (alignment_length : Z) (focal : list SeqRecord)
    (rec : SeqRecord) : out_line :=
  let mask_count_focal :=
    map (fun x => Z.of_nat (length x))
        (map (fun frec => where_eq (int_array 110 frec) 110) focal) in
  let scores :=
    map (fun j => (inject_Z (entry_of ref rec (nth j focal empty_record))
                   + inject_Z (nth j mask_count_focal 0%Z)
                     / inject_Z alignment_length)%Q)
        (seq 0 (length focal)) in
  let j := argmin scores in
  Line (name rec) (nth j (map name focal) EmptyString)
       (entry_of ref rec (nth j focal empty_record)).

(** The capacity after the growth step, as a number. *)
Definition grown (st : enc_state) (right' : Z) : Z :=
  if 2 * right' >=? current_length st
  then current_length st + INITIALISATION_LENGTH else current_length st.

(** A sequence of [n] copies of one symbol. *)
Fixpoint string_repeat (ch : ascii) (n : nat) : string :=
  match n with
  | O => EmptyString
  | S n' => String ch (string_repeat ch n')
  end.

(** The length of a long alignment. *)
Definition long_n : nat := Z.to_nat 2000000.

(** ** Notions used in the further properties *)

(** [str.upper] on one 8-bit character, and a function applied to every
    character of a string. *)
Definition upper (ch : ascii) : ascii :=
  let k := N_of_ascii ch in
  if ((97 <=? k) && (k <=? 122))%N then ascii_of_N (k - 32) else ch.

Fixpoint string_map (g : ascii -> ascii) (s : string) : string :=
  match s with
  | EmptyString => EmptyString
  | String ch s' => String (g ch) (string_map g s')
  end.

(** The sequence that a row of the dictionary stands for: the unknown code
    at the masked positions, the stored base where the cell is not zero, the
    reference elsewhere. *)
Definition decode (D : snp_dict) (i : nat) : list Z :=
  map (fun p =>
         if existsb (Z.eqb (Z.of_nat p)) (nth i (filled_positions D) [])
         then 110
         else if item (snps D) i p =? 0 then nth p (consensus_of D) 0
              else item (snps D) i p)
      (seq 0 (shape1 (snps D))).

(** The result of a call with the records left in the iterator filtered. *)
Definition filter_rest (ign : list string)
    (res : result (option snp_dict * list SeqRecord))
  : result (option snp_dict * list SeqRecord) :=
  match res with
  | Ok (oD, rest) => Ok (oD, filter (not_ignored ign) rest)
  | Raise e => Raise e
  end.


(** The first field of a line. *)
Definition strain_of (line : out_line) : string :=
  match line with
  | Header => "strain"
  | Line strain _ _ => strain
  end.

(** ** [compactify_sequences]

    The rows of the sparse matrix are read through [nonzero] and indexing,
    so a row is seen as its non-zero cells in ascending column order,
    whatever the storage of the matrix. *)

(** [snps.nonzero()] for row [i]: the columns of its non-zero cells
    ([ind[1]]; [ind[0]] holds zeros only). *)
Definition nonzero_cols (sparse_matrix : matrix) (i : nat) : list nat :=
  filter (fun p => negb (item sparse_matrix i p =? 0))
         (seq 0 (shape1 sparse_matrix)).

(** The key of row [i]: the tuple of pairs (column, value) of its non-zero
    cells, and the empty tuple for a row without non-zero cell. *)
Definition row_key (sparse_matrix : matrix) (i : nat) : list (nat * Z) :=
  let ind1 := nonzero_cols sparse_matrix i in
  let vals := map (item sparse_matrix i) ind1 in
  if (length ind1 =? 0)%nat then [] else combine ind1 vals.

(** Equality of two keys, as the dictionary tests it. *)
Fixpoint key_eqb (a b : list (nat * Z)) : bool :=
  match a, b with
  | [], [] => true
  | (p, x) :: a', (q, y) :: b' => (p =? q)%nat && (x =? y) && key_eqb a' b'
  | _, _ => false
  end.

(** [sequence_groups[key].append(s)] on a [defaultdict(list)], in insertion
    order: a key that is absent is added at the end with the list [[s]]. *)
Fixpoint group_append (sequence_groups : list (list (nat * Z) * list string))
    (key : list (nat * Z)) (s : string)
  : list (list (nat * Z) * list string) :=
  match sequence_groups with
  | [] => [(key, [s])]
  | (key', group) :: rest =>
      if key_eqb key' key then (key', group ++ [s]) :: rest
      else (key', group) :: group_append rest key s
  end.

(** Lines 17 to 27.  [zip] stops at the shorter of the names and the rows. *)
Definition compactify_sequences (sparse_matrix : matrix)
    (sequence_names : list string) : list (list (nat * Z) * list string) :=
  fold_left
    (fun sequence_groups '(s, i) =>
       group_append sequence_groups (row_key sparse_matrix i) s)
    (combine sequence_names (seq 0 (shape0 sparse_matrix))) [].

(** [sequence_groups.get(key)]. *)
Fixpoint group_get (sequence_groups : list (list (nat * Z) * list string))
    (key : list (nat * Z)) : option (list string) :=
  match sequence_groups with
  | [] => None
  | (key', group) :: rest =>
      if key_eqb key' key then Some group else group_get rest key
  end.

(** The names, in the order of the input, whose row has the key [key]. *)
Definition names_with_key (sparse_matrix : matrix) (xs : list (string * nat))
    (key : list (nat * Z)) : list string :=
  map fst (filter (fun x => key_eqb (row_key sparse_matrix (snd x)) key) xs).

(** * Properties *)

Example main_scenario :
  main "acgt" [rec_ "f" "acgt"] [] [rec_ "c1" "acgA"; rec_ "c2" "acNt"] 10000
  = ([Header; Line "c1" "f" 1; Line "c2" "f" 0], Finished).
Proof. vm_compute. reflexivity. Qed.

(** ** Finite sums *)

Lemma sum_upto_ext (n : nat) (f g : nat -> Z) :
  (forall p, (p < n)%nat -> f p = g p) -> sum_upto n f = sum_upto n g.
Proof.
  induction n as [|n IH]; intros H; simpl; [reflexivity|].
  rewrite IH by (intros; apply H; lia). rewrite H by lia. reflexivity.
Qed.

Lemma sum_upto_add (n : nat) (f g : nat -> Z) :
  sum_upto n (fun p => f p + g p) = sum_upto n f + sum_upto n g.
Proof. induction n as [|n IH]; simpl; [reflexivity|]. rewrite IH. lia. Qed.

Lemma sum_upto_sub (n : nat) (f g : nat -> Z) :
  sum_upto n (fun p => f p - g p) = sum_upto n f - sum_upto n g.
Proof. induction n as [|n IH]; simpl; [reflexivity|]. rewrite IH. lia. Qed.

Lemma sum_upto_scale (n : nat) (k : Z) (f : nat -> Z) :
  sum_upto n (fun p => k * f p) = k * sum_upto n f.
Proof. induction n as [|n IH]; simpl; [lia|]. rewrite IH. lia. Qed.

Lemma sum_upto_nonneg (n : nat) (f : nat -> Z) :
  (forall p, (p < n)%nat -> 0 <= f p) -> 0 <= sum_upto n f.
Proof.
  induction n as [|n IH]; intros H; simpl; [lia|].
  specialize (IH (fun p Hp => H p (Nat.lt_lt_succ_r _ _ Hp))).
  specialize (H n (Nat.lt_succ_diag_r n)). lia.
Qed.

Lemma sum_upto_zero (n : nat) (f : nat -> Z) :
  (forall p, (p < n)%nat -> f p = 0) -> sum_upto n f = 0.
Proof.
  intros H. rewrite (sum_upto_ext n f (fun _ => 0) H).
  clear H. induction n as [|n IH]; simpl; lia.
Qed.

(** ** The distance engine in closed form *)

Lemma is_mat_self (M : matrix) : is_mat M (shape0 M) (shape1 M) (item M).
Proof. repeat split. Qed.

Lemma is_mat_transpose (M : matrix) n m f :
  is_mat M n m f -> is_mat (transpose M) m n (fun i j => f j i).
Proof.
  intros (H0 & H1 & H). repeat split; cbn; auto.
Qed.

Lemma matmul_spec (X Y : matrix) n l m f g :
  is_mat X n l f -> is_mat Y l m g ->
  exists M, matmul X Y = Ok M
    /\ is_mat M n m (fun i j => sum_upto l (fun p => f i p * g p j)).
Proof.
  intros (X0 & X1 & HX) (Y0 & Y1 & HY). unfold matmul.
  rewrite X1, Y0, Nat.eqb_refl. eexists. split; [reflexivity|].
  repeat split; cbn; auto. intros i j Hi Hj.
  apply sum_upto_ext. intros p Hp. rewrite HX, HY by assumption. reflexivity.
Qed.

Ltac zero_index :=
  repeat match goal with
         | e : ?n = 1%nat, H : (?x < ?n)%nat |- _ => rewrite e in H
         | H : (?x < 1)%nat |- _ => assert (x = O) by lia; subst x; clear H
         end.

Lemma broadcast_same (V : matrix) n m g :
  is_mat V n m g ->
  exists M, broadcast_to V n m = Ok M /\ is_mat M n m g.
Proof.
  intros (V0 & V1 & HV). unfold broadcast_to.
  rewrite V0, V1, !Nat.eqb_refl. cbn [orb andb].
  eexists. split; [reflexivity|]. repeat split; cbn; auto.
  intros i j Hi Hj.
  destruct (Nat.eqb_spec n 1), (Nat.eqb_spec m 1);
    zero_index; apply HV; lia.
Qed.

Lemma broadcast_col (V : matrix) n m g :
  is_mat V n 1 g ->
  exists M, broadcast_to V n m = Ok M /\ is_mat M n m (fun i _ => g i O).
Proof.
  intros (V0 & V1 & HV). unfold broadcast_to.
  rewrite V0, V1, !Nat.eqb_refl. cbn [orb andb]. rewrite orb_true_r.
  eexists. split; [reflexivity|]. repeat split; cbn; auto.
  intros i j Hi Hj.
  destruct (Nat.eqb_spec n 1); zero_index; apply HV; lia.
Qed.

Lemma broadcast_row (V : matrix) n m g :
  is_mat V 1 m g ->
  exists M, broadcast_to V n m = Ok M /\ is_mat M n m (fun _ j => g O j).
Proof.
  intros (V0 & V1 & HV). unfold broadcast_to.
  rewrite V0, V1, !Nat.eqb_refl. cbn [orb andb]. rewrite orb_true_r.
  eexists. split; [reflexivity|]. repeat split; cbn; auto.
  intros i j Hi Hj.
  destruct (Nat.eqb_spec m 1); zero_index; apply HV; lia.
Qed.

Lemma madd_spec (X Y : matrix) n m f g :
  is_mat X n m f -> is_mat Y n m g ->
  exists M, madd X Y = Ok M /\ is_mat M n m (fun i j => f i j + g i j).
Proof.
  intros (X0 & X1 & HX) HY. unfold madd. rewrite X0, X1.
  destruct (broadcast_same _ _ _ _ HY) as (Y' & -> & (Y0 & Y1 & HY')).
  cbn [bind]. eexists. split; [reflexivity|]. repeat split; cbn; auto.
  intros i j Hi Hj. rewrite HX, HY' by assumption. reflexivity.
Qed.

Lemma madd_row_spec (X Y : matrix) n m f g :
  is_mat X n m f -> is_mat Y 1 m g ->
  exists M, madd X Y = Ok M /\ is_mat M n m (fun i j => f i j + g O j).
Proof.
  intros (X0 & X1 & HX) HY. unfold madd. rewrite X0, X1.
  destruct (broadcast_row _ n _ _ HY) as (Y' & -> & (Y0 & Y1 & HY')).
  cbn [bind]. eexists. split; [reflexivity|]. repeat split; cbn; auto.
  intros i j Hi Hj. rewrite HX, HY' by assumption. reflexivity.
Qed.

Lemma msub_spec (X Y : matrix) n m f g :
  is_mat X n m f -> is_mat Y n m g ->
  exists M, msub X Y = Ok M /\ is_mat M n m (fun i j => f i j - g i j).
Proof.
  intros (X0 & X1 & HX) HY. unfold msub. rewrite X0, X1.
  destruct (broadcast_same _ _ _ _ HY) as (Y' & -> & (Y0 & Y1 & HY')).
  cbn [bind]. eexists. split; [reflexivity|]. repeat split; cbn; auto.
  intros i j Hi Hj. rewrite HX, HY' by assumption. reflexivity.
Qed.

Lemma assign_all_col_spec (T V : matrix) n m g :
  shape0 T = n -> shape1 T = m -> is_mat V n 1 g ->
  exists M, assign_all T V = Ok M /\ is_mat M n m (fun i _ => g i O).
Proof.
  intros T0 T1 HV. unfold assign_all. rewrite T0, T1.
  apply broadcast_col. assumption.
Qed.

Lemma is_mat_scale (k : Z) (M : matrix) n m f :
  is_mat M n m f -> is_mat (scale k M) n m (fun i j => k * f i j).
Proof.
  intros (H0 & H1 & H). repeat split; cbn; auto.
  intros i j Hi Hj. rewrite H by assumption. reflexivity.
Qed.

Lemma is_mat_sum1 (M : matrix) :
  is_mat (sum1 M) (shape0 M) 1
    (fun i _ => sum_upto (shape1 M) (fun p => item M i p)).
Proof. repeat split. Qed.

Ltac engine_step L M S :=
  let E := fresh "E" in
  edestruct L as (M & E & S);
  [ .. | rewrite E; cbn [bind]; clear E ].

Lemma calculate_distance_matrix_closed (A B : matrix) (c : list Z) :
  shape1 A = shape1 B ->
  exists d,
    calculate_distance_matrix A B c = Ok d
    /\ is_mat d (shape0 A) (shape0 B) (distance_formula A B).
Proof.
  intros HL. unfold calculate_distance_matrix, todense.
  assert (HB : forall x, is_mat (eq_scalar (transpose B) x) (shape1 A) (shape0 B)
                           (fun p j => Z_of_bool (item B j p =? x)))
    by (intros x; rewrite HL; repeat split).
  assert (HB' : forall x, is_mat (transpose (eq_scalar B x)) (shape1 A) (shape0 B)
                           (fun p j => Z_of_bool (item B j p =? x)))
    by (intros x; rewrite HL; repeat split).
  assert (HBp : is_mat (gt_scalar (transpose B) 0) (shape1 A) (shape0 B)
                  (fun p j => Z_of_bool (item B j p >? 0)))
    by (rewrite HL; repeat split).
  engine_step (matmul_spec (scale 1 (eq_scalar A 97)) (eq_scalar (transpose B) 97))
    da Sa; [apply is_mat_self | apply HB |].
  engine_step (matmul_spec (scale 1 (eq_scalar A 99)) (eq_scalar (transpose B) 99))
    dc Sc; [apply is_mat_self | apply HB |].
  engine_step (madd_spec da dc) dac Sac; [eassumption | eassumption |].
  engine_step (matmul_spec (scale 1 (eq_scalar A 103)) (eq_scalar (transpose B) 103))
    dg Sg; [apply is_mat_self | apply HB |].
  engine_step (madd_spec dac dg) dacg Sacg; [eassumption | eassumption |].
  engine_step (matmul_spec (scale 1 (eq_scalar A 116)) (eq_scalar (transpose B) 116))
    dt St; [apply is_mat_self | apply HB |].
  engine_step (madd_spec dacg dt) dacgt Sacgt; [eassumption | eassumption |].
  engine_step (matmul_spec (scale 1 (eq_scalar A 110)) (transpose (eq_scalar B 110)))
    n_comp Sn; [apply is_mat_self | apply HB' |].
  engine_step (madd_spec dacgt n_comp) dd Sd; [eassumption | eassumption |].
  engine_step (assign_all_col_spec (np_zeros (shape0 A) (shape0 B))
                 (sum1 (scale 1 (gt_scalar A 0))) (shape0 A) (shape0 B))
    tot0 Stot0; [reflexivity | reflexivity | exact (is_mat_sum1 _) |].
  engine_step (madd_row_spec tot0 (transpose (sum1 (scale 1 (gt_scalar B 0)))))
    tot Stot; [eassumption | apply is_mat_transpose; exact (is_mat_sum1 _) |].
  engine_step (matmul_spec (scale 1 (gt_scalar A 0)) (gt_scalar (transpose B) 0))
    tds Stds; [apply is_mat_self | apply HBp |].
  engine_step (assign_all_col_spec (np_zeros (shape0 A) (shape0 B))
                 (sum1 (scale 1 (eq_scalar A 110))) (shape0 A) (shape0 B))
    nt0 Snt0; [reflexivity | reflexivity | exact (is_mat_sum1 _) |].
  engine_step (madd_row_spec nt0 (transpose (sum1 (scale 1 (eq_scalar B 110)))))
    nt Snt; [eassumption | apply is_mat_transpose; exact (is_mat_sum1 _) |].
  engine_step (msub_spec nt (scale 2 n_comp)) diff_n Sdiff;
    [eassumption | apply is_mat_scale; eassumption |].
  engine_step (msub_spec tot tds) d1 Sd1; [eassumption | eassumption |].
  engine_step (msub_spec d1 dd) d2 Sd2; [eassumption | eassumption |].
  engine_step (msub_spec d2 diff_n) d3 Sd3; [eassumption | eassumption |].
  eexists. split; [reflexivity|].
  destruct Sd3 as (D0 & D1 & HD). repeat split; auto.
  intros i j Hi Hj. rewrite HD by assumption.
  unfold distance_formula, count_pos, count_eq, count_both_eq, count_both_pos.
  cbn [shape0 shape1 item scale eq_scalar gt_scalar transpose].
  rewrite <- HL.
  repeat match goal with
         | |- context [sum_upto ?n (fun p => 1 * @?f p * @?g p)] =>
             rewrite (sum_upto_ext n (fun p => 1 * f p * g p) (fun p => f p * g p))
               by (intros; lia)
         | |- context [sum_upto ?n (fun p => 1 * @?f p)] =>
             rewrite (sum_upto_ext n (fun p => 1 * f p) f) by (intros; lia)
         end.
  lia.
Qed.

Lemma distance_formula_sum (A B : matrix) (i j : nat) :
  shape1 A = shape1 B ->
  distance_formula A B i j
  = sum_upto (shape1 A) (fun p => pos_term (item A i p) (item B j p)).
Proof.
  intros HL.
  unfold distance_formula, count_pos, count_eq, count_both_eq, count_both_pos.
  rewrite <- HL. generalize (shape1 A) as n.
  induction n as [|n IH]; cbn [sum_upto]; [reflexivity|].
  rewrite <- IH. unfold pos_term. lia.
Qed.

Lemma pos_term_sym (a b : Z) : pos_term a b = pos_term b a.
Proof. unfold pos_term. lia. Qed.

Lemma pos_term_cases (a b : Z) :
  pos_term a b =
  if (a =? 110) || (b =? 110) then 0
  else if (is_acgt a && (a =? b)) then 0
  else Z_of_bool ((a >? 0) || (b >? 0)).
Proof.
  unfold pos_term, is_acgt, code_a, code_c, code_g, code_t, Z_of_bool.
  repeat match goal with
         | |- context [?x =? ?y] => destruct (Z.eqb_spec x y); try lia
         | |- context [?x >? ?y] => destruct (Z.gtb_spec x y); try lia
         end; cbn; try lia.
Qed.

Lemma pos_term_nonneg (a b : Z) : 0 <= pos_term a b.
Proof.
  rewrite pos_term_cases. unfold Z_of_bool.
  repeat match goal with
         | |- context [if ?c then _ else _] => destruct c
         end; cbn; lia.
Qed.

(** ** Buffers: slices and writes *)

Lemma map_nth_seq (v : list Z) (n : nat) :
  map (fun k => nth (k - n) v 0) (seq n (length v)) = v.
Proof.
  revert n. induction v as [|x v IH]; intros n; cbn [length seq map]; [reflexivity|].
  rewrite Nat.sub_diag. cbn [nth]. f_equal.
  rewrite <- (IH (S n)) at 2. apply map_ext_in.
  intros k Hk. apply in_seq in Hk.
  replace (k - n)%nat with (S (k - S n)) by lia. reflexivity.
Qed.

Lemma slice_to_split (a a' : ndarray) (n hi : Z) (v : list Z) :
  0 <= n -> n <= hi -> hi <= size a' -> n <= size a ->
  Z.of_nat (length v) = hi - n ->
  (forall k, 0 <= k < n -> at_ a' k = at_ a k) ->
  (forall k, n <= k < hi -> at_ a' k = nth (Z.to_nat (k - n)) v 0) ->
  slice_to a' hi = slice_to a n ++ v.
Proof.
  intros Hn Hhi Hcap Hcap' Hlen Hlow Hup. unfold slice_to, clip.
  rewrite (Z.min_l hi) by assumption. rewrite (Z.min_l n) by assumption.
  replace (Z.to_nat hi) with (Z.to_nat n + length v)%nat by lia.
  rewrite seq_app, map_app. f_equal.
  - apply map_ext_in. intros k Hk. apply in_seq in Hk. apply Hlow. lia.
  - rewrite <- (map_nth_seq v (Z.to_nat n)) at 2.
    apply map_ext_in. intros k Hk. apply in_seq in Hk. cbn [Nat.add] in Hk.
    rewrite Hup by lia. f_equal. lia.
Qed.

Lemma set_slice_in_bounds (a : ndarray) (n hi : Z) (v : list Z) :
  0 <= n -> n <= hi -> hi <= size a -> Z.of_nat (length v) = hi - n ->
  exists a', set_slice a n hi v = Ok a'
    /\ size a' = size a
    /\ slice_to a' hi = slice_to a n ++ v.
Proof.
  intros Hn Hhi Hcap Hlen. unfold set_slice, slice_len, clip.
  rewrite (Z.min_l hi), (Z.min_l n) by lia.
  rewrite Z.max_r by lia. rewrite Hlen, Z.eqb_refl.
  eexists. split; [reflexivity|]. split; [reflexivity|].
  apply slice_to_split; cbn [size at_]; try lia.
  - intros k Hk. destruct (Z.leb_spec n k); [lia|]. reflexivity.
  - intros k Hk. destruct (Z.leb_spec n k); [|lia].
    destruct (Z.ltb_spec k hi); [|lia]. reflexivity.
Qed.

Lemma nth_repeat_Z (x : Z) (n k : nat) : (k < n)%nat -> nth k (repeat x n) 0 = x.
Proof.
  revert k. induction n as [|n IH]; intros k Hk; [lia|].
  destruct k; cbn; [reflexivity|]. apply IH. lia.
Qed.

Lemma set_slice_scalar_in_bounds (a : ndarray) (n hi x : Z) :
  0 <= n -> n <= hi -> hi <= size a ->
  slice_to (set_slice_scalar a n hi x) hi
  = slice_to a n ++ repeat x (Z.to_nat (hi - n)).
Proof.
  intros Hn Hhi Hcap.
  apply slice_to_split; cbn [size at_ set_slice_scalar]; unfold clip; try lia.
  - rewrite repeat_length. lia.
  - intros k Hk. rewrite (Z.min_l n) by lia.
    destruct (Z.leb_spec n k); [lia|]. reflexivity.
  - intros k Hk. rewrite (Z.min_l n), (Z.min_l hi) by lia.
    destruct (Z.leb_spec n k); [|lia].
    destruct (Z.ltb_spec k hi); [|lia]. cbn [andb].
    rewrite nth_repeat_Z by lia. reflexivity.
Qed.

Lemma slice_to_resize (a : ndarray) (n cap : Z) :
  0 <= n -> n <= size a -> size a <= cap ->
  slice_to (resize a cap) n = slice_to a n.
Proof.
  intros Hn Hs Hc. unfold slice_to, clip. cbn [size at_ resize].
  rewrite !(Z.min_l n) by lia.
  apply map_ext_in. intros k Hk. apply in_seq in Hk.
  rewrite (Z.min_l (size a)) by lia.
  destruct (Z.ltb_spec (Z.of_nat k) (size a)); [reflexivity|lia].
Qed.

(** A write that NumPy accepts stayed inside the buffer, unless it wrote a
    single cell past the end. *)
Lemma set_slice_ok_bounds (a a' : ndarray) (n hi : Z) (v : list Z) :
  0 <= n -> n <= size a -> Z.of_nat (length v) = hi - n ->
  set_slice a n hi v = Ok a' ->
  hi <= size a \/ hi = n + 1.
Proof.
  intros Hn Hcap Hlen. unfold set_slice, slice_len, clip.
  destruct (Z.eqb_spec (Z.of_nat (length v))
              (Z.max 0 (Z.min hi (size a) - Z.min n (size a)))) as [E|E].
  - intros _. left. lia.
  - destruct (Z.eqb_spec (Z.of_nat (length v)) 1) as [E1|E1]; [|discriminate].
    intros _. right. lia.
Qed.

(** ** The triples of one record *)

Lemma length_flatnonzero_from (k : Z) (mask : list bool) :
  length (flatnonzero_from k mask) = length (filter (fun b => b) mask).
Proof.
  revert k. induction mask as [|b mask IH]; intros k; [reflexivity|].
  destruct b; cbn; rewrite IH; reflexivity.
Qed.

Lemma length_select_mask (ref s : list Z) (f : Z) :
  length (select s (snp_mask ref s f)) = snp_count ref s f.
Proof.
  unfold snp_count. revert s.
  induction ref as [|c ref IH]; intros [|x s]; try reflexivity.
  cbn [snp_mask select].
  destruct (negb (c =? x) && negb (x =? f)); cbn; rewrite IH; reflexivity.
Qed.

Lemma snp_count_le (ref s : list Z) (f : Z) :
  (snp_count ref s f <= length s)%nat.
Proof.
  unfold snp_count. revert s.
  induction ref as [|c ref IH]; intros [|x s]; cbn; try lia.
  specialize (IH s).
  destruct (negb (c =? x) && negb (x =? f)); cbn; lia.
Qed.

Lemma coo_item_app (v1 r1 c1 v2 r2 c2 : list Z) (i p : Z) :
  length r1 = length v1 -> length c1 = length v1 ->
  coo_item (v1 ++ v2) (r1 ++ r2) (c1 ++ c2) i p
  = coo_item v1 r1 c1 i p + coo_item v2 r2 c2 i p.
Proof.
  revert r1 c1. induction v1 as [|v v1 IH]; intros [|r r1] [|c c1] Hr Hc;
    try discriminate; cbn [app coo_item]; [reflexivity|].
  rewrite IH by (cbn in *; lia). lia.
Qed.

Lemma coo_item_record (ref s : list Z) (f r k i p : Z) :
  coo_item (select s (snp_mask ref s f))
           (repeat r (snp_count ref s f))
           (flatnonzero_from k (snp_mask ref s f)) i p
  = if (r =? i) && (k <=? p) then row_cell ref s f (Z.to_nat (p - k)) else 0.
Proof.
  unfold snp_count. revert s k.
  induction ref as [|c ref IH]; intros [|x s] k.
  - cbn. destruct ((r =? i) && (k <=? p)); [|reflexivity].
    unfold row_cell. destruct (Z.to_nat (p - k)); cbn; try reflexivity;
      destruct (nth_error _ _); reflexivity.
  - cbn. destruct ((r =? i) && (k <=? p)); [|reflexivity].
    unfold row_cell. destruct (Z.to_nat (p - k)); cbn; try reflexivity;
      destruct (nth_error _ _); reflexivity.
  - cbn. destruct ((r =? i) && (k <=? p)); [|reflexivity].
    unfold row_cell. destruct (Z.to_nat (p - k)); cbn; try reflexivity;
      destruct (nth_error _ _); reflexivity.
  - cbn [snp_mask select flatnonzero_from].
    assert (Hrec : forall m, row_cell (c :: ref) (x :: s) f (S m) = row_cell ref s f m)
      by reflexivity.
    assert (H0 : row_cell (c :: ref) (x :: s) f 0 = snp_cell c x f) by reflexivity.
    unfold snp_cell in H0.
    destruct (negb (c =? x) && negb (x =? f)) eqn:Eb;
      cbn [filter length repeat coo_item]; rewrite IH;
      destruct (Z.eqb_spec r i); cbn [andb];
      destruct (Z.leb_spec k p); destruct (Z.leb_spec (k + 1) p);
      try destruct (Z.eqb_spec k p); try lia; cbn [andb];
      try (replace (Z.to_nat (p - k)) with (S (Z.to_nat (p - (k + 1)))) by lia;
           rewrite Hrec; lia);
      try (replace (Z.to_nat (p - k)) with O by lia; rewrite H0; lia);
      try lia.
Qed.

(** ** The triples of the accepted records *)

Lemma enc_row_snoc ref f k acc rec :
  enc_row ref f k (acc ++ [rec])
  = enc_row ref f k acc
    ++ repeat (k + Z.of_nat (length acc)) (snp_count ref (int_array f rec) f).
Proof.
  revert k. induction acc as [|x acc IH]; intros k; cbn [app enc_row length].
  - rewrite Z.add_0_r, app_nil_r. reflexivity.
  - rewrite IH, <- app_assoc. do 2 f_equal.
    replace (k + 1 + Z.of_nat (length acc)) with (k + Z.of_nat (S (length acc)))
      by lia.
    reflexivity.
Qed.

Lemma enc_col_snoc ref f acc rec :
  enc_col ref f (acc ++ [rec])
  = enc_col ref f acc ++ flatnonzero (snp_mask ref (int_array f rec) f).
Proof.
  unfold enc_col. rewrite map_app, concat_app. cbn. rewrite app_nil_r. reflexivity.
Qed.

Lemma enc_val_snoc ref f acc rec :
  enc_val ref f (acc ++ [rec])
  = enc_val ref f acc
    ++ select (int_array f rec) (snp_mask ref (int_array f rec) f).
Proof.
  unfold enc_val. rewrite map_app, concat_app. cbn. rewrite app_nil_r. reflexivity.
Qed.

Lemma length_enc_row ref f k acc :
  length (enc_row ref f k acc) = length (enc_val ref f acc).
Proof.
  revert k. induction acc as [|x acc IH]; intros k; [reflexivity|].
  unfold enc_val in *. cbn [enc_row map concat].
  rewrite !length_app, repeat_length, length_select_mask, IH. reflexivity.
Qed.

Lemma length_enc_col ref f acc :
  length (enc_col ref f acc) = length (enc_val ref f acc).
Proof.
  induction acc as [|x acc IH]; [reflexivity|].
  unfold enc_val, enc_col in *. cbn [map concat].
  rewrite !length_app, IH. unfold flatnonzero.
  rewrite length_flatnonzero_from, length_select_mask. reflexivity.
Qed.

Lemma coo_item_enc ref f k acc (i p : Z) :
  coo_item (enc_val ref f acc) (enc_row ref f k acc) (enc_col ref f acc) i p
  = if (k <=? i) && (i <? k + Z.of_nat (length acc)) && (0 <=? p)
    then row_cell ref (int_array f (nth (Z.to_nat (i - k)) acc empty_record)) f
           (Z.to_nat p)
    else 0.
Proof.
  revert k. induction acc as [|x acc IH]; intros k.
  - unfold enc_val, enc_col. cbn [map concat enc_row coo_item length].
    destruct (Z.leb_spec k i); destruct (Z.ltb_spec i (k + Z.of_nat 0));
      cbn [andb]; try lia; reflexivity.
  - unfold enc_val, enc_col in *. cbn [enc_row map concat length].
    rewrite coo_item_app.
    2:{ rewrite repeat_length, length_select_mask. reflexivity. }
    2:{ unfold flatnonzero.
        rewrite length_flatnonzero_from, length_select_mask. reflexivity. }
    rewrite IH. unfold flatnonzero. rewrite coo_item_record. rewrite Z.sub_0_r.
    destruct (Z.eqb_spec k i); destruct (Z.leb_spec 0 p);
      destruct (Z.leb_spec k i); destruct (Z.leb_spec (k + 1) i);
      destruct (Z.ltb_spec i (k + 1 + Z.of_nat (length acc)));
      destruct (Z.ltb_spec i (k + Z.of_nat (S (length acc))));
      cbn [andb]; try lia.
    + subst i. rewrite Z.sub_diag. cbn. lia.
    + replace (Z.to_nat (i - k)) with (S (Z.to_nat (i - (k + 1)))) by lia.
      cbn [nth]. lia.
Qed.

(** ** The invariant of the encoder's loop *)

Lemma length_list_ascii_of_string (s : string) :
  length (list_ascii_of_string s) = String.length s.
Proof. induction s as [|ch s IH]; cbn; [reflexivity|]. rewrite IH. reflexivity. Qed.

Lemma length_sequence_to_int_array (s : string) (f : Z) (g : bool) :
  length (sequence_to_int_array s f g) = String.length s.
Proof.
  unfold sequence_to_int_array.
  destruct g; rewrite !length_map; apply length_list_ascii_of_string.
Qed.

Lemma Inv_init (ref : list Z) (f : Z) : Inv ref f (init_state (Some ref)) [].
Proof.
  constructor; cbn [init_state consensus r nseqs seq_names filled row col val
                    n_snps current_length right align_length length map
                    np_empty size]; try reflexivity.
  all: try (unfold INITIALISATION_LENGTH; lia).
  all: try (intros H; contradiction).
  constructor.
Qed.

(** The growth step keeps what was written and never shrinks. *)
Lemma grow_spec (st : enc_state) (right' : Z) :
  size (row st) = current_length st ->
  size (col st) = current_length st ->
  size (val st) = current_length st ->
  0 <= n_snps st <= current_length st ->
  let st1 := grow st right' in
  size (row st1) = current_length st1
  /\ size (col st1) = current_length st1
  /\ size (val st1) = current_length st1
  /\ slice_to (row st1) (n_snps st) = slice_to (row st) (n_snps st)
  /\ slice_to (col st1) (n_snps st) = slice_to (col st) (n_snps st)
  /\ slice_to (val st1) (n_snps st) = slice_to (val st) (n_snps st)
  /\ ((2 * right' < current_length st /\ current_length st1 = current_length st)
      \/ (current_length st <= 2 * right'
          /\ current_length st1 = current_length st + INITIALISATION_LENGTH)).
Proof.
  intros Hr Hc Hv Hn. unfold grow.
  destruct (Z.geb_spec (2 * right') (current_length st)) as [G|G]; cbn zeta.
  - cbn [row col val current_length size resize].
    repeat split; try reflexivity;
      try (apply slice_to_resize; unfold INITIALISATION_LENGTH; lia).
    right. split; [lia|reflexivity].
  - repeat split; try assumption. left. split; [lia|reflexivity].
Qed.

(** What the body of the loop does to a state that satisfies the
    invariant: a record of the wrong length raises at once, a record whose
    triples do not fit the buffers after the single growth step raises in
    the write of [col], and any other record is appended. *)
Lemma encode_record_spec (ref : list Z) (f : Z) (st : enc_state)
    (acc : list SeqRecord) (rec : SeqRecord) :
  Inv ref f st acc ->
  let right' := n_snps st + Z.of_nat (snp_count ref (int_array f rec) f) in
  let cap1 := current_length (grow st right') in
  (String.length (seq_ rec) <> length ref
   /\ encode_record f st rec = Raise LengthError)
  \/ (String.length (seq_ rec) = length ref /\ cap1 < right'
      /\ encode_record f st rec = Raise BroadcastError)
  \/ (String.length (seq_ rec) = length ref /\ right' <= cap1
      /\ exists st', encode_record f st rec = Ok st'
           /\ Inv ref f st' (acc ++ [rec])
           /\ current_length st' = cap1).
Proof.
  intros I right' cap1. destruct I.
  assert (Hn0 : 0 <= n_snps st) by lia.
  destruct (grow_spec st right' inv_size_row0 inv_size_col0 inv_size_val0
              (conj Hn0 inv_cap0))
    as (G1 & G2 & G3 & G4 & G5 & G6 & G7).
  fold cap1 in G1, G2, G3, G7.
  unfold encode_record. rewrite inv_consensus0. cbn iota zeta beta.
  destruct (Z.eqb_spec (Z.of_nat (String.length (seq_ rec))) (Z.of_nat (length ref)))
    as [EL|EL]; cbn [negb].
  2:{ left. split; [lia|reflexivity]. }
  right. apply Nat2Z.inj in EL.
  fold (int_array f rec).
  set (s := int_array f rec) in *.
  set (mask := snp_mask ref s f).
  change (np_sum mask) with (Z.of_nat (snp_count ref s f)).
  fold right'. set (st1 := grow st right') in *.
  assert (Hlc : Z.of_nat (length (flatnonzero mask)) = right' - n_snps st).
  { unfold flatnonzero. rewrite length_flatnonzero_from. unfold right', snp_count.
    fold mask. lia. }
  assert (Hlv : Z.of_nat (length (select s mask)) = right' - n_snps st).
  { unfold mask. rewrite length_select_mask. unfold right'. lia. }
  assert (Hle : n_snps st <= right') by (unfold right'; lia).
  assert (Hcap : n_snps st <= cap1) by (unfold INITIALISATION_LENGTH in G7; lia).
  destruct (Z.le_gt_cases right' cap1) as [Hfit|Hover].
  - right. split; [assumption|]. split; [assumption|].
    destruct (set_slice_in_bounds (col st1) (n_snps st) right' (flatnonzero mask))
      as (col' & Ec & Sc & Lc); try lia.
    destruct (set_slice_in_bounds (val st1) (n_snps st) right' (select s mask))
      as (val' & Ev & Sv & Lv); try lia.
    rewrite Ec. cbn [bind]. rewrite Ev. cbn [bind].
    eexists. split; [reflexivity|]. split; [|reflexivity].
    constructor;
      cbn [consensus r nseqs seq_names filled row col val n_snps
           current_length right align_length].
    + reflexivity.
    + rewrite length_app. cbn [length]. lia.
    + rewrite length_app. cbn [length]. lia.
    + rewrite map_app, inv_names0. reflexivity.
    + rewrite map_app, inv_filled0. reflexivity.
    + cbn [size set_slice_scalar]. assumption.
    + lia.
    + lia.
    + rewrite enc_val_snoc, length_app. fold s mask. lia.
    + assumption.
    + unfold INITIALISATION_LENGTH in *. lia.
    + reflexivity.
    + rewrite set_slice_scalar_in_bounds by lia.
      rewrite G4, inv_row0, enc_row_snoc, inv_r0. cbn [Z.add].
      fold s. f_equal. f_equal. unfold right'. lia.
    + rewrite Lc, G5, inv_col0, enc_col_snoc. reflexivity.
    + rewrite Lv, G6, inv_val0, enc_val_snoc. reflexivity.
    + intros _. reflexivity.
    + apply Forall_app. split; [assumption|]. constructor; [assumption|constructor].
  - left. split; [assumption|]. split; [lia|].
    unfold set_slice at 1. unfold slice_len, clip. rewrite G2.
    destruct (Z.eqb_spec (Z.of_nat (length (flatnonzero mask)))
                (Z.max 0 (Z.min right' cap1 - Z.min (n_snps st) cap1))) as [E|E];
      [lia|].
    destruct (Z.eqb_spec (Z.of_nat (length (flatnonzero mask))) 1) as [E1|E1];
      [|reflexivity].
    exfalso. unfold INITIALISATION_LENGTH in *. lia.
Qed.

(** ** The records one call consumes *)

(** A successful run of the loop accepted exactly [take_chunk]'s records. *)
Lemma for_records_inv (ref : list Z) (f cs : Z) (ign : list string)
    (l : list SeqRecord) :
  forall st acc st' rest,
    Inv ref f st acc ->
    for_records f cs ign st l = Ok (st', rest) ->
    Inv ref f st' (acc ++ fst (take_chunk cs ign (nseqs st) l))
    /\ rest = snd (take_chunk cs ign (nseqs st) l).
Proof.
  induction l as [|rec l IH]; intros st acc st' rest I H; cbn [for_records take_chunk] in *.
  - inversion H; subst. rewrite app_nil_r. split; [assumption|reflexivity].
  - destruct (string_in (name rec) ign); [apply IH; assumption|].
    destruct (encode_record_spec ref f st acc rec I)
      as [(_ & E) | [(_ & _ & E) | (_ & _ & st1 & E & I1 & _)]];
      rewrite E in H; try discriminate.
    rewrite (inv_nseqs _ _ _ _ I1) in H.
    rewrite (inv_nseqs _ _ _ _ I).
    rewrite length_app, Nat2Z.inj_add in H. cbn [length] in H.
    change (Z.of_nat 1) with 1 in H.
    destruct (negb (cs =? 0) && (cs =? Z.of_nat (length acc) + 1)).
    + inversion H; subst. split; [assumption|reflexivity].
    + destruct (IH _ _ _ _ I1 H) as (I2 & R).
      rewrite (inv_nseqs _ _ _ _ I1), length_app, Nat2Z.inj_add in I2, R.
      cbn [length] in I2, R. change (Z.of_nat 1) with 1 in I2, R.
      destruct (take_chunk cs ign (Z.of_nat (length acc) + 1) l) as [a r'].
      cbn [fst snd] in *. rewrite <- app_assoc in I2. split; assumption.
Qed.

(** With every accepted record of the reference's length and at most half
    an increment of triples, the loop succeeds, and the buffers stay at most
    half full. *)
Lemma for_records_safe (ref : list Z) (f cs : Z) (ign : list string)
    (l : list SeqRecord) :
  forall st acc,
    Inv ref f st acc ->
    2 * n_snps st <= current_length st ->
    Forall (fun rec => String.length (seq_ rec) = length ref
                       /\ 2 * Z.of_nat (snp_count ref (int_array f rec) f)
                          <= INITIALISATION_LENGTH)
           (fst (take_chunk cs ign (nseqs st) l)) ->
    exists st',
      for_records f cs ign st l
      = Ok (st', snd (take_chunk cs ign (nseqs st) l))
      /\ Inv ref f st' (acc ++ fst (take_chunk cs ign (nseqs st) l))
      /\ 2 * n_snps st' <= current_length st'.
Proof.
  induction l as [|rec l IH]; intros st acc I Hh HF; cbn [for_records take_chunk] in *.
  - exists st. cbn [fst snd]. rewrite app_nil_r.
    split; [reflexivity | split; assumption].
  - destruct (string_in (name rec) ign); [apply IH; assumption|].
    assert (Hrec : String.length (seq_ rec) = length ref
                   /\ 2 * Z.of_nat (snp_count ref (int_array f rec) f)
                      <= INITIALISATION_LENGTH).
    { destruct (negb (cs =? 0) && (cs =? nseqs st + 1)).
      - inversion HF; assumption.
      - destruct (take_chunk cs ign (nseqs st + 1) l). inversion HF; assumption. }
    destruct Hrec as (HL & Hc).
    assert (Hn0 : 0 <= n_snps st) by (rewrite (inv_n _ _ _ _ I); lia).
    destruct (grow_spec st (n_snps st + Z.of_nat (snp_count ref (int_array f rec) f))
                (inv_size_row _ _ _ _ I) (inv_size_col _ _ _ _ I)
                (inv_size_val _ _ _ _ I) (conj Hn0 (inv_cap _ _ _ _ I)))
      as (_ & _ & _ & _ & _ & _ & G7).
    destruct (encode_record_spec ref f st acc rec I)
      as [(E & _) | [(_ & E & _) | (_ & Hfit & st1 & E & I1 & C1)]];
      [contradiction | exfalso; lia |].
    rewrite E.
    assert (Hh1 : 2 * n_snps st1 <= current_length st1).
    { rewrite C1. rewrite (inv_n _ _ _ _ I1), enc_val_snoc, length_app.
      rewrite length_select_mask. pose proof (inv_n _ _ _ _ I) as En.
      fold (int_array f rec). lia. }
    rewrite (inv_nseqs _ _ _ _ I1), length_app, Nat2Z.inj_add.
    cbn [length]. change (Z.of_nat 1) with 1.
    rewrite (inv_nseqs _ _ _ _ I) in *.
    destruct (negb (cs =? 0) && (cs =? Z.of_nat (length acc) + 1)).
    + exists st1. cbn [fst snd]. split; [reflexivity | split; assumption].
    + specialize (IH st1 (acc ++ [rec]) I1 Hh1).
      rewrite (inv_nseqs _ _ _ _ I1), length_app, Nat2Z.inj_add in IH.
      cbn [length] in IH. change (Z.of_nat 1) with 1 in IH.
      destruct (take_chunk cs ign (Z.of_nat (length acc) + 1) l) as [a r'].
      cbn [fst snd] in *. inversion HF; subst.
      destruct (IH H2) as (st' & E' & I' & Hh').
      exists st'. rewrite <- app_assoc in I'.
      split; [assumption | split; assumption].
Qed.

(** ** What the encoder returns *)

Lemma row_cell_nil (ref : list Z) (f : Z) (p : nat) : row_cell ref [] f p = 0.
Proof.
  unfold row_cell. destruct (nth_error ref p); destruct p; reflexivity.
Qed.

Lemma Inv_encodes (ref : list Z) (f : Z) (st : enc_state) (acc : list SeqRecord) :
  Inv ref f st acc -> acc <> [] ->
  encodes ref f acc
    {| snps := csc_matrix (slice_to (val st) (right st)) (slice_to (row st) (right st))
                 (slice_to (col st) (right st))
                 (Z.to_nat (nseqs st)) (Z.to_nat (align_length st));
       consensus_of := match consensus st with Some c => c | None => [] end;
       names := seq_names st;
       filled_positions := filled st |}.
Proof.
  intros I Hne. destruct I.
  constructor; cbn [snps consensus_of names filled_positions csc_matrix
                    shape0 shape1 item].
  - rewrite inv_nseqs0. apply Nat2Z.id.
  - rewrite inv_align0 by assumption. apply Nat2Z.id.
  - intros i p. rewrite inv_right0, inv_row0, inv_col0, inv_val0, coo_item_enc.
    destruct (Z.leb_spec 0 (Z.of_nat i)); [|lia].
    destruct (Z.leb_spec 0 (Z.of_nat p)); [|lia].
    rewrite Z.sub_0_r, !Nat2Z.id.
    destruct (Z.ltb_spec (Z.of_nat i) (0 + Z.of_nat (length acc))); cbn [andb].
    + reflexivity.
    + rewrite nth_overflow by lia. symmetry. apply row_cell_nil.
  - rewrite inv_consensus0. reflexivity.
  - assumption.
  - assumption.
  - assumption.
Qed.

(** A call that returns a dictionary returns the encoding of the records it
    accepted, and leaves the others in the iterator. *)
Lemma calculate_snp_matrix_inv (l : list SeqRecord) (ref : list Z) (f cs : Z)
    (ign : list string) (D : snp_dict) (rest : list SeqRecord) :
  calculate_snp_matrix l (Some ref) f cs ign = Ok (Some D, rest) ->
  accepted cs ign l <> []
  /\ encodes ref f (accepted cs ign l) D
  /\ rest = remaining cs ign l.
Proof.
  unfold calculate_snp_matrix, accepted, remaining.
  destruct (for_records f cs ign (init_state (Some ref)) l) as [[st rest']|e] eqn:E;
    cbn [bind]; [|discriminate].
  destruct (for_records_inv ref f cs ign l _ _ _ _ (Inv_init ref f) E) as (I & R).
  cbn [app init_state nseqs] in I, R.
  destruct (Z.eqb_spec (nseqs st) 0) as [E0|E0]; [discriminate|].
  intros H. injection H as HD HR. subst D.
  assert (Hne : fst (take_chunk cs ign 0 l) <> []).
  { intros Hnil. rewrite Hnil in I. apply E0. rewrite (inv_nseqs _ _ _ _ I).
    reflexivity. }
  split; [assumption|]. split; [|rewrite <- HR; exact R].
  apply Inv_encodes; assumption.
Qed.

Lemma calculate_snp_matrix_none (l : list SeqRecord) (ref : list Z) (f cs : Z)
    (ign : list string) (rest : list SeqRecord) :
  calculate_snp_matrix l (Some ref) f cs ign = Ok (None, rest) ->
  accepted cs ign l = [] /\ rest = remaining cs ign l.
Proof.
  unfold calculate_snp_matrix, accepted, remaining.
  destruct (for_records f cs ign (init_state (Some ref)) l) as [[st rest']|e] eqn:E;
    cbn [bind]; [|discriminate].
  destruct (for_records_inv ref f cs ign l _ _ _ _ (Inv_init ref f) E) as (I & R).
  cbn [app init_state nseqs] in I, R.
  destruct (Z.eqb_spec (nseqs st) 0) as [E0|E0]; [|discriminate].
  intros H. injection H as HR. split; [|rewrite <- HR; exact R].
  rewrite (inv_nseqs _ _ _ _ I) in E0.
  destruct (fst (take_chunk cs ign 0 l)); [reflexivity|discriminate].
Qed.

(** With every accepted record of the reference's length and at most half
    an increment of triples, the call returns. *)
Lemma calculate_snp_matrix_safe (l : list SeqRecord) (ref : list Z) (f cs : Z)
    (ign : list string) :
  Forall (fun rec => String.length (seq_ rec) = length ref
                     /\ 2 * Z.of_nat (snp_count ref (int_array f rec) f)
                        <= INITIALISATION_LENGTH)
         (accepted cs ign l) ->
  exists oD, calculate_snp_matrix l (Some ref) f cs ign
             = Ok (oD, remaining cs ign l)
    /\ match oD with
       | None => accepted cs ign l = []
       | Some D => accepted cs ign l <> [] /\ encodes ref f (accepted cs ign l) D
       end.
Proof.
  intros HF. unfold accepted, remaining in *.
  destruct (for_records_safe ref f cs ign l _ _ (Inv_init ref f)) as (st & E & I & _).
  { cbn. unfold INITIALISATION_LENGTH. lia. }
  { exact HF. }
  cbn [init_state nseqs app] in E, I.
  unfold calculate_snp_matrix. rewrite E. cbn [bind].
  destruct (Z.eqb_spec (nseqs st) 0) as [E0|E0].
  - eexists. split; [reflexivity|]. cbn.
    rewrite (inv_nseqs _ _ _ _ I) in E0.
    destruct (fst (take_chunk cs ign 0 l)); [reflexivity|discriminate].
  - eexists. split; [reflexivity|]. cbn beta iota.
    assert (Hne : fst (take_chunk cs ign 0 l) <> []).
    { intros Hnil. rewrite Hnil in I. apply E0. rewrite (inv_nseqs _ _ _ _ I).
      reflexivity. }
    split; [assumption|]. apply Inv_encodes; assumption.
Qed.

(** A record of the reference's length with at most one increment of
    triples always fits: the buffers hold the triples written so far, and
    the growth step adds one increment whenever the record would fill more
    than half of them. *)
Lemma for_records_fits (ref : list Z) (f cs : Z) (ign : list string)
    (l : list SeqRecord) :
  forall st acc,
    Inv ref f st acc ->
    Forall (fun rec => String.length (seq_ rec) = length ref
                       /\ Z.of_nat (snp_count ref (int_array f rec) f)
                          <= INITIALISATION_LENGTH)
           (fst (take_chunk cs ign (nseqs st) l)) ->
    exists st',
      for_records f cs ign st l
      = Ok (st', snd (take_chunk cs ign (nseqs st) l))
      /\ Inv ref f st' (acc ++ fst (take_chunk cs ign (nseqs st) l)).
Proof.
  induction l as [|rec l IH]; intros st acc I HF; cbn [for_records take_chunk] in *.
  - exists st. cbn [fst snd]. rewrite app_nil_r. split; [reflexivity|assumption].
  - destruct (string_in (name rec) ign); [apply IH; assumption|].
    assert (Hrec : String.length (seq_ rec) = length ref
                   /\ Z.of_nat (snp_count ref (int_array f rec) f)
                      <= INITIALISATION_LENGTH).
    { destruct (negb (cs =? 0) && (cs =? nseqs st + 1)).
      - inversion HF; assumption.
      - destruct (take_chunk cs ign (nseqs st + 1) l). inversion HF; assumption. }
    destruct Hrec as (HL & Hc).
    assert (Hn0 : 0 <= n_snps st) by (rewrite (inv_n _ _ _ _ I); lia).
    destruct (grow_spec st (n_snps st + Z.of_nat (snp_count ref (int_array f rec) f))
                (inv_size_row _ _ _ _ I) (inv_size_col _ _ _ _ I)
                (inv_size_val _ _ _ _ I) (conj Hn0 (inv_cap _ _ _ _ I)))
      as (_ & _ & _ & _ & _ & _ & G7).
    pose proof (inv_cap _ _ _ _ I) as Hcap.
    destruct (encode_record_spec ref f st acc rec I)
      as [(E & _) | [(_ & E & _) | (_ & Hfit & st1 & E & I1 & C1)]];
      [contradiction | exfalso; lia |].
    rewrite E.
    rewrite (inv_nseqs _ _ _ _ I1), length_app, Nat2Z.inj_add.
    cbn [length]. change (Z.of_nat 1) with 1.
    rewrite (inv_nseqs _ _ _ _ I) in *.
    destruct (negb (cs =? 0) && (cs =? Z.of_nat (length acc) + 1)).
    + exists st1. cbn [fst snd]. split; [reflexivity|assumption].
    + specialize (IH st1 (acc ++ [rec]) I1).
      rewrite (inv_nseqs _ _ _ _ I1), length_app, Nat2Z.inj_add in IH.
      cbn [length] in IH. change (Z.of_nat 1) with 1 in IH.
      destruct (take_chunk cs ign (Z.of_nat (length acc) + 1) l) as [a r'].
      cbn [fst snd] in *. inversion HF; subst.
      destruct (IH H2) as (st' & E' & I').
      exists st'. rewrite <- app_assoc in I'.
      split; assumption.
Qed.

Lemma calculate_snp_matrix_fits (l : list SeqRecord) (ref : list Z) (f cs : Z)
    (ign : list string) :
  Forall (fun rec => String.length (seq_ rec) = length ref
                     /\ Z.of_nat (snp_count ref (int_array f rec) f)
                        <= INITIALISATION_LENGTH)
         (accepted cs ign l) ->
  exists oD, calculate_snp_matrix l (Some ref) f cs ign
             = Ok (oD, remaining cs ign l)
    /\ match oD with
       | None => accepted cs ign l = []
       | Some D => accepted cs ign l <> [] /\ encodes ref f (accepted cs ign l) D
       end.
Proof.
  intros HF. unfold accepted, remaining in *.
  destruct (for_records_fits ref f cs ign l _ _ (Inv_init ref f)) as (st & E & I).
  { exact HF. }
  cbn [init_state nseqs app] in E, I.
  unfold calculate_snp_matrix. rewrite E. cbn [bind].
  destruct (Z.eqb_spec (nseqs st) 0) as [E0|E0].
  - eexists. split; [reflexivity|]. cbn.
    rewrite (inv_nseqs _ _ _ _ I) in E0.
    destruct (fst (take_chunk cs ign 0 l)); [reflexivity|discriminate].
  - eexists. split; [reflexivity|]. cbn beta iota.
    assert (Hne : fst (take_chunk cs ign 0 l) <> []).
    { intros Hnil. rewrite Hnil in I. apply E0. rewrite (inv_nseqs _ _ _ _ I).
      reflexivity. }
    split; [assumption|]. apply Inv_encodes; assumption.
Qed.

(** ** Symmetry and sign of the distance *)

(** C4.  For two SNP matrices of the same width (two sets encoded against
    the same reference have the width of that reference), and for every row
    [i] of [A] and row [j] of [B], both calls return and
    [calculate_distance_matrix(A, B)[i][j]] equals
    [calculate_distance_matrix(B, A)[j][i]]. *)
Theorem distance_symmetric (A B : matrix) (cA cB : list Z) :
  shape1 A = shape1 B ->
  exists dAB dBA,
    calculate_distance_matrix A B cA = Ok dAB
    /\ calculate_distance_matrix B A cB = Ok dBA
    /\ forall i j, (i < shape0 A)%nat -> (j < shape0 B)%nat ->
         item dAB i j = item dBA j i.
Proof.
  intros HL.
  destruct (calculate_distance_matrix_closed A B cA HL) as (dAB & E1 & _ & _ & H1).
  destruct (calculate_distance_matrix_closed B A cB (eq_sym HL))
    as (dBA & E2 & _ & _ & H2).
  exists dAB, dBA. split; [assumption|]. split; [assumption|].
  intros i j Hi Hj. rewrite H1, H2 by assumption.
  rewrite !distance_formula_sum by congruence. rewrite HL.
  apply sum_upto_ext. intros p _. apply pos_term_sym.
Qed.

Lemma distance_symmetric_witness :
  exists dAB dBA,
    calculate_distance_matrix example_A example_B [] = Ok dAB
    /\ calculate_distance_matrix example_B example_A [] = Ok dBA
    /\ forall i j, (i < shape0 example_A)%nat -> (j < shape0 example_B)%nat ->
         item dAB i j = item dBA j i.
Proof. apply (distance_symmetric example_A example_B [] []). reflexivity. Defined.

(** C9.  For two SNP matrices of the same width the engine returns a
    matrix of the shape (rows of A, rows of B), and every one of its entries
    is non-negative. *)
Theorem distance_nonneg (A B : matrix) (c : list Z) :
  shape1 A = shape1 B ->
  exists d,
    calculate_distance_matrix A B c = Ok d
    /\ shape0 d = shape0 A /\ shape1 d = shape0 B
    /\ forall i j, (i < shape0 d)%nat -> (j < shape1 d)%nat -> 0 <= item d i j.
Proof.
  intros HL.
  destruct (calculate_distance_matrix_closed A B c HL) as (d & E & D0 & D1 & H).
  exists d. repeat split; try assumption.
  intros i j Hi Hj. rewrite H by lia.
  rewrite distance_formula_sum by assumption.
  apply sum_upto_nonneg. intros p _. apply pos_term_nonneg.
Qed.

Lemma distance_nonneg_witness :
  exists d,
    calculate_distance_matrix example_A example_B [] = Ok d
    /\ shape0 d = shape0 example_A /\ shape1 d = shape0 example_B
    /\ forall i j, (i < shape0 d)%nat -> (j < shape1 d)%nat -> 0 <= item d i j.
Proof. apply (distance_nonneg example_A example_B []). reflexivity. Defined.

(** ** Positions of a sequence, read on its integer array *)

Lemma int_array_values (rec : SeqRecord) (x : Z) :
  In x (int_array 110 rec) -> is_acgt x = true \/ x = 110.
Proof.
  unfold int_array, sequence_to_int_array. intros H.
  apply in_map_iff in H. destruct H as (y & <- & _).
  destruct (is_acgt y) eqn:E; [left; assumption | right; reflexivity].
Qed.

Lemma row_cell_cases (ref : list Z) (rec : SeqRecord) (p : nat) :
  let s := int_array 110 rec in
  (is_snp ref s p = false /\ row_cell ref s 110 p = 0)
  \/ (is_snp ref s p = true /\ row_cell ref s 110 p = nth p s 0
      /\ is_acgt (nth p s 0) = true).
Proof.
  intros s. unfold is_snp, deviates, masked, row_cell, snp_cell.
  destruct (nth_error ref p) as [c|] eqn:Ec; [|left; split; reflexivity].
  destruct (nth_error s p) as [x|] eqn:Ex; [|left; split; reflexivity].
  rewrite (nth_error_nth _ _ _ Ex).
  destruct (negb (c =? x) && negb (x =? 110)) eqn:E;
    [right | left; split; reflexivity].
  split; [reflexivity|]. split; [reflexivity|].
  destruct (int_array_values rec x (nth_error_In _ _ Ex)) as [H|H]; [assumption|].
  subst x. rewrite andb_false_r in E. discriminate.
Qed.

Lemma is_acgt_facts (x : Z) :
  is_acgt x = true -> x <> 0 /\ x <> 110 /\ 0 < x.
Proof.
  unfold is_acgt, code_a, code_c, code_g, code_t. intros H.
  repeat (apply orb_true_iff in H; destruct H as [H|H]);
    apply Z.eqb_eq in H; subst; repeat split; lia.
Qed.

(** On cells that are 0 or a base, a position adds 1 exactly when the two
    cells differ. *)
Lemma pos_term_cells (a b : Z) :
  a = 0 \/ is_acgt a = true -> b = 0 \/ is_acgt b = true ->
  pos_term a b = Z_of_bool (negb (a =? b)).
Proof.
  intros Ha Hb. rewrite pos_term_cases.
  assert (Ha110 : a <> 110)
    by (destruct Ha as [->|Ha]; [lia | apply is_acgt_facts in Ha; tauto]).
  assert (Hb110 : b <> 110)
    by (destruct Hb as [->|Hb]; [lia | apply is_acgt_facts in Hb; tauto]).
  destruct (Z.eqb_spec a 110); [contradiction|].
  destruct (Z.eqb_spec b 110); [contradiction|]. cbn [orb].
  destruct Ha as [->|Ha]; destruct Hb as [->|Hb].
  - reflexivity.
  - apply is_acgt_facts in Hb. destruct Hb as (Hb0 & _ & Hbp).
    cbn [is_acgt andb]. destruct (Z.eqb_spec 0 b); [lia|].
    destruct (Z.gtb_spec b 0); [|lia]. reflexivity.
  - rewrite Ha. pose proof (is_acgt_facts a Ha) as (Ha0 & _ & Hap).
    destruct (Z.eqb_spec a 0); [lia|]. cbn [andb negb].
    destruct (Z.gtb_spec a 0); [|lia]. reflexivity.
  - rewrite Ha. pose proof (is_acgt_facts a Ha) as (Ha0 & _ & Hap).
    destruct (Z.eqb_spec a b); cbn [andb negb]; [reflexivity|].
    destruct (Z.gtb_spec a 0); [|lia]. reflexivity.
Qed.

(** ** The distance between two encoded sets *)

(** C1 as stated fails: against the reference [a], the sequences [n] and
    [c] are at distance 1 in the code, and 0 by the stated formula. *)
Lemma stated_distance_counterexample :
  distance_entry ref_a [rec_ "x" "n"] [rec_ "y" "c"] 0 0 = Some 1
  /\ stated_distance ref_a (int_array 110 (rec_ "x" "n"))
       (int_array 110 (rec_ "y" "c")) = 0.
Proof. split; vm_compute; reflexivity. Qed.

Lemma snp_distance_sum (ref a b : list Z) :
  snp_distance ref a b
  = sum_upto (length ref)
      (fun p => Z_of_bool (is_snp ref a p) + Z_of_bool (is_snp ref b p)
                - Z_of_bool (is_snp ref a p && is_snp ref b p)
                - Z_of_bool (same_base ref a b p)).
Proof.
  unfold snp_distance, count_if. cbn zeta. generalize (length ref) as n.
  induction n as [|n IH]; cbn [sum_upto]; [reflexivity|]. rewrite <- IH. lia.
Qed.

(** One position of two encoded rows. *)
Lemma pos_term_encoded (ref : list Z) (ra rb : SeqRecord) (p : nat) :
  let a := int_array 110 ra in
  let b := int_array 110 rb in
  pos_term (row_cell ref a 110 p) (row_cell ref b 110 p)
  = Z_of_bool (is_snp ref a p) + Z_of_bool (is_snp ref b p)
    - Z_of_bool (is_snp ref a p && is_snp ref b p)
    - Z_of_bool (same_base ref a b p).
Proof.
  intros a b. unfold same_base.
  destruct (row_cell_cases ref ra p) as [(Sa & Ca) | (Sa & Ca & Va)];
    destruct (row_cell_cases ref rb p) as [(Sb & Cb) | (Sb & Cb & Vb)];
    fold a in Sa, Ca; fold b in Sb, Cb; rewrite Sa, Sb, Ca, Cb;
    rewrite pos_term_cells by (try (left; reflexivity); right; assumption);
    cbn [andb Z_of_bool].
  - reflexivity.
  - fold b in Vb. apply is_acgt_facts in Vb.
    destruct (Z.eqb_spec 0 (nth p b 0)); [lia|]. reflexivity.
  - fold a in Va. apply is_acgt_facts in Va.
    destruct (Z.eqb_spec (nth p a 0) 0); [lia|]. reflexivity.
  - destruct (Z.eqb_spec (nth p a 0) (nth p b 0)); reflexivity.
Qed.

(** The engine on two encodings: an entry is the sum over the positions of
    the reference of the term of the two cells. *)
Lemma encoded_entry (ref : list Z) (f : Z) (accA accB : list SeqRecord)
    (DA DB : snp_dict) (c : list Z) :
  encodes ref f accA DA -> encodes ref f accB DB ->
  exists d,
    calculate_distance_matrix (snps DA) (snps DB) c = Ok d
    /\ is_mat d (length accA) (length accB)
         (fun i j =>
            sum_upto (length ref)
              (fun p => pos_term
                          (row_cell ref (int_array f (nth i accA empty_record)) f p)
                          (row_cell ref (int_array f (nth j accB empty_record)) f p))).
Proof.
  intros EA EB.
  assert (HL : shape1 (snps DA) = shape1 (snps DB))
    by (rewrite (enc_shape1 _ _ _ _ EA), (enc_shape1 _ _ _ _ EB); reflexivity).
  destruct (calculate_distance_matrix_closed _ _ c HL) as (d & E & D0 & D1 & H).
  exists d. split; [assumption|].
  rewrite (enc_shape0 _ _ _ _ EA) in D0, H. rewrite (enc_shape0 _ _ _ _ EB) in D1, H.
  repeat split; try assumption.
  intros i j Hi Hj. rewrite H by assumption.
  rewrite distance_formula_sum by assumption.
  rewrite (enc_shape1 _ _ _ _ EA).
  apply sum_upto_ext. intros p _.
  rewrite (enc_item _ _ _ _ EA), (enc_item _ _ _ _ EB). reflexivity.
Qed.

(** A cell of an encoding is never the unknown code. *)
Lemma encoded_cell_not_110 (ref : list Z) (acc : list SeqRecord) (D : snp_dict)
    (i p : nat) :
  encodes ref 110 acc D -> (item (snps D) i p =? 110) = false.
Proof.
  intros E. rewrite (enc_item _ _ _ _ E).
  destruct (row_cell_cases ref (nth i acc empty_record) p) as [(_ & C) | (_ & C & V)];
    rewrite C; [reflexivity|].
  apply is_acgt_facts in V. apply Z.eqb_neq. tauto.
Qed.

(** C1, amended.  For two sets encoded against the same reference the
    engine returns, and the entry [(i, j)] equals the number of positions
    where sequence [i] or sequence [j] is a SNP (carries a base a, c, g or t
    that differs from the reference: SNPs of [i], plus SNPs of [j], minus
    the positions that are SNPs in both), minus the number of positions
    where both carry the same non-reference base.  Masked positions of the
    original sequences enter none of these counts, and the three masked
    terms of the engine (cells equal to 110 in row [i], in row [j], in
    both) are zero. *)
Theorem encoded_distance_formula (ref : list Z) (la lb : list SeqRecord)
    (csa csb : Z) (igna ignb : list string) (DA DB : snp_dict)
    (resta restb : list SeqRecord) (c : list Z) :
  calculate_snp_matrix la (Some ref) 110 csa igna = Ok (Some DA, resta) ->
  calculate_snp_matrix lb (Some ref) 110 csb ignb = Ok (Some DB, restb) ->
  exists d,
    calculate_distance_matrix (snps DA) (snps DB) c = Ok d
    /\ forall i j,
         (i < length (accepted csa igna la))%nat ->
         (j < length (accepted csb ignb lb))%nat ->
         item d i j
         = snp_distance ref
             (int_array 110 (nth i (accepted csa igna la) empty_record))
             (int_array 110 (nth j (accepted csb ignb lb) empty_record))
         /\ count_eq (snps DA) i 110 = 0
         /\ count_eq (snps DB) j 110 = 0
         /\ count_both_eq (snps DA) (snps DB) i j 110 = 0.
Proof.
  intros HA HB.
  apply calculate_snp_matrix_inv in HA. destruct HA as (_ & EA & _).
  apply calculate_snp_matrix_inv in HB. destruct HB as (_ & EB & _).
  destruct (encoded_entry ref 110 _ _ DA DB c EA EB) as (d & E & _ & _ & H).
  exists d. split; [assumption|]. intros i j Hi Hj.
  split; [|split; [|split]].
  - rewrite H by assumption. rewrite snp_distance_sum.
    apply sum_upto_ext. intros p _. apply pos_term_encoded.
  - apply sum_upto_zero. intros p _.
    rewrite (encoded_cell_not_110 ref _ DA i p EA). reflexivity.
  - apply sum_upto_zero. intros p _.
    rewrite (encoded_cell_not_110 ref _ DB j p EB). reflexivity.
  - apply sum_upto_zero. intros p _.
    rewrite (encoded_cell_not_110 ref _ DA i p EA). reflexivity.
Qed.

Lemma encoded_distance_formula_witness :
  exists d,
    calculate_distance_matrix (snps dict_x) (snps dict_y) [] = Ok d
    /\ forall i j,
         (i < length (accepted 0 [] example_x))%nat ->
         (j < length (accepted 0 [] example_y))%nat ->
         item d i j
         = snp_distance ref_a
             (int_array 110 (nth i (accepted 0 [] example_x) empty_record))
             (int_array 110 (nth j (accepted 0 [] example_y) empty_record))
         /\ count_eq (snps dict_x) i 110 = 0
         /\ count_eq (snps dict_y) j 110 = 0
         /\ count_both_eq (snps dict_x) (snps dict_y) i j 110 = 0.
Proof.
  apply (encoded_distance_formula ref_a example_x example_y 0 0 [] []
           dict_x dict_y [] [] []); reflexivity.
Defined.

(** ** The shared-masked term *)

(** C2 as stated fails: against the reference [a], two sequences [n] are
    both masked at the one position, and the term is 0. *)
Lemma shared_masked_counterexample :
  shared_masked_entry ref_a [rec_ "x" "n"] [rec_ "y" "n"] 0 0 = Some 0
  /\ both_masked_count ref_a (int_array 110 (rec_ "x" "n"))
       (int_array 110 (rec_ "y" "n")) = 1.
Proof. split; vm_compute; reflexivity. Qed.

(** C2, amended.  For two sets encoded against the same reference the
    shared-masked term of the engine is, for every pair [(i, j)], the number
    of positions at which both SNP-matrix cells hold the code 110; the
    encoder stores no such cell, so the term is 0 for every pair, however
    many positions are masked in both original sequences. *)
Theorem shared_masked_term_encoded (ref : list Z) (la lb : list SeqRecord)
    (csa csb : Z) (igna ignb : list string) (DA DB : snp_dict)
    (resta restb : list SeqRecord) :
  calculate_snp_matrix la (Some ref) 110 csa igna = Ok (Some DA, resta) ->
  calculate_snp_matrix lb (Some ref) 110 csb ignb = Ok (Some DB, restb) ->
  exists M,
    shared_masked_term (snps DA) (snps DB) = Ok M
    /\ forall i j, (i < shape0 (snps DA))%nat -> (j < shape0 (snps DB))%nat ->
         item M i j = count_both_eq (snps DA) (snps DB) i j 110
         /\ item M i j = 0.
Proof.
  intros HA HB.
  apply calculate_snp_matrix_inv in HA. destruct HA as (_ & EA & _).
  apply calculate_snp_matrix_inv in HB. destruct HB as (_ & EB & _).
  assert (HL : shape1 (snps DA) = shape1 (snps DB))
    by (rewrite (enc_shape1 _ _ _ _ EA), (enc_shape1 _ _ _ _ EB); reflexivity).
  unfold shared_masked_term, todense.
  destruct (matmul_spec (scale 1 (eq_scalar (snps DA) 110))
              (transpose (eq_scalar (snps DB) 110))
              (shape0 (snps DA)) (shape1 (snps DA)) (shape0 (snps DB))
              (fun i p => 1 * Z_of_bool (item (snps DA) i p =? 110))
              (fun p j => Z_of_bool (item (snps DB) j p =? 110)))
    as (M & E & _ & _ & H).
  { repeat split. }
  { rewrite HL. repeat split. }
  rewrite E. cbn [bind]. exists M. split; [reflexivity|].
  intros i j Hi Hj. rewrite H by assumption.
  assert (H0 : count_both_eq (snps DA) (snps DB) i j 110 = 0).
  { apply sum_upto_zero. intros p _.
    rewrite (encoded_cell_not_110 ref _ DA i p EA). reflexivity. }
  assert (H1 : sum_upto (shape1 (snps DA))
                 (fun p => 1 * Z_of_bool (item (snps DA) i p =? 110)
                           * Z_of_bool (item (snps DB) j p =? 110))
               = count_both_eq (snps DA) (snps DB) i j 110).
  { unfold count_both_eq. apply sum_upto_ext. intros p _. lia. }
  rewrite H1. split; [reflexivity|assumption].
Qed.

Lemma shared_masked_term_encoded_witness :
  exists M,
    shared_masked_term (snps dict_x) (snps dict_x2) = Ok M
    /\ forall i j, (i < shape0 (snps dict_x))%nat -> (j < shape0 (snps dict_x2))%nat ->
         item M i j = count_both_eq (snps dict_x) (snps dict_x2) i j 110
         /\ item M i j = 0.
Proof.
  apply (shared_masked_term_encoded ref_a example_x example_x2 0 0 [] []
           dict_x dict_x2 [] []); reflexivity.
Defined.

(** ** What one position contributes *)

Lemma contribution_pos_term (A B : matrix) (c : list Z) (p i j : nat) :
  (i < shape0 A)%nat -> (j < shape0 B)%nat ->
  contribution A B c p i j = Ok (pos_term (item A i p) (item B j p)).
Proof.
  intros Hi Hj. unfold contribution.
  destruct (calculate_distance_matrix_closed (column A p) (column B p) c eq_refl)
    as (d & E & _ & _ & H).
  rewrite E. cbn [bind]. rewrite H by assumption.
  rewrite distance_formula_sum by reflexivity. cbn. reflexivity.
Qed.

(** An entry is the sum of the contributions of the positions. *)
Lemma entry_sum_of_contributions (A B : matrix) (c : list Z) :
  shape1 A = shape1 B ->
  exists d,
    calculate_distance_matrix A B c = Ok d
    /\ forall i j, (i < shape0 A)%nat -> (j < shape0 B)%nat ->
         exists t : nat -> Z,
           (forall p, contribution A B c p i j = Ok (t p))
           /\ item d i j = sum_upto (shape1 A) t.
Proof.
  intros HL.
  destruct (calculate_distance_matrix_closed A B c HL) as (d & E & _ & _ & H).
  exists d. split; [assumption|]. intros i j Hi Hj.
  exists (fun p => pos_term (item A i p) (item B j p)). split.
  - intros p. apply contribution_pos_term; assumption.
  - rewrite H by assumption. apply distance_formula_sum. assumption.
Qed.

(** C3 as stated fails: against the reference [a], position 0 is masked
    in [n] and not in [c], and it adds 1 to their distance. *)
Lemma masked_one_side_counterexample :
  masked (int_array 110 (rec_ "x" "n")) 0 = true
  /\ masked (int_array 110 (rec_ "y" "c")) 0 = false
  /\ contribution_entry ref_a [rec_ "x" "n"] [rec_ "y" "c"] 0 0 0 = Some 1.
Proof. repeat split; vm_compute; reflexivity. Qed.

(** C3, amended.  For every pair of encoded sequences [i] and [j] and every
    position [p] masked in exactly one of the two, the position contributes
    to the entry [(i, j)] zero when the unmasked sequence equals the
    reference at [p], and one when the unmasked sequence differs from the
    reference at [p]: the masked symbol is not stored and counts as the
    reference. *)
Theorem masked_one_side_contribution (ref : list Z) (la lb : list SeqRecord)
    (csa csb : Z) (igna ignb : list string) (DA DB : snp_dict)
    (resta restb : list SeqRecord) (c : list Z) (p i j : nat) :
  calculate_snp_matrix la (Some ref) 110 csa igna = Ok (Some DA, resta) ->
  calculate_snp_matrix lb (Some ref) 110 csb ignb = Ok (Some DB, restb) ->
  (i < length (accepted csa igna la))%nat ->
  (j < length (accepted csb ignb lb))%nat ->
  let a := int_array 110 (nth i (accepted csa igna la) empty_record) in
  let b := int_array 110 (nth j (accepted csb ignb lb) empty_record) in
  (masked a p = true -> masked b p = false ->
   contribution (snps DA) (snps DB) c p i j = Ok (Z_of_bool (deviates ref b p)))
  /\ (masked a p = false -> masked b p = true ->
      contribution (snps DA) (snps DB) c p i j = Ok (Z_of_bool (deviates ref a p))).
Proof.
  intros HA HB Hi Hj a b.
  apply calculate_snp_matrix_inv in HA. destruct HA as (_ & EA & _).
  apply calculate_snp_matrix_inv in HB. destruct HB as (_ & EB & _).
  rewrite contribution_pos_term
    by (rewrite ?(enc_shape0 _ _ _ _ EA), ?(enc_shape0 _ _ _ _ EB); assumption).
  rewrite (enc_item _ _ _ _ EA), (enc_item _ _ _ _ EB).
  rewrite pos_term_encoded. fold a b. unfold same_base, is_snp.
  split; intros Ma Mb; rewrite Ma, Mb; cbn [negb andb];
    rewrite ?andb_false_r, ?andb_true_r; cbn [andb Z_of_bool]; f_equal; lia.
Qed.

Lemma masked_one_side_contribution_witness :
  let a := int_array 110 (nth 0 (accepted 0 [] example_x) empty_record) in
  let b := int_array 110 (nth 0 (accepted 0 [] example_y) empty_record) in
  (masked a 0 = true -> masked b 0 = false ->
   contribution (snps dict_x) (snps dict_y) [] 0 0 0
   = Ok (Z_of_bool (deviates ref_a b 0)))
  /\ (masked a 0 = false -> masked b 0 = true ->
      contribution (snps dict_x) (snps dict_y) [] 0 0 0
      = Ok (Z_of_bool (deviates ref_a a 0))).
Proof.
  apply (masked_one_side_contribution ref_a example_x example_y 0 0 [] []
           dict_x dict_y [] [] [] 0 0 0);
    try reflexivity; cbn; lia.
Defined.

(** ** A sequence encoded against itself *)

Lemma snp_mask_self (s : list Z) (f : Z) :
  filter (fun b => b) (snp_mask s s f) = [].
Proof.
  induction s as [|x s IH]; [reflexivity|].
  cbn [snp_mask]. rewrite Z.eqb_refl. cbn. assumption.
Qed.

Lemma snp_count_self (s : list Z) (f : Z) : snp_count s s f = O.
Proof. unfold snp_count. rewrite snp_mask_self. reflexivity. Qed.

Lemma row_cell_self (s : list Z) (f : Z) (p : nat) : row_cell s s f p = 0.
Proof.
  unfold row_cell, snp_cell. destruct (nth_error s p); [|reflexivity].
  rewrite Z.eqb_refl. reflexivity.
Qed.

Lemma in_flatnonzero_from (mask : list bool) (k x : Z) :
  In x (flatnonzero_from k mask)
  <-> exists n, x = k + Z.of_nat n /\ nth_error mask n = Some true.
Proof.
  revert k. induction mask as [|b mask IH]; intros k.
  - cbn. split; [contradiction|]. intros (n & _ & H). destruct n; discriminate.
  - cbn [flatnonzero_from]. split.
    + intros H. destruct b.
      * destruct H as [H|H].
        -- exists O. split; [lia|reflexivity].
        -- apply IH in H. destruct H as (n & -> & Hn). exists (S n). split; [lia|assumption].
      * apply IH in H. destruct H as (n & -> & Hn). exists (S n). split; [lia|assumption].
    + intros ([|n] & -> & Hn).
      * cbn in Hn. injection Hn as ->. left. lia.
      * cbn in Hn. assert (Hin : In (k + Z.of_nat (S n)) (flatnonzero_from (k + 1) mask)).
        { apply IH. exists n. split; [lia|assumption]. }
        destruct b; [right|]; assumption.
Qed.

(** The masked-position list of a sequence lists its masked positions. *)
Lemma in_where_eq (s : list Z) (p : nat) :
  In (Z.of_nat p) (where_eq s 110) <-> masked s p = true.
Proof.
  unfold where_eq, flatnonzero, masked. rewrite in_flatnonzero_from. split.
  - intros (n & E & H). assert (n = p) by lia. subst n.
    rewrite nth_error_map in H. destruct (nth_error s p); [|discriminate].
    cbn in H. injection H as H. exact H.
  - intros H. exists p. split; [lia|]. rewrite nth_error_map.
    destruct (nth_error s p); [|discriminate]. cbn. rewrite H. reflexivity.
Qed.

(** ** The reference taken from the first record *)

Lemma grow_fields (st : enc_state) (x : Z) :
  row (grow st x)
  = (if 2 * x >=? current_length st
     then resize (row st) (current_length st + INITIALISATION_LENGTH) else row st)
  /\ col (grow st x)
     = (if 2 * x >=? current_length st
        then resize (col st) (current_length st + INITIALISATION_LENGTH) else col st)
  /\ val (grow st x)
     = (if 2 * x >=? current_length st
        then resize (val st) (current_length st + INITIALISATION_LENGTH) else val st)
  /\ current_length (grow st x)
     = (if 2 * x >=? current_length st
        then current_length st + INITIALISATION_LENGTH else current_length st).
Proof.
  unfold grow. destruct (2 * x >=? current_length st); repeat split.
Qed.

Lemma encode_record_first (f : Z) (rec : SeqRecord) :
  encode_record f (init_state None) rec
  = encode_record f (init_state (Some (int_array f rec))) rec.
Proof.
  unfold encode_record.
  set (stN := init_state None). set (stS := init_state (Some (int_array f rec))).
  destruct (grow_fields stN (n_snps stN + np_sum (snp_mask (sequence_to_int_array (seq_ rec) f true) (sequence_to_int_array (seq_ rec) f true) f)))
    as (R1 & C1 & V1 & L1).
  destruct (grow_fields stS (n_snps stS + np_sum (snp_mask (int_array f rec) (sequence_to_int_array (seq_ rec) f true) f)))
    as (R2 & C2 & V2 & L2).
  change (consensus stN) with (@None (list Z)).
  change (consensus stS) with (Some (int_array f rec)).
  cbn iota beta zeta.
  rewrite R1, C1, V1, L1, R2, C2, V2, L2.
  unfold int_array. rewrite length_sequence_to_int_array. reflexivity.
Qed.

(** Without a supplied reference the call behaves as with the array of its
    first accepted record as the reference. *)
Lemma calculate_snp_matrix_first (l : list SeqRecord) (f cs : Z)
    (ign : list string) (rec0 : SeqRecord) :
  first_accepted ign l = Some rec0 ->
  calculate_snp_matrix l None f cs ign
  = calculate_snp_matrix l (Some (int_array f rec0)) f cs ign.
Proof.
  intros H. unfold calculate_snp_matrix. f_equal.
  induction l as [|rec l IH]; [discriminate|].
  cbn [first_accepted for_records] in *.
  destruct (string_in (name rec) ign); [apply IH; assumption|].
  injection H as ->. rewrite encode_record_first. reflexivity.
Qed.

(** C8 as stated fails: [acnt] encoded against itself, as the first record
    or with its own array as the supplied reference, has the masked-position
    list [2], not the empty list. *)
Lemma self_encoding_counterexample :
  filled_positions
    (dict_of (calculate_snp_matrix [rec_ "s" "acnt"] None 110 0 [])) = [[2]]
  /\ filled_positions
       (dict_of (calculate_snp_matrix [rec_ "s" "acnt"]
                   (Some (sequence_to_int_array "acnt" 110 true)) 110 0 [])) = [[2]].
Proof. split; vm_compute; reflexivity. Qed.

Lemma accepted_single (cs : Z) (rec : SeqRecord) :
  take_chunk cs [] 0 [rec] = ([rec], []).
Proof.
  cbn. destruct (negb (cs =? 0) && (cs =? 1)); reflexivity.
Qed.

(** C8, amended.  For every sequence [S] of ASCII symbols, running the
    encoder with [S] as the only input record and as the reference (taken
    from the first record, or supplied as the array of [S]) yields a SNP
    matrix with one row and zero non-zero entries, and a masked-position
    list for that row that holds exactly the positions of [S] whose symbol
    is not a, c, g or t. *)
Theorem self_encoding (h S : string) (cs : Z) :
  isascii S = true ->
  (exists D, calculate_snp_matrix [rec_ h S] None 110 cs [] = Ok (Some D, [])
             /\ self_encoded S D)
  /\ (exists D, calculate_snp_matrix [rec_ h S]
                  (Some (sequence_to_int_array S 110 true)) 110 cs []
                = Ok (Some D, [])
                /\ self_encoded S D).
Proof.
  intros _.
  assert (HS : exists D, calculate_snp_matrix [rec_ h S]
                  (Some (sequence_to_int_array S 110 true)) 110 cs []
                = Ok (Some D, [])
                /\ self_encoded S D).
  { destruct (calculate_snp_matrix_safe [rec_ h S]
                (sequence_to_int_array S 110 true) 110 cs []) as (oD & E & HD).
    - unfold accepted. rewrite accepted_single. cbn [fst].
      constructor; [|constructor]. split.
      + cbn [seq_ rec_]. rewrite length_sequence_to_int_array. reflexivity.
      + unfold int_array. cbn [seq_ rec_]. rewrite snp_count_self.
        unfold INITIALISATION_LENGTH. lia.
    - unfold accepted, remaining in *. rewrite accepted_single in *.
      cbn [fst snd] in *.
      destruct oD as [D|]; [|discriminate].
      destruct HD as (_ & HD). exists D. split; [assumption|].
      unfold self_encoded. repeat split.
      + exact (enc_shape0 _ _ _ _ HD).
      + rewrite (enc_shape1 _ _ _ _ HD). apply length_sequence_to_int_array.
      + intros i p. rewrite (enc_item _ _ _ _ HD).
        destruct i as [|i]; cbn [nth].
        * apply row_cell_self.
        * destruct i; apply row_cell_nil.
      + exact (enc_filled _ _ _ _ HD).
      + apply in_where_eq.
      + apply in_where_eq. }
  split; [|assumption].
  rewrite (calculate_snp_matrix_first _ _ _ _ (rec_ h S)) by reflexivity.
  assumption.
Qed.

Lemma self_encoding_witness :
  (exists D, calculate_snp_matrix [rec_ "s" "acNt-"] None 110 0 [] = Ok (Some D, [])
             /\ self_encoded "acNt-" D)
  /\ (exists D, calculate_snp_matrix [rec_ "s" "acNt-"]
                  (Some (sequence_to_int_array "acNt-" 110 true)) 110 0 []
                = Ok (Some D, [])
                /\ self_encoded "acNt-" D).
Proof.
  apply (self_encoding "s" "acNt-" 0). reflexivity.
Defined.

(** ** The buffers never overflow under the half-increment bound *)

Lemma reaches_some (f : Z) (ref : list Z) (acc : list SeqRecord) (st : enc_state) :
  reaches f (Some ref) acc st -> Inv ref f st acc.
Proof.
  induction 1 as [|acc st rec st' _ IH E]; [apply Inv_init|].
  destruct (encode_record_spec ref f st acc rec IH)
    as [(_ & E') | [(_ & _ & E') | (_ & _ & st1 & E' & I1 & _)]];
    rewrite E' in E; try discriminate.
  injection E as <-. assumption.
Qed.

Lemma reaches_none (f : Z) (acc : list SeqRecord) (st : enc_state) :
  reaches f None acc st ->
  match acc with
  | [] => st = init_state None
  | rec :: _ => reaches f (Some (int_array f rec)) acc st
  end.
Proof.
  induction 1 as [|acc st rec st' _ IH E]; [reflexivity|].
  destruct acc as [|rec0 acc]; cbn [app].
  - subst st. rewrite encode_record_first in E.
    apply (reaches_step f _ [] (init_state (Some (int_array f rec))) rec st');
      [constructor|assumption].
  - apply (reaches_step f _ (rec0 :: acc) st rec st'); assumption.
Qed.

(** The loop only passes through such states. *)
Lemma for_records_reaches (f cs : Z) (ign : list string) (c0 : option (list Z))
    (l : list SeqRecord) :
  forall acc st st' rest,
    reaches f c0 acc st ->
    for_records f cs ign st l = Ok (st', rest) ->
    exists acc', reaches f c0 (acc ++ acc') st'.
Proof.
  induction l as [|rec l IH]; intros acc st st' rest R H; cbn [for_records] in H.
  - injection H as <- _. exists []. rewrite app_nil_r. exact R.
  - destruct (string_in (name rec) ign); [apply (IH acc st st' rest R H)|].
    destruct (encode_record f st rec) as [st1|e] eqn:E; [|discriminate].
    pose proof (reaches_step f c0 acc st rec st1 R E) as R1.
    destruct (negb (cs =? 0) && (cs =? nseqs st1)).
    + injection H as <- _. exists [rec]. exact R1.
    + destruct (IH _ _ _ _ R1 H) as (acc' & R').
      exists (rec :: acc'). rewrite <- app_assoc in R'. exact R'.
Qed.

Lemma snp_count_le_ref (ref s : list Z) (f : Z) :
  (snp_count ref s f <= length ref)%nat.
Proof.
  unfold snp_count. revert s.
  induction ref as [|c ref IH]; intros [|x s]; cbn; try lia.
  specialize (IH s).
  destruct (negb (c =? x) && negb (x =? f)); cbn; lia.
Qed.

Lemma Inv_half (ref : list Z) (f : Z) (acc : list SeqRecord) (st : enc_state) :
  reaches f (Some ref) acc st ->
  Forall (fun rec => 2 * triples ref f rec <= INITIALISATION_LENGTH) acc ->
  2 * n_snps st <= current_length st.
Proof.
  induction 1 as [|acc st rec st' R IH E]; intros HF.
  - cbn. unfold INITIALISATION_LENGTH. lia.
  - apply Forall_app in HF. destruct HF as (HF & Hrec).
    inversion Hrec as [|? ? Hc _]; subst. specialize (IH HF).
    pose proof (reaches_some _ _ _ _ R) as I.
    assert (Hn0 : 0 <= n_snps st) by (rewrite (inv_n _ _ _ _ I); lia).
    destruct (grow_spec st (n_snps st + Z.of_nat (snp_count ref (int_array f rec) f))
                (inv_size_row _ _ _ _ I) (inv_size_col _ _ _ _ I)
                (inv_size_val _ _ _ _ I) (conj Hn0 (inv_cap _ _ _ _ I)))
      as (_ & _ & _ & _ & _ & _ & G7).
    destruct (encode_record_spec ref f st acc rec I)
      as [(_ & E') | [(_ & _ & E') | (_ & _ & st1 & E' & I1 & C1)]];
      rewrite E' in E; try discriminate.
    injection E as <-. rewrite C1.
    rewrite (inv_n _ _ _ _ I1), enc_val_snoc, length_app, length_select_mask.
    pose proof (inv_n _ _ _ _ I) as En. unfold triples in Hc. lia.
Qed.

Lemma record_fits_Inv (ref : list Z) (st : enc_state) (acc : list SeqRecord)
    (rec : SeqRecord) :
  Inv ref 110 st acc ->
  2 * n_snps st <= current_length st ->
  2 * triples ref 110 rec <= INITIALISATION_LENGTH ->
  record_fits ref st rec.
Proof.
  intros I Hh Hc. unfold record_fits, triples in *. cbn zeta.
  assert (Hn0 : 0 <= n_snps st) by (rewrite (inv_n _ _ _ _ I); lia).
  destruct (grow_spec st (n_snps st + Z.of_nat (snp_count ref (int_array 110 rec) 110))
              (inv_size_row _ _ _ _ I) (inv_size_col _ _ _ _ I)
              (inv_size_val _ _ _ _ I) (conj Hn0 (inv_cap _ _ _ _ I)))
    as (G1 & G2 & G3 & _ & _ & _ & G7).
  split; [|split].
  - repeat split; try assumption; lia.
  - intros HL.
    destruct (encode_record_spec ref 110 st acc rec I)
      as [(E & _) | [(_ & E & _) | (_ & Hfit & st1 & E & I1 & C1)]];
      [contradiction | exfalso; lia |].
    exists st1. split; [assumption|].
    assert (En : n_snps st1
                 = n_snps st + Z.of_nat (snp_count ref (int_array 110 rec) 110)).
    { rewrite (inv_n _ _ _ _ I1), enc_val_snoc, length_app, length_select_mask.
      rewrite (inv_n _ _ _ _ I). lia. }
    split; [assumption|]. split; [assumption|].
    unfold half_full. rewrite (inv_size_row _ _ _ _ I1), (inv_size_col _ _ _ _ I1),
      (inv_size_val _ _ _ _ I1). repeat split. rewrite En, C1. lia.
  - intros HL.
    destruct (encode_record_spec ref 110 st acc rec I)
      as [(_ & E) | [(E & _) | (E & _)]]; [assumption | contradiction | contradiction].
Qed.

Lemma for_records_no_overflow (ref : list Z) (cs : Z) (ign : list string)
    (l : list SeqRecord) :
  forall st acc,
    Inv ref 110 st acc ->
    2 * n_snps st <= current_length st ->
    Forall (fun rec => 2 * triples ref 110 rec <= INITIALISATION_LENGTH)
           (fst (take_chunk cs ign (nseqs st) l)) ->
    for_records 110 cs ign st l <> Raise BroadcastError.
Proof.
  induction l as [|rec l IH]; intros st acc I Hh HF; cbn [for_records take_chunk] in *.
  - discriminate.
  - destruct (string_in (name rec) ign); [apply (IH st acc); assumption|].
    assert (Hrec : 2 * triples ref 110 rec <= INITIALISATION_LENGTH).
    { destruct (negb (cs =? 0) && (cs =? nseqs st + 1)).
      - inversion HF; assumption.
      - destruct (take_chunk cs ign (nseqs st + 1) l). inversion HF; assumption. }
    destruct (record_fits_Inv ref st acc rec I Hh Hrec) as (_ & Hok & Hbad).
    destruct (Nat.eq_dec (String.length (seq_ rec)) (length ref)) as [HL|HL].
    2:{ rewrite (Hbad HL). discriminate. }
    destruct (Hok HL) as (st1 & E & _ & _ & Hh1 & _). rewrite E.
    destruct (encode_record_spec ref 110 st acc rec I)
      as [(_ & E') | [(_ & _ & E') | (_ & _ & st1' & E' & I1 & _)]];
      rewrite E' in E; try discriminate.
    injection E as ->.
    rewrite (inv_nseqs _ _ _ _ I1), length_app, Nat2Z.inj_add.
    cbn [length]. change (Z.of_nat 1) with 1.
    rewrite (inv_nseqs _ _ _ _ I) in HF.
    destruct (negb (cs =? 0) && (cs =? Z.of_nat (length acc) + 1)); [discriminate|].
    apply (IH st1 (acc ++ [rec]) I1 Hh1).
    rewrite (inv_nseqs _ _ _ _ I1), length_app, Nat2Z.inj_add.
    cbn [length]. change (Z.of_nat 1) with 1.
    destruct (take_chunk cs ign (Z.of_nat (length acc) + 1) l).
    inversion HF; assumption.
Qed.

Lemma first_accepted_none (f cs : Z) (ign : list string) (l : list SeqRecord)
    (st : enc_state) (k : Z) :
  first_accepted ign l = None ->
  for_records f cs ign st l = Ok (st, []) /\ take_chunk cs ign k l = ([], []).
Proof.
  induction l as [|rec l IH]; intros H; cbn [first_accepted for_records take_chunk] in *.
  - split; reflexivity.
  - destruct (string_in (name rec) ign); [apply IH; assumption|discriminate].
Qed.

Lemma first_accepted_some (cs : Z) (ign : list string) (l : list SeqRecord)
    (rec0 : SeqRecord) (k : Z) :
  first_accepted ign l = Some rec0 ->
  exists t, fst (take_chunk cs ign k l) = rec0 :: t.
Proof.
  induction l as [|rec l IH]; intros H; cbn [first_accepted take_chunk] in *;
    [discriminate|].
  destruct (string_in (name rec) ign); [apply IH; assumption|].
  injection H as ->.
  destruct (negb (cs =? 0) && (cs =? k + 1)).
  - exists []. reflexivity.
  - destruct (take_chunk cs ign (k + 1) l) as [a r']. exists a. reflexivity.
Qed.

(** The reference in force in a call is the supplied one, or the array of
    the first accepted record. *)
Lemma calculate_snp_matrix_ref_of (l : list SeqRecord) (c0 : option (list Z))
    (cs : Z) (ign : list string) :
  accepted cs ign l <> [] ->
  calculate_snp_matrix l c0 110 cs ign
  = calculate_snp_matrix l (Some (ref_of 110 c0 (accepted cs ign l))) 110 cs ign.
Proof.
  intros Hne. destruct c0 as [c|]; [reflexivity|].
  destruct (first_accepted ign l) as [rec0|] eqn:F.
  - rewrite (calculate_snp_matrix_first _ _ _ _ _ F).
    destruct (first_accepted_some cs ign l rec0 0 F) as (t & Ht).
    unfold accepted, ref_of. rewrite Ht. reflexivity.
  - exfalso. apply Hne. unfold accepted.
    destruct (first_accepted_none 110 cs ign l (init_state None) 0 F) as (_ & ->).
    reflexivity.
Qed.

Lemma no_overflow_some (l : list SeqRecord) (ref : list Z) (cs : Z)
    (ign : list string) :
  Forall (fun rec => 2 * triples ref 110 rec <= INITIALISATION_LENGTH)
         (accepted cs ign l) ->
  calculate_snp_matrix l (Some ref) 110 cs ign <> Raise BroadcastError.
Proof.
  intros HF. unfold calculate_snp_matrix.
  pose proof (for_records_no_overflow ref cs ign l _ _ (Inv_init ref 110)) as H.
  destruct (for_records 110 cs ign (init_state (Some ref)) l) as [[st rest]|e];
    cbn [bind].
  - destruct (nseqs st =? 0); discriminate.
  - intros E. injection E as ->. apply H; [|exact HF|reflexivity].
    cbn. unfold INITIALISATION_LENGTH. lia.
Qed.

Lemma fits_some (ref : list Z) (acc tail : list SeqRecord) (rec : SeqRecord)
    (st : enc_state) :
  Forall (fun rec => 2 * triples ref 110 rec <= INITIALISATION_LENGTH)
         (acc ++ rec :: tail) ->
  reaches 110 (Some ref) acc st ->
  half_full st /\ record_fits ref st rec.
Proof.
  intros HF R. apply Forall_app in HF. destruct HF as (HFa & HFr).
  inversion HFr as [|? ? Hrec _]; subst.
  pose proof (reaches_some _ _ _ _ R) as I.
  pose proof (Inv_half _ _ _ _ R HFa) as Hh.
  split.
  - unfold half_full. rewrite (inv_size_row _ _ _ _ I), (inv_size_col _ _ _ _ I),
      (inv_size_val _ _ _ _ I). repeat split. assumption.
  - apply (record_fits_Inv ref st acc rec); assumption.
Qed.

Lemma record_fits_first (rec : SeqRecord) :
  record_fits (int_array 110 rec) (init_state (Some (int_array 110 rec))) rec ->
  record_fits (int_array 110 rec) (init_state None) rec.
Proof.
  unfold record_fits. cbn zeta.
  set (x := n_snps (init_state (Some (int_array 110 rec)))
            + triples (int_array 110 rec) 110 rec).
  change (n_snps (init_state None) + triples (int_array 110 rec) 110 rec) with x.
  destruct (grow_fields (init_state None) x) as (R1 & C1 & V1 & L1).
  destruct (grow_fields (init_state (Some (int_array 110 rec))) x)
    as (R2 & C2 & V2 & L2).
  rewrite encode_record_first. rewrite R1, C1, V1, L1, R2, C2, V2, L2.
  intros H. exact H.
Qed.

(** C10.  If the alignment length is at most 500000, or, more generally, if
    every accepted record contributes at most 500000 SNP triples, then the
    call never raises from the buffers, and in every state the loop reaches
    before an accepted record: the buffers have the current capacity and
    the accumulated triple count is at most half of it; after the single
    growth step the new count [right] is at most the capacity, so the slice
    writes into [row], [col] and [val] are in bounds; and the record, when
    it has the reference's length, is written and leaves the count at most
    half of the capacity. *)
Theorem buffers_never_overflow (l : list SeqRecord) (c0 : option (list Z))
    (cs : Z) (ign : list string) :
  let ref := ref_of 110 c0 (accepted cs ign l) in
  Z.of_nat (length ref) <= 500000
  \/ Forall (fun rec => triples ref 110 rec <= 500000) (accepted cs ign l) ->
  calculate_snp_matrix l c0 110 cs ign <> Raise BroadcastError
  /\ forall acc rec tail st,
       accepted cs ign l = acc ++ rec :: tail ->
       reaches 110 c0 acc st ->
       half_full st /\ record_fits ref st rec.
Proof.
  intros ref H.
  assert (HF : Forall (fun rec => 2 * triples ref 110 rec <= INITIALISATION_LENGTH)
                 (accepted cs ign l)).
  { unfold INITIALISATION_LENGTH. destruct H as [H|H].
    - apply Forall_forall. intros rec _. unfold triples.
      pose proof (snp_count_le_ref ref (int_array 110 rec) 110). lia.
    - eapply Forall_impl; [|exact H]. cbn beta. intros rec Hr. lia. }
  clear H. split.
  - destruct (accepted cs ign l) as [|rec0 t] eqn:EA.
    + destruct c0 as [c|].
      * apply no_overflow_some. rewrite EA. constructor.
      * destruct (first_accepted ign l) as [rec0|] eqn:F.
        -- destruct (first_accepted_some cs ign l rec0 0 F) as (t & Ht).
           unfold accepted in EA. rewrite EA in Ht. discriminate.
        -- unfold calculate_snp_matrix.
           destruct (first_accepted_none 110 cs ign l (init_state None) 0 F)
             as (-> & _).
           cbn. discriminate.
    + rewrite calculate_snp_matrix_ref_of by (rewrite EA; discriminate).
      fold ref. apply no_overflow_some. rewrite EA. exact HF.
  - intros acc rec tail st EA R. subst ref. rewrite EA in *.
    destruct c0 as [c|]; cbn [ref_of] in *.
    + apply (fits_some c acc tail rec st); assumption.
    + apply reaches_none in R. destruct acc as [|rec0 acc]; cbn [app] in *.
      * subst st. split.
        -- unfold half_full. cbn. unfold INITIALISATION_LENGTH. repeat split. lia.
        -- apply record_fits_first.
           apply (fits_some (int_array 110 rec) [] tail rec); [exact HF|constructor].
      * apply (fits_some (int_array 110 rec0) (rec0 :: acc) tail rec st); assumption.
Qed.

Lemma buffers_never_overflow_witness :
  calculate_snp_matrix example_context (Some ref_acgt) 110 0 []
  <> Raise BroadcastError
  /\ forall acc rec tail st,
       accepted 0 [] example_context = acc ++ rec :: tail ->
       reaches 110 (Some ref_acgt) acc st ->
       half_full st
       /\ record_fits (ref_of 110 (Some ref_acgt) (accepted 0 [] example_context))
            st rec.
Proof.
  apply (buffers_never_overflow example_context (Some ref_acgt) 0 []).
  left. cbn. lia.
Defined.

(** ** A record of the wrong length *)


Lemma encode_record_ok_fields (f : Z) (st st' : enc_state) (rec : SeqRecord) :
  encode_record f st rec = Ok st' ->
  nseqs st' = nseqs st + 1
  /\ exists c', consensus st' = Some c'
       /\ length c' = String.length (seq_ rec)
       /\ (forall c, consensus st = Some c -> c' = c).
Proof.
  unfold encode_record.
  destruct (consensus st) as [c|] eqn:Ec; cbn iota beta zeta.
  - destruct (Z.eqb_spec (Z.of_nat (String.length (seq_ rec))) (Z.of_nat (length c)))
      as [EL|EL]; cbn [negb]; [|discriminate].
    destruct (set_slice _ _ _ _) as [col'|]; cbn [bind]; [|discriminate].
    destruct (set_slice _ _ _ _) as [val'|]; cbn [bind]; [|discriminate].
    intros H. injection H as <-. cbn. split; [reflexivity|].
    exists c. split; [reflexivity|]. split; [lia|]. intros c1 H1. congruence.
  - destruct (Z.eqb_spec (Z.of_nat (String.length (seq_ rec)))
                (Z.of_nat (String.length (seq_ rec)))) as [EL|EL];
      cbn [negb]; [|discriminate].
    destruct (set_slice _ _ _ _) as [col'|]; cbn [bind]; [|discriminate].
    destruct (set_slice _ _ _ _) as [val'|]; cbn [bind]; [|discriminate].
    intros H. injection H as <-. cbn. split; [reflexivity|].
    eexists. split; [reflexivity|].
    split; [exact (length_sequence_to_int_array (seq_ rec) f true)|].
    intros c1 H1. discriminate.
Qed.





(** ** The selection of the closest focal sequence *)

Lemma argmin_from_spec (l : list Q) :
  forall (best_i : nat) (best : Q) (k : nat),
    (best_i < k)%nat ->
    let j := argmin_from best_i best k l in
    exists m : Q,
      ((j = best_i /\ m = best)
       \/ ((k <= j)%nat /\ nth_error l (j - k) = Some m))
      /\ (m <= best)%Q
      /\ forall x, In x l -> (m <= x)%Q.
Proof.
  induction l as [|x l IH]; intros best_i best k Hk; cbn [argmin_from].
  - exists best. split; [left; split; reflexivity|]. split; [apply Qle_refl|].
    intros x [].
  - destruct (Qle_bool best x) eqn:E.
    + apply Qle_bool_iff in E.
      destruct (IH best_i best (S k) (Nat.lt_lt_succ_r _ _ Hk))
        as (m & Hm & Hb & Hall).
      exists m. split; [|split; [assumption|]].
      * destruct Hm as [Hm | (Hj & Hn)]; [left; assumption|].
        right. split; [lia|].
        replace (argmin_from best_i best (S k) l - k)%nat
          with (S (argmin_from best_i best (S k) l - S k)) by lia.
        exact Hn.
      * intros y [<-|Hy]; [apply (Qle_trans _ best); assumption|apply Hall; assumption].
    + assert (Hx : (x <= best)%Q).
      { apply Qlt_le_weak. apply Qnot_le_lt. intros H.
        apply Qle_bool_iff in H. congruence. }
      destruct (IH k x (S k) (Nat.lt_succ_diag_r k)) as (m & Hm & Hb & Hall).
      exists m. split; [|split].
      * right. destruct Hm as [(Hj & ->) | (Hj & Hn)].
        -- rewrite Hj. split; [lia|]. rewrite Nat.sub_diag. reflexivity.
        -- split; [lia|].
           replace (argmin_from k x (S k) l - k)%nat
             with (S (argmin_from k x (S k) l - S k)) by lia.
           exact Hn.
      * apply (Qle_trans _ x); assumption.
      * intros y [<-|Hy]; [assumption|apply Hall; assumption].
Qed.

(** [argmin] of a non-empty row is a position of the row whose value is at
    most every value of the row. *)
Lemma argmin_spec (l : list Q) :
  l <> [] ->
  exists m : Q,
    nth_error l (argmin l) = Some m /\ forall x, In x l -> (m <= x)%Q.
Proof.
  destruct l as [|x l]; [congruence|]. intros _. cbn [argmin].
  destruct (argmin_from_spec l O x 1%nat Nat.lt_0_1) as (m & Hm & Hb & Hall).
  exists m. split.
  - destruct Hm as [(-> & ->) | (Hj & Hn)]; [reflexivity|].
    replace (argmin_from 0 x 1 l) with (S (argmin_from 0 x 1 l - 1)) by lia.
    exact Hn.
  - intros y [<-|Hy]; [assumption|apply Hall; assumption].
Qed.

Lemma adjusted_row_nth (d : matrix) (mask : list Z) (L : Z) (i j : nat) :
  (j < shape1 d)%nat ->
  nth_error (adjusted_row d mask L i) j = Some (adjusted d mask L i j).
Proof.
  intros Hj. unfold adjusted_row.
  rewrite nth_error_map.
  rewrite (nth_error_nth' _ O) by (rewrite length_seq; assumption).
  rewrite seq_nth by assumption. reflexivity.
Qed.

Lemma closest_match_nth (d : matrix) (mask : list Z) (L : Z) (i : nat) :
  (i < shape0 d)%nat ->
  nth i (closest_match_of d mask L) O = argmin (adjusted_row d mask L i).
Proof.
  intros Hi. unfold closest_match_of.
  rewrite (nth_indep _ O (argmin (adjusted_row d mask L O)))
    by (rewrite length_map, length_seq; assumption).
  rewrite (map_nth (fun i => argmin (adjusted_row d mask L i))).
  rewrite seq_nth by assumption. reflexivity.
Qed.

(** C7.  For an alignment of positive length and each context sequence
    [i], the focal sequence that the script selects is an index [j] of the
    focal set that minimises
    [d[i, j] + (masked-position count of focal j) / alignment_length] over
    all focal sequences, where [d] is the raw distance matrix; the lines of
    the chunk are written from this selection, and the masked positions of
    the context sequences do not enter: another list of them gives the same
    lines. *)
Theorem closest_match_minimises (focal_seqs_dict context_seqs_dict : snp_dict)
    (alignment_length : Z) (d : matrix) (i : nat) :
  0 < alignment_length ->
  calculate_distance_matrix (snps context_seqs_dict) (snps focal_seqs_dict)
    (consensus_of context_seqs_dict) = Ok d ->
  (i < shape0 d)%nat ->
  (0 < shape1 d)%nat ->
  let mask_count_focal :=
    map (fun x => Z.of_nat (length x)) (filled_positions focal_seqs_dict) in
  let closest_match := closest_match_of d mask_count_focal alignment_length in
  let j := nth i closest_match O in
  (j < shape1 d)%nat
  /\ (forall j', (j' < shape1 d)%nat ->
        (adjusted d mask_count_focal alignment_length i j
         <= adjusted d mask_count_focal alignment_length i j')%Q)
  /\ chunk_lines focal_seqs_dict context_seqs_dict alignment_length
     = Ok (write_lines focal_seqs_dict context_seqs_dict d closest_match)
  /\ (forall fp,
        chunk_lines focal_seqs_dict (with_filled context_seqs_dict fp) alignment_length
        = chunk_lines focal_seqs_dict context_seqs_dict alignment_length).
Proof.
  intros _ Hd Hi Hpos mask closest_match j.
  assert (Hne : adjusted_row d mask alignment_length i <> []).
  { unfold adjusted_row. destruct (shape1 d); [lia|]. cbn. discriminate. }
  destruct (argmin_spec _ Hne) as (m & Hm & Hall).
  assert (Ej : j = argmin (adjusted_row d mask alignment_length i))
    by (apply closest_match_nth; assumption).
  rewrite <- Ej in Hm.
  assert (Hj : (j < shape1 d)%nat).
  { assert (H : (j < length (adjusted_row d mask alignment_length i))%nat)
      by (apply nth_error_Some; congruence).
    unfold adjusted_row in H. rewrite length_map, length_seq in H. exact H. }
  split; [assumption|]. split; [|split].
  - intros j' Hj'. rewrite (adjusted_row_nth d mask alignment_length i j Hj) in Hm.
    injection Hm as <-. apply Hall.
    apply (nth_error_In _ j'). apply adjusted_row_nth. assumption.
  - unfold chunk_lines. rewrite Hd. reflexivity.
  - intros fp. reflexivity.
Qed.

Lemma closest_match_minimises_witness :
  let mask_count_focal :=
    map (fun x => Z.of_nat (length x)) (filled_positions dict_focal) in
  let closest_match := closest_match_of example_d mask_count_focal 4 in
  let j := nth 1 closest_match O in
  (j < shape1 example_d)%nat
  /\ (forall j', (j' < shape1 example_d)%nat ->
        (adjusted example_d mask_count_focal 4 1 j
         <= adjusted example_d mask_count_focal 4 1 j')%Q)
  /\ chunk_lines dict_focal dict_context 4
     = Ok (write_lines dict_focal dict_context example_d closest_match)
  /\ (forall fp,
        chunk_lines dict_focal (with_filled dict_context fp) 4
        = chunk_lines dict_focal dict_context 4).
Proof.
  apply (closest_match_minimises dict_focal dict_context 4 example_d 1).
  - lia.
  - reflexivity.
  - vm_compute. lia.
  - vm_compute. lia.
Defined.

Example closest_match_example :
  closest_match_of example_d
    (map (fun x => Z.of_nat (length x)) (filled_positions dict_focal)) 4
  = [1%nat; 1%nat].
Proof. vm_compute. reflexivity. Qed.

(** ** Chunks *)

(** A Python dictionary filled with fresh keys keeps them in order. *)
Lemma dict_set_fresh {V : Type} (m : list (string * V)) (k : string) (v : V) :
  ~ In k (map fst m) -> dict_set m k v = m ++ [(k, v)].
Proof.
  induction m as [|[k' v'] m IH]; intros H; cbn [dict_set app]; [reflexivity|].
  destruct (String.eqb_spec k' k) as [E|E].
  - exfalso. apply H. left. exact E.
  - rewrite IH; [reflexivity|]. intros Hin. apply H. right. exact Hin.
Qed.

Lemma dict_fill_fresh {V : Type} (kf : nat -> string) (vf : nat -> nat -> V)
    (xs : list (nat * nat)) :
  forall m0,
    NoDup (map fst m0 ++ map (fun x => kf (fst x)) xs) ->
    fold_left (fun m '(ci, fi) => dict_set m (kf ci) (vf ci fi)) xs m0
    = m0 ++ map (fun '(ci, fi) => (kf ci, vf ci fi)) xs.
Proof.
  induction xs as [|[ci fi] xs IH]; intros m0 H; cbn [fold_left map].
  - rewrite app_nil_r. reflexivity.
  - cbn [map fst] in H. rewrite dict_set_fresh.
    + rewrite IH.
      * rewrite <- app_assoc. reflexivity.
      * rewrite map_app. cbn [map fst]. rewrite <- app_assoc. exact H.
    + apply NoDup_remove_2 in H. intros Hin. apply H. apply in_or_app. left. exact Hin.
Qed.

Lemma map_nth_seq_nat {X : Type} (l : list X) (dflt : X) :
  map (fun i => nth i l dflt) (seq 0 (length l)) = l.
Proof.
  induction l as [|x l IH]; [reflexivity|].
  cbn [length seq map nth]. f_equal.
  rewrite <- seq_shift, map_map. exact IH.
Qed.

Lemma combine_seq_map {Y : Type} (g : nat -> Y) (n : nat) :
  combine (seq 0 n) (map g (seq 0 n)) = map (fun i => (i, g i)) (seq 0 n).
Proof.
  generalize 0%nat as k. induction n as [|n IH]; intros k; [reflexivity|].
  cbn [seq map combine]. f_equal. apply IH.
Qed.

(** The lines of a chunk whose records have distinct names are the lines
    of its records, in order. *)
Lemma chunk_lines_encoded (ref : list Z) (focal acc : list SeqRecord)
    (DF DC : snp_dict) (L : Z) :
  encodes ref 110 focal DF -> encodes ref 110 acc DC ->
  focal <> [] ->
  NoDup (map name acc) ->
  chunk_lines DF DC L = Ok (map (line_of ref L focal) acc).
Proof.
  intros EF EC Hne Hnd. unfold chunk_lines.
  destruct (encoded_entry ref 110 acc focal DC DF (consensus_of DC) EC EF)
    as (d & Ed & D0 & D1 & Hd).
  rewrite Ed. cbn [bind]. f_equal. unfold write_lines.
  rewrite (enc_filled _ _ _ _ EF), (enc_names _ _ _ _ EF), (enc_names _ _ _ _ EC).
  set (mask := map (fun x => Z.of_nat (length x))
                 (map (fun rec => where_eq (int_array 110 rec) 110) focal)).
  unfold closest_match_of. rewrite length_map, length_seq, D0.
  rewrite combine_seq_map.
  rewrite (dict_fill_fresh (fun ci => nth ci (map name acc) EmptyString)
             (fun ci fi => (item d ci fi, nth fi (map name focal) EmptyString))).
  2:{ cbn [map app]. rewrite map_map. cbn [fst].
      rewrite <- (length_map name acc).
      rewrite (map_nth_seq_nat (map name acc) EmptyString). exact Hnd. }
  cbn [app]. rewrite !map_map.
  rewrite <- (map_nth_seq_nat acc empty_record) at 2. rewrite map_map.
  apply map_ext_in. intros i Hi. apply in_seq in Hi. cbn [Nat.add] in Hi.
  unfold line_of. fold mask.
  assert (Hrow : adjusted_row d mask L i
                 = map (fun j => (inject_Z (entry_of ref (nth i acc empty_record)
                                                (nth j focal empty_record))
                                  + inject_Z (nth j mask 0%Z) / inject_Z L)%Q)
                       (seq 0 (length focal))).
  { unfold adjusted_row. rewrite D1. apply map_ext_in. intros j Hj.
    apply in_seq in Hj. rewrite Hd by lia. reflexivity. }
  rewrite Hrow.
  set (scores := map _ (seq 0 (length focal))).
  assert (Hj : (argmin scores < length focal)%nat).
  { assert (Hs : scores <> []).
    { unfold scores. destruct focal; [congruence|]. cbn. discriminate. }
    destruct (argmin_spec scores Hs) as (m & Hm & _).
    assert (H : (argmin scores < length scores)%nat)
      by (apply nth_error_Some; congruence).
    unfold scores in H at 2. rewrite length_map, length_seq in H. exact H. }
  rewrite Hd by lia.
  change EmptyString with (name empty_record) at 1. rewrite map_nth.
  reflexivity.
Qed.

Lemma take_chunk_split (cs : Z) (l : list SeqRecord) :
  forall c, l = fst (take_chunk cs [] c l) ++ snd (take_chunk cs [] c l)
            /\ (l <> [] -> fst (take_chunk cs [] c l) <> []).
Proof.
  induction l as [|x l IH]; intros c; cbn [take_chunk string_in existsb].
  - split; [reflexivity|congruence].
  - destruct (negb (cs =? 0) && (cs =? c + 1)).
    + split; [reflexivity|discriminate].
    + destruct (IH (c + 1)) as (E & _).
      destruct (take_chunk cs [] (c + 1) l) as [a r']. cbn [fst snd] in *.
      split; [rewrite E at 1; reflexivity|discriminate].
Qed.

(** The chunk loop on records of the reference's length, with distinct
    names and at most one increment of triples each: it ends normally
    after writing the line of every record, in order, whatever the chunk
    size. *)
Lemma chunk_loop_lines (ref : list Z) (L cs : Z) (focal : list SeqRecord)
    (DF : snp_dict) :
  encodes ref 110 focal DF -> focal <> [] ->
  forall fuel seqs out,
    (length seqs < fuel)%nat ->
    Forall (fun rec => String.length (seq_ rec) = length ref) seqs ->
    NoDup (map name seqs) ->
    Forall (fun rec => triples ref 110 rec <= INITIALISATION_LENGTH) seqs ->
    chunk_loop fuel ref L DF cs seqs out
    = (out ++ map (line_of ref L focal) seqs, Finished).
Proof.
  intros EF Hne. induction fuel as [|fuel IH]; intros seqs out Hfuel HL Hnd HT; [lia|].
  cbn [chunk_loop].
  destruct (take_chunk_split cs seqs 0) as (Esplit & Hacc).
  fold (accepted cs [] seqs) in Esplit, Hacc.
  fold (remaining cs [] seqs) in Esplit.
  assert (HLa : Forall (fun rec => String.length (seq_ rec) = length ref)
                  (accepted cs [] seqs)).
  { rewrite Esplit in HL. apply Forall_app in HL. tauto. }
  assert (HTa : Forall (fun rec => triples ref 110 rec <= INITIALISATION_LENGTH)
                  (accepted cs [] seqs)).
  { rewrite Esplit in HT. apply Forall_app in HT. tauto. }
  destruct (calculate_snp_matrix_fits seqs ref 110 cs []) as (oD & E & HD).
  { apply Forall_forall. intros rec Hin. split.
    - exact (proj1 (Forall_forall _ _) HLa rec Hin).
    - exact (proj1 (Forall_forall _ _) HTa rec Hin). }
  rewrite E. destruct oD as [DC|].
  - destruct HD as (Hn & EC).
    assert (Hnda : NoDup (map name (accepted cs [] seqs))).
    { rewrite Esplit, map_app in Hnd. apply NoDup_app_remove_r in Hnd. exact Hnd. }
    rewrite (chunk_lines_encoded ref focal _ DF DC L EF EC Hne Hnda).
    rewrite IH.
    + rewrite <- app_assoc, <- map_app, <- Esplit. reflexivity.
    + assert (Hlen : (0 < length (accepted cs [] seqs))%nat).
      { destruct (accepted cs [] seqs); [congruence|cbn; lia]. }
      rewrite Esplit, length_app in Hfuel. lia.
    + rewrite Esplit in HL. apply Forall_app in HL. tauto.
    + rewrite Esplit, map_app in Hnd. apply NoDup_app_remove_l in Hnd. exact Hnd.
    + rewrite Esplit in HT. apply Forall_app in HT. tauto.
  - destruct seqs as [|x seqs]; [rewrite app_nil_r; reflexivity|].
    exfalso. apply Hacc; [discriminate|exact HD].
Qed.

(** C5, amended.  For an ASCII reference, an ASCII focal set and a context
    set of ASCII sequences whose records all have the length of the
    explicitly supplied reference, have pairwise distinct identifiers and
    contribute at most 1000000 SNP triples each (one increment of the
    buffers), and for every positive chunk size [k]: processing the context
    set in chunks of size [k] writes the same output and ends in the same
    way as processing it in one chunk of its size [N]; when the focal set
    encodes, both runs end normally and the output is the header followed
    by one line per context sequence, in order, that depends on that
    sequence, the reference and the focal set alone. *)
Theorem chunking_invariance (reference : string) (focal_seqs : list SeqRecord)
    (ignore_seqs : list string) (alignment : list SeqRecord) (k : Z) :
  let ref := sequence_to_int_array reference 110 true in
  0 < k ->
  isascii reference = true ->
  ascii_records focal_seqs ->
  ascii_records alignment ->
  Forall (fun rec => String.length (seq_ rec) = String.length reference) alignment ->
  NoDup (map name alignment) ->
  Forall (fun rec => triples ref 110 rec <= INITIALISATION_LENGTH) alignment ->
  main reference focal_seqs ignore_seqs alignment k
  = main reference focal_seqs ignore_seqs alignment (Z.of_nat (length alignment))
  /\ forall DF rest,
       calculate_snp_matrix focal_seqs (Some ref) 110 0 ignore_seqs
       = Ok (Some DF, rest) ->
       main reference focal_seqs ignore_seqs alignment k
       = (Header :: map (line_of ref (Z.of_nat (length ref))
                           (accepted 0 ignore_seqs focal_seqs)) alignment,
          Finished).
Proof.
  intros ref Hk _ _ _ HL Hnd HT.
  assert (HL' : Forall (fun rec => String.length (seq_ rec) = length ref) alignment).
  { eapply Forall_impl; [|exact HL]. cbn beta. intros rec H.
    unfold ref. rewrite length_sequence_to_int_array. exact H. }
  assert (Hmain : forall cs DF rest,
             calculate_snp_matrix focal_seqs (Some ref) 110 0 ignore_seqs
             = Ok (Some DF, rest) ->
             main reference focal_seqs ignore_seqs alignment cs
             = (Header :: map (line_of ref (Z.of_nat (length ref))
                                 (accepted 0 ignore_seqs focal_seqs)) alignment,
                Finished)).
  { intros cs DF rest E. unfold main. fold ref. rewrite E.
    apply calculate_snp_matrix_inv in E. destruct E as (Hne & EF & _).
    rewrite (chunk_loop_lines ref _ cs _ DF EF Hne); try assumption; [reflexivity|lia]. }
  split.
  - destruct (calculate_snp_matrix focal_seqs (Some ref) 110 0 ignore_seqs)
      as [[[DF|] rest]|e] eqn:E.
    + rewrite (Hmain k DF rest eq_refl), (Hmain _ DF rest eq_refl). reflexivity.
    + unfold main. fold ref. rewrite E. reflexivity.
    + unfold main. fold ref. rewrite E. reflexivity.
  - intros DF rest E. apply (Hmain k DF rest E).
Qed.

Lemma chunking_invariance_witness :
  main "acgt" example_focal [] example_context 1
  = main "acgt" example_focal [] example_context
      (Z.of_nat (length example_context))
  /\ forall DF rest,
       calculate_snp_matrix example_focal
         (Some (sequence_to_int_array "acgt" 110 true)) 110 0 []
       = Ok (Some DF, rest) ->
       main "acgt" example_focal [] example_context 1
       = (Header :: map (line_of (sequence_to_int_array "acgt" 110 true)
                           (Z.of_nat (length (sequence_to_int_array "acgt" 110 true)))
                           (accepted 0 [] example_focal)) example_context,
          Finished).
Proof.
  apply (chunking_invariance "acgt" example_focal [] example_context 1).
  - lia.
  - reflexivity.
  - repeat constructor.
  - repeat constructor.
  - repeat constructor.
  - repeat constructor; cbn; intuition discriminate.
  - repeat constructor; vm_compute; discriminate.
Defined.

Example chunked_scenario :
  main "acgt" example_focal [] example_context 1
  = ([Header; Line "c1" "f2" 1; Line "c2" "f2" 0], Finished).
Proof. vm_compute. reflexivity. Qed.

(** ** Chunking is not invariant in general *)

Lemma encode_record_fit (ref : list Z) (st : enc_state) (acc : list SeqRecord)
    (rec : SeqRecord) :
  Inv ref 110 st acc ->
  String.length (seq_ rec) = length ref ->
  n_snps st + triples ref 110 rec <= grown st (n_snps st + triples ref 110 rec) ->
  exists st', encode_record 110 st rec = Ok st'
    /\ Inv ref 110 st' (acc ++ [rec])
    /\ n_snps st' = n_snps st + triples ref 110 rec
    /\ current_length st' = grown st (n_snps st + triples ref 110 rec).
Proof.
  intros I HL Hfit. unfold grown, triples in *.
  destruct (grow_fields st (n_snps st + Z.of_nat (snp_count ref (int_array 110 rec) 110)))
    as (_ & _ & _ & G).
  destruct (encode_record_spec ref 110 st acc rec I)
    as [(E & _) | [(_ & Hover & _) | (_ & _ & st1 & E & I1 & C1)]];
    [contradiction | rewrite G in Hover; lia |].
  exists st1. split; [assumption|]. split; [assumption|]. split.
  - rewrite (inv_n _ _ _ _ I1), enc_val_snoc, length_app, length_select_mask.
    rewrite (inv_n _ _ _ _ I). lia.
  - rewrite C1. exact G.
Qed.

Lemma encode_record_overflow (ref : list Z) (st : enc_state) (acc : list SeqRecord)
    (rec : SeqRecord) :
  Inv ref 110 st acc ->
  String.length (seq_ rec) = length ref ->
  grown st (n_snps st + triples ref 110 rec) < n_snps st + triples ref 110 rec ->
  encode_record 110 st rec = Raise BroadcastError.
Proof.
  intros I HL Hover. unfold grown, triples in *.
  destruct (grow_fields st (n_snps st + Z.of_nat (snp_count ref (int_array 110 rec) 110)))
    as (_ & _ & _ & G).
  destruct (encode_record_spec ref 110 st acc rec I)
    as [(E & _) | [(_ & _ & E) | (_ & Hfit & _)]];
    [contradiction | exact E | rewrite G in Hfit; lia].
Qed.

Lemma length_string_repeat (ch : ascii) (n : nat) :
  String.length (string_repeat ch n) = n.
Proof. induction n as [|n IH]; cbn; [reflexivity|]. rewrite IH. reflexivity. Qed.

Lemma int_array_repeat_a (n : nat) :
  sequence_to_int_array (string_repeat "a" n) 110 true = repeat 97 n.
Proof.
  unfold sequence_to_int_array.
  induction n as [|n IH]; [reflexivity|].
  cbn [string_repeat list_ascii_of_string map repeat]. rewrite IH. reflexivity.
Qed.

Lemma int_array_repeat_c (n : nat) :
  sequence_to_int_array (string_repeat "c" n) 110 true = repeat 99 n.
Proof.
  unfold sequence_to_int_array.
  induction n as [|n IH]; [reflexivity|].
  cbn [string_repeat list_ascii_of_string map repeat]. rewrite IH. reflexivity.
Qed.

Lemma snp_count_repeat (n : nat) :
  snp_count (repeat 97 n) (repeat 99 n) 110 = n.
Proof.
  unfold snp_count. induction n as [|n IH]; [reflexivity|].
  cbn [repeat snp_mask]. change (negb (97 =? 99) && negb (99 =? 110)) with true.
  cbn [filter length]. rewrite IH. reflexivity.
Qed.

Lemma chunk_lines_ok (ref : list Z) (focal acc : list SeqRecord)
    (DF DC : snp_dict) (L : Z) :
  encodes ref 110 focal DF -> encodes ref 110 acc DC ->
  exists lines, chunk_lines DF DC L = Ok lines.
Proof.
  intros EF EC. unfold chunk_lines.
  destruct (encoded_entry ref 110 acc focal DC DF (consensus_of DC) EC EF)
    as (d & Ed & _).
  rewrite Ed. cbn [bind]. eexists. reflexivity.
Qed.

(** A call with chunk size 1 encodes a record of up to 2000000 triples. *)
Lemma single_record_chunk (ref : list Z) (x : SeqRecord) (rest : list SeqRecord) :
  String.length (seq_ x) = length ref ->
  triples ref 110 x <= 2000000 ->
  exists D, calculate_snp_matrix (x :: rest) (Some ref) 110 1 [] = Ok (Some D, rest)
            /\ encodes ref 110 [x] D.
Proof.
  intros HL HT. unfold calculate_snp_matrix.
  cbn [for_records string_in existsb].
  destruct (encode_record_fit ref (init_state (Some ref)) [] x (Inv_init ref 110) HL)
    as (st1 & E & I1 & _).
  { unfold grown. cbn [init_state n_snps current_length].
    unfold INITIALISATION_LENGTH.
    destruct (Z.geb_spec (2 * (0 + triples ref 110 x)) 1000000); lia. }
  rewrite E.
  assert (Hn : nseqs st1 = 1) by (rewrite (inv_nseqs _ _ _ _ I1); reflexivity).
  assert (Hb : negb (1 =? 0) && (1 =? nseqs st1) = true) by (rewrite Hn; reflexivity).
  assert (Hz : (nseqs st1 =? 0) = false) by (rewrite Hn; reflexivity).
  rewrite Hb. cbn [bind]. rewrite Hz.
  eexists. split; [reflexivity|].
  apply (Inv_encodes ref 110 st1 [x] I1). discriminate.
Qed.

Lemma chunk_loop_size_one (ref : list Z) (L : Z) (focal : list SeqRecord)
    (DF : snp_dict) :
  encodes ref 110 focal DF ->
  forall seqs fuel out,
    (length seqs < fuel)%nat ->
    Forall (fun rec => String.length (seq_ rec) = length ref
                       /\ triples ref 110 rec <= 2000000) seqs ->
    snd (chunk_loop fuel ref L DF 1 seqs out) = Finished.
Proof.
  intros EF. induction seqs as [|x seqs IH]; intros fuel out Hfuel HF;
    (destruct fuel as [|fuel]; [cbn in Hfuel; lia|]); cbn [chunk_loop].
  - reflexivity.
  - inversion HF as [|? ? (HL & HT) HF']; subst.
    destruct (single_record_chunk ref x seqs HL HT) as (D & E & EC).
    rewrite E.
    destruct (chunk_lines_ok ref focal [x] DF D L EF EC) as (lines & El).
    rewrite El. apply IH; [cbn in Hfuel; lia|assumption].
Qed.

(** Two context sequences that differ from the reference at every one of
    [n] positions, for an alignment of [n] = 2000000 positions: one chunk of
    two overflows the buffers, chunks of one do not. *)
Lemma long_alignment_runs (n : nat) :
  Z.of_nat n = 2000000 ->
  let reference := string_repeat "a" n in
  let focal_seqs := [rec_ "f" (string_repeat "a" n)] in
  let alignment := [rec_ "x" (string_repeat "c" n); rec_ "y" (string_repeat "c" n)] in
  snd (main reference focal_seqs [] alignment 1) = Finished
  /\ snd (main reference focal_seqs [] alignment 2) = Uncaught BroadcastError.
Proof.
  intros Hn reference focal_seqs alignment.
  set (ref := sequence_to_int_array reference 110 true).
  assert (Href : ref = repeat 97 n) by apply int_array_repeat_a.
  assert (Hlen : length ref = n) by (rewrite Href; apply repeat_length).
  assert (HLc : forall h, String.length (seq_ (rec_ h (string_repeat "c" n))) = length ref).
  { intros h. cbn [seq_ rec_]. rewrite length_string_repeat. congruence. }
  assert (HTc : forall h, triples ref 110 (rec_ h (string_repeat "c" n)) = 2000000).
  { intros h. unfold triples, int_array. cbn [seq_ rec_].
    rewrite int_array_repeat_c, Href, snp_count_repeat. exact Hn. }
  assert (HF : exists DF, calculate_snp_matrix focal_seqs (Some ref) 110 0 []
                          = Ok (Some DF, [])
                          /\ encodes ref 110 focal_seqs DF).
  { destruct (calculate_snp_matrix_safe focal_seqs ref 110 0 []) as (oD & E & HD).
    - unfold accepted, focal_seqs. rewrite accepted_single. cbn [fst].
      constructor; [|constructor]. split.
      + cbn [seq_ rec_]. rewrite length_string_repeat. congruence.
      + unfold int_array. cbn [seq_ rec_]. fold reference. fold ref.
        rewrite snp_count_self. unfold INITIALISATION_LENGTH. lia.
    - unfold accepted, remaining, focal_seqs in *. rewrite accepted_single in *.
      cbn [fst snd] in *. destruct oD as [DF|]; [|discriminate].
      exists DF. split; [exact E|tauto]. }
  destruct HF as (DF & EF & HDF).
  unfold main. fold ref. rewrite EF. split.
  - apply (chunk_loop_size_one ref _ focal_seqs DF HDF).
    + cbn. lia.
    + unfold alignment. repeat constructor; try apply HLc; rewrite HTc; lia.
  - unfold alignment. cbn [length chunk_loop].
    unfold calculate_snp_matrix. cbn [for_records string_in existsb].
    destruct (encode_record_fit ref (init_state (Some ref)) []
                (rec_ "x" (string_repeat "c" n)) (Inv_init ref 110) (HLc _))
      as (st1 & E1 & I1 & N1 & C1).
    { rewrite HTc. unfold grown. cbn [init_state n_snps current_length].
      unfold INITIALISATION_LENGTH. cbn. lia. }
    rewrite E1.
    assert (Hb : negb (2 =? 0) && (2 =? nseqs st1) = false)
      by (rewrite (inv_nseqs _ _ _ _ I1); reflexivity).
    rewrite Hb.
    rewrite (encode_record_overflow ref st1 _ (rec_ "y" (string_repeat "c" n)) I1 (HLc _)).
    + reflexivity.
    + rewrite HTc. unfold grown. rewrite N1, C1, HTc.
      unfold grown. cbn [init_state n_snps current_length].
      unfold INITIALISATION_LENGTH. cbn. lia.
Qed.

(** C5 as stated fails: for an alignment of 2000000 positions, a focal
    sequence equal to the reference and two context sequences that differ
    from the reference everywhere, chunks of size 1 run to the end and
    write both results, and the single chunk of size N = 2 ends in the
    broadcast error of the out-of-bounds write of [col]. *)
Lemma chunking_counterexample :
  snd (main (string_repeat "a" long_n) [rec_ "f" (string_repeat "a" long_n)] []
         [rec_ "x" (string_repeat "c" long_n); rec_ "y" (string_repeat "c" long_n)] 1)
  = Finished
  /\ snd (main (string_repeat "a" long_n) [rec_ "f" (string_repeat "a" long_n)] []
            [rec_ "x" (string_repeat "c" long_n); rec_ "y" (string_repeat "c" long_n)] 2)
     = Uncaught BroadcastError.
Proof.
  apply (long_alignment_runs long_n). unfold long_n. apply Z2Nat.id. lia.
Qed.

(** The two other preconditions of the amended C5 are needed as well: a
    record of the wrong length ends both runs, after different outputs; and
    two records of one name give two lines in two chunks and one line, with
    the later result, in one chunk. *)
Example chunking_wrong_length :
  main "a" [rec_ "f" "a"] [] [rec_ "x" "a"; rec_ "y" "aa"] 1
  = ([Header; Line "x" "f" 0], Uncaught LengthError)
  /\ main "a" [rec_ "f" "a"] [] [rec_ "x" "a"; rec_ "y" "aa"] 2
     = ([Header], Uncaught LengthError).
Proof. split; vm_compute; reflexivity. Qed.

Example chunking_duplicate_names :
  main "a" [rec_ "f" "a"] [] [rec_ "x" "a"; rec_ "x" "c"] 1
  = ([Header; Line "x" "f" 0; Line "x" "f" 1], Finished)
  /\ main "a" [rec_ "f" "a"] [] [rec_ "x" "a"; rec_ "x" "c"] 2
     = ([Header; Line "x" "f" 1], Finished).
Proof. split; vm_compute; reflexivity. Qed.

(** ** The bound on the iterations of the chunk loop is never reached *)

Lemma chunk_loop_fuel (ref : list Z) (L cs : Z) (DF : snp_dict) :
  forall fuel seqs out,
    (length seqs < fuel)%nat ->
    snd (chunk_loop fuel ref L DF cs seqs out) <> OutOfFuel.
Proof.
  induction fuel as [|fuel IH]; intros seqs out Hfuel; [lia|].
  cbn [chunk_loop].
  destruct (calculate_snp_matrix seqs (Some ref) 110 cs []) as [[[DC|] rest]|e] eqn:E;
    cbn [snd]; try discriminate.
  destruct (chunk_lines DF DC L) as [lines|e]; cbn [snd]; [|discriminate].
  apply calculate_snp_matrix_inv in E. destruct E as (Hne & _ & ->).
  apply IH.
  destruct (take_chunk_split cs seqs 0) as (Esplit & _).
  fold (accepted cs [] seqs) in Esplit. fold (remaining cs [] seqs) in Esplit.
  assert (Hlen : (0 < length (accepted cs [] seqs))%nat).
  { destruct (accepted cs [] seqs); [congruence|cbn; lia]. }
  rewrite Esplit, length_app in Hfuel. lia.
Qed.

Lemma main_fuel (reference : string) (focal_seqs : list SeqRecord)
    (ignore_seqs : list string) (alignment : list SeqRecord) (chunk_size : Z) :
  snd (main reference focal_seqs ignore_seqs alignment chunk_size) <> OutOfFuel.
Proof.
  unfold main.
  destruct (calculate_snp_matrix focal_seqs _ 110 0 ignore_seqs) as [[[DF|] rest]|e];
    cbn [snd]; try discriminate.
  apply chunk_loop_fuel. lia.
Qed.

(** * Further properties of the code *)

(** ** [sequence_to_int_array] *)

Lemma lower_upper (ch : ascii) : lower (upper ch) = lower ch.
Proof.
  destruct ch as [[] [] [] [] [] [] [] []]; vm_compute; reflexivity.
Qed.

Lemma list_ascii_string_map (g : ascii -> ascii) (s : string) :
  list_ascii_of_string (string_map g s) = map g (list_ascii_of_string s).
Proof. induction s as [|ch s IH]; cbn; [reflexivity|]. rewrite IH. reflexivity. Qed.

(** X1.  For an ASCII sequence and a fill value that an [np.int8] cell
    holds, the array of the sequence has one cell per symbol, and with
    [fill_gaps] every cell is the code of a, c, g or t or the fill value;
    without [fill_gaps] a cell may also be the code 45 of the gap. *)
Theorem sequence_to_int_array_cells (s : string) (fill_value : Z) :
  isascii s = true ->
  -128 <= fill_value <= 127 ->
  length (sequence_to_int_array s fill_value true) = String.length s
  /\ length (sequence_to_int_array s fill_value false) = String.length s
  /\ Forall (fun x => is_acgt x = true \/ x = fill_value)
            (sequence_to_int_array s fill_value true)
  /\ Forall (fun x => is_acgt x = true \/ x = code_gap \/ x = fill_value)
            (sequence_to_int_array s fill_value false).
Proof.
  intros _ _.
  split; [apply length_sequence_to_int_array|].
  split; [apply length_sequence_to_int_array|].
  unfold sequence_to_int_array. split; apply Forall_forall; intros x Hx;
    apply in_map_iff in Hx; destruct Hx as (y & <- & _).
  - destruct (is_acgt y) eqn:E; [left; exact E|right; reflexivity].
  - destruct (is_acgt y) eqn:E; cbn [orb]; [left; exact E|].
    destruct (Z.eqb_spec y code_gap) as [->|N]; right; [left|right]; reflexivity.
Qed.

Lemma sequence_to_int_array_cells_witness :
  length (sequence_to_int_array "acN-gt" 110 true) = String.length "acN-gt"
  /\ length (sequence_to_int_array "acN-gt" 110 false) = String.length "acN-gt"
  /\ Forall (fun x => is_acgt x = true \/ x = 110)
            (sequence_to_int_array "acN-gt" 110 true)
  /\ Forall (fun x => is_acgt x = true \/ x = code_gap \/ x = 110)
            (sequence_to_int_array "acN-gt" 110 false).
Proof.
  apply (sequence_to_int_array_cells "acN-gt" 110).
  - reflexivity.
  - lia.
Defined.

(** X2.  The encoding does not depend on the case of the letters: a
    sequence and its upper-case form have the same array. *)
Theorem sequence_to_int_array_upper (s : string) (fill_value : Z) (fill_gaps : bool) :
  sequence_to_int_array (string_map upper s) fill_value fill_gaps
  = sequence_to_int_array s fill_value fill_gaps.
Proof.
  assert (H : map (fun ch => int8_of_ascii (lower ch))
                (list_ascii_of_string (string_map upper s))
              = map (fun ch => int8_of_ascii (lower ch)) (list_ascii_of_string s)).
  { rewrite list_ascii_string_map, map_map. apply map_ext.
    intros ch. rewrite lower_upper. reflexivity. }
  unfold sequence_to_int_array. rewrite H. reflexivity.
Qed.

(** X3.  The two modes differ at the gaps only: replacing the gap code by
    the fill value in the array computed without [fill_gaps] gives the
    array computed with it. *)
Theorem sequence_to_int_array_gaps (s : string) (fill_value : Z) :
  map (fun x => if x =? code_gap then fill_value else x)
      (sequence_to_int_array s fill_value false)
  = sequence_to_int_array s fill_value true.
Proof.
  unfold sequence_to_int_array. rewrite map_map. apply map_ext. intros y.
  destruct (is_acgt y) eqn:E; cbn [orb].
  - destruct (Z.eqb_spec y code_gap) as [->|N]; [discriminate|reflexivity].
  - destruct (Z.eqb_spec y code_gap) as [->|N].
    + rewrite Z.eqb_refl. reflexivity.
    + destruct (Z.eqb_spec fill_value code_gap); congruence.
Qed.

(** ** [calculate_snp_matrix]: the records it reads *)

Lemma for_records_filter (f cs : Z) (ign : list string) (l : list SeqRecord) :
  forall st,
    for_records f cs [] st (filter (not_ignored ign) l)
    = match for_records f cs ign st l with
      | Ok (st', rest) => Ok (st', filter (not_ignored ign) rest)
      | Raise e => Raise e
      end.
Proof.
  induction l as [|rec l IH]; intros st; cbn [filter for_records]; [reflexivity|].
  unfold not_ignored at 1.
  destruct (string_in (name rec) ign); cbn [negb]; [apply IH|].
  cbn [for_records string_in existsb].
  destruct (encode_record f st rec) as [st1|e]; [|reflexivity].
  destruct (negb (cs =? 0) && (cs =? nseqs st1)); [reflexivity|apply IH].
Qed.

(** X4.  Ignored records leave no trace: a call with [ignore_seqs] returns
    what the call without it returns on the stream from which the records
    with an ignored name were removed (the same dictionary or exception, and
    the same records left, up to the ignored ones among them). *)
Theorem ignored_records_are_skipped (l : list SeqRecord) (c0 : option (list Z))
    (f cs : Z) (ign : list string) :
  calculate_snp_matrix (filter (not_ignored ign) l) c0 f cs []
  = filter_rest ign (calculate_snp_matrix l c0 f cs ign).
Proof.
  unfold calculate_snp_matrix. rewrite for_records_filter.
  destruct (for_records f cs ign (init_state c0) l) as [[st rest]|e]; cbn [bind filter_rest];
    [|reflexivity].
  destruct (nseqs st =? 0); reflexivity.
Qed.

Lemma take_chunk_firstn (k : nat) (l : list SeqRecord) :
  forall c : nat,
    (c < k)%nat ->
    take_chunk (Z.of_nat k) [] (Z.of_nat c) l = (firstn (k - c) l, skipn (k - c) l).
Proof.
  induction l as [|x l IH]; intros c Hc; cbn [take_chunk string_in existsb].
  - rewrite firstn_nil, skipn_nil. reflexivity.
  - destruct (Z.eqb_spec (Z.of_nat k) 0) as [E0|E0]; [lia|]. cbn [negb andb].
    destruct (Z.eqb_spec (Z.of_nat k) (Z.of_nat c + 1)) as [E|E].
    + replace (k - c)%nat with 1%nat by lia. reflexivity.
    + replace (Z.of_nat c + 1) with (Z.of_nat (S c)) by lia.
      rewrite IH by lia.
      replace (k - c)%nat with (S (k - S c)) by lia. reflexivity.
Qed.

(** X5.  With no ignored names and a positive [chunk_size], a call that
    returns a dictionary has read the first [chunk_size] records of the
    stream (all of them when there are fewer): its rows and names are
    theirs, in the order of the stream, and the records after them are left
    in the iterator for the next call. *)
Theorem chunk_is_prefix (l : list SeqRecord) (ref : list Z) (k : Z)
    (D : snp_dict) (rest : list SeqRecord) :
  0 < k ->
  calculate_snp_matrix l (Some ref) 110 k [] = Ok (Some D, rest) ->
  names D = map name (firstn (Z.to_nat k) l)
  /\ shape0 (snps D) = Nat.min (Z.to_nat k) (length l)
  /\ rest = skipn (Z.to_nat k) l
  /\ l = firstn (Z.to_nat k) l ++ rest.
Proof.
  intros Hk H. apply calculate_snp_matrix_inv in H. destruct H as (_ & E & ->).
  unfold accepted, remaining in *.
  assert (T : take_chunk k [] 0 l = (firstn (Z.to_nat k) l, skipn (Z.to_nat k) l)).
  { pose proof (take_chunk_firstn (Z.to_nat k) l 0) as T.
    rewrite Z2Nat.id, Nat.sub_0_r in T by lia. apply T. lia. }
  rewrite T in *. cbn [fst snd] in *.
  split; [exact (enc_names _ _ _ _ E)|].
  split; [rewrite (enc_shape0 _ _ _ _ E); apply length_firstn|].
  split; [reflexivity|]. symmetry. apply firstn_skipn.
Qed.

Lemma chunk_is_prefix_witness :
  names dict_context = map name (firstn (Z.to_nat 5) example_context)
  /\ shape0 (snps dict_context) = Nat.min (Z.to_nat 5) (length example_context)
  /\ [] = skipn (Z.to_nat 5) example_context
  /\ example_context = firstn (Z.to_nat 5) example_context ++ [].
Proof.
  apply (chunk_is_prefix example_context ref_acgt 5 dict_context []).
  - lia.
  - vm_compute. reflexivity.
Defined.

Lemma first_accepted_none_iff (ign : list string) (l : list SeqRecord) :
  first_accepted ign l = None
  <-> Forall (fun rec => string_in (name rec) ign = true) l.
Proof.
  induction l as [|x l IH]; cbn [first_accepted].
  - split; [constructor|reflexivity].
  - destruct (string_in (name x) ign) eqn:E.
    + rewrite IH. split; [intros H; constructor; assumption|].
      intros H. inversion H; assumption.
    + split; [discriminate|]. intros H. inversion H; congruence.
Qed.

Lemma for_records_nseqs (f cs : Z) (ign : list string) (l : list SeqRecord) :
  forall st st' rest,
    for_records f cs ign st l = Ok (st', rest) ->
    nseqs st <= nseqs st'
    /\ (first_accepted ign l <> None -> nseqs st < nseqs st').
Proof.
  induction l as [|x l IH]; intros st st' rest H; cbn [for_records first_accepted] in *.
  - injection H as <- _. split; [lia|congruence].
  - destruct (string_in (name x) ign); [apply (IH _ _ _ H)|].
    destruct (encode_record f st x) as [st1|e] eqn:E; [|discriminate].
    destruct (encode_record_ok_fields f st st1 x E) as (Hn & _).
    destruct (negb (cs =? 0) && (cs =? nseqs st1)).
    + injection H as <- _. split; [lia|intros _; lia].
    + destruct (IH _ _ _ H) as (Hle & _). split; [lia|intros _; lia].
Qed.

(** X6.  The sentinel [None] is returned exactly when the call accepts no
    record: when every record of the stream has an ignored name (the empty
    stream included) the call returns [None] and has read the whole stream,
    whatever the other arguments; and a call that returns [None] met only
    ignored names. *)
Theorem none_iff_nothing_accepted (l : list SeqRecord) (c0 : option (list Z))
    (f cs : Z) (ign : list string) :
  (Forall (fun rec => string_in (name rec) ign = true) l ->
   calculate_snp_matrix l c0 f cs ign = Ok (None, []))
  /\ (forall rest,
        calculate_snp_matrix l c0 f cs ign = Ok (None, rest) ->
        Forall (fun rec => string_in (name rec) ign = true) l).
Proof.
  split.
  - intros H. apply first_accepted_none_iff in H. unfold calculate_snp_matrix.
    destruct (first_accepted_none f cs ign l (init_state c0) 0 H) as (-> & _).
    reflexivity.
  - intros rest H. apply first_accepted_none_iff. unfold calculate_snp_matrix in H.
    destruct (for_records f cs ign (init_state c0) l) as [[st rest']|e] eqn:E;
      cbn [bind] in H; [|discriminate].
    destruct (Z.eqb_spec (nseqs st) 0) as [E0|E0]; [|discriminate].
    destruct (for_records_nseqs f cs ign l _ _ _ E) as (_ & Hlt).
    destruct (first_accepted ign l); [|reflexivity].
    exfalso. cbn [init_state nseqs] in Hlt.
    assert (0 < nseqs st) by (apply Hlt; discriminate). lia.
Qed.

(** ** [calculate_snp_matrix]: what the dictionary holds *)

Lemma existsb_in_where_eq (s : list Z) (p : nat) :
  existsb (Z.eqb (Z.of_nat p)) (where_eq s 110) = masked s p.
Proof.
  destruct (masked s p) eqn:M.
  - apply existsb_exists. exists (Z.of_nat p). split.
    + apply in_where_eq. exact M.
    + apply Z.eqb_refl.
  - destruct (existsb (Z.eqb (Z.of_nat p)) (where_eq s 110)) eqn:E; [|reflexivity].
    apply existsb_exists in E. destruct E as (x & Hin & Hx).
    apply Z.eqb_eq in Hx. subst x. apply in_where_eq in Hin. congruence.
Qed.

(** X7.  The encoding loses nothing: for accepted records of ASCII
    sequences, from a row of the SNP matrix, the row's masked-position list
    and the reference, [decode] gives back the integer array of the
    sequence, for every accepted record. *)
Theorem decode_encode (l : list SeqRecord) (ref : list Z) (cs : Z)
    (ign : list string) (D : snp_dict) (rest : list SeqRecord) (i : nat) :
  ascii_records (accepted cs ign l) ->
  calculate_snp_matrix l (Some ref) 110 cs ign = Ok (Some D, rest) ->
  (i < length (accepted cs ign l))%nat ->
  decode D i = int_array 110 (nth i (accepted cs ign l) empty_record).
Proof.
  intros _ H Hi. apply calculate_snp_matrix_inv in H. destruct H as (_ & E & _).
  set (rec := nth i (accepted cs ign l) empty_record).
  set (s := int_array 110 rec).
  assert (Hls : length s = length ref).
  { unfold s, int_array. rewrite length_sequence_to_int_array.
    apply (proj1 (Forall_forall _ _) (enc_lengths _ _ _ _ E)).
    apply nth_In. exact Hi. }
  unfold decode. rewrite (enc_shape1 _ _ _ _ E), (enc_filled _ _ _ _ E),
    (enc_consensus _ _ _ _ E).
  rewrite <- (map_nth_seq_nat s 0) at 1. rewrite Hls.
  symmetry. apply map_ext_in. intros p Hp. apply in_seq in Hp.
  change (@nil Z) with ((fun rec => where_eq (int_array 110 rec) 110) empty_record).
  rewrite map_nth. fold rec. fold s.
  rewrite existsb_in_where_eq, (enc_item _ _ _ _ E). fold rec. fold s.
  unfold masked, row_cell, snp_cell.
  destruct (nth_error s p) as [x|] eqn:Ex.
  2:{ apply nth_error_None in Ex. lia. }
  destruct (nth_error ref p) as [c|] eqn:Ec.
  2:{ apply nth_error_None in Ec. lia. }
  rewrite (nth_error_nth _ _ _ Ex), (nth_error_nth _ _ _ Ec).
  destruct (Z.eqb_spec x 110) as [->|N110]; [reflexivity|].
  destruct (int_array_values rec x (nth_error_In _ _ Ex)) as [V|V]; [|contradiction].
  apply is_acgt_facts in V. destruct V as (V0 & _ & _).
  destruct (Z.eqb_spec c x) as [->|Ncx]; cbn [negb andb].
  - reflexivity.
  - destruct (Z.eqb_spec x 0); [contradiction|reflexivity].
Qed.

Lemma decode_encode_witness :
  decode dict_context 1
  = int_array 110 (nth 1 (accepted 0 [] example_context) empty_record).
Proof.
  apply (decode_encode example_context ref_acgt 0 [] dict_context [] 1).
  - repeat constructor.
  - reflexivity.
  - cbn. lia.
Defined.

Example decode_example : decode dict_context 1 = [97; 99; 110; 116].
Proof. vm_compute. reflexivity. Qed.

(** X8.  What a cell of the encoder's matrix can hold: zero or the code of
    a, c, g or t, never the unknown code; zero at every masked position of
    its row; and a non-zero cell lies inside the shape, at a position where
    it differs from the reference. *)
Theorem encoded_cells (l : list SeqRecord) (ref : list Z) (cs : Z)
    (ign : list string) (D : snp_dict) (rest : list SeqRecord) (i p : nat) :
  calculate_snp_matrix l (Some ref) 110 cs ign = Ok (Some D, rest) ->
  let x := item (snps D) i p in
  (x = 0 \/ is_acgt x = true)
  /\ x <> 110
  /\ (In (Z.of_nat p) (nth i (filled_positions D) []) -> x = 0)
  /\ (x <> 0 ->
      (i < shape0 (snps D))%nat /\ (p < shape1 (snps D))%nat /\ x <> nth p ref 0).
Proof.
  intros H x. apply calculate_snp_matrix_inv in H. destruct H as (_ & E & _).
  assert (Hx : x = row_cell ref (int_array 110 (nth i (accepted cs ign l) empty_record))
                     110 p) by apply (enc_item _ _ _ _ E).
  set (rec := nth i (accepted cs ign l) empty_record) in *.
  pose proof (row_cell_cases ref rec p) as C. cbn zeta in C.
  split; [|split; [|split]].
  - destruct C as [(_ & C) | (_ & C & V)]; [left; congruence|right].
    rewrite Hx, C. exact V.
  - destruct C as [(_ & C) | (_ & C & V)]; [rewrite Hx, C; discriminate|].
    apply is_acgt_facts in V. rewrite Hx, C. tauto.
  - rewrite (enc_filled _ _ _ _ E).
    change (@nil Z) with ((fun rec => where_eq (int_array 110 rec) 110) empty_record).
    rewrite map_nth. fold rec. intros Hin. apply in_where_eq in Hin.
    destruct C as [(_ & C) | (S & _)]; [congruence|].
    unfold is_snp in S. rewrite Hin, andb_false_r in S. discriminate.
  - intros Hnz. rewrite (enc_shape0 _ _ _ _ E), (enc_shape1 _ _ _ _ E).
    destruct C as [(_ & C) | (S & C & _)]; [congruence|].
    unfold is_snp, deviates in S.
    destruct (nth_error ref p) as [c|] eqn:Ec; [|discriminate].
    destruct (nth_error (int_array 110 rec) p) as [y|] eqn:Ey; [|discriminate].
    split; [|split].
    + destruct (Nat.lt_ge_cases i (length (accepted cs ign l))) as [Hi|Hi]; [exact Hi|].
      exfalso. unfold rec in Ey. rewrite nth_overflow in Ey by exact Hi.
      destruct p; discriminate.
    + apply nth_error_Some. congruence.
    + rewrite Hx, C, (nth_error_nth _ _ _ Ey), (nth_error_nth _ _ _ Ec).
      apply andb_true_iff in S. destruct S as (S & _).
      apply negb_true_iff, Z.eqb_neq in S. congruence.
Qed.

Lemma encoded_cells_witness :
  let x := item (snps dict_context) 0 3 in
  (x = 0 \/ is_acgt x = true)
  /\ x <> 110
  /\ (In (Z.of_nat 3) (nth 0 (filled_positions dict_context) []) -> x = 0)
  /\ (x <> 0 ->
      (0 < shape0 (snps dict_context))%nat /\ (3 < shape1 (snps dict_context))%nat
      /\ x <> nth 3 ref_acgt 0).
Proof.
  apply (encoded_cells example_context ref_acgt 0 [] dict_context [] 0 3).
  reflexivity.
Defined.

(** X9.  The capacity for one record: a call on a single record of the
    reference's length raises the broadcast error of the out-of-bounds write
    exactly when the record has more than 2000000 SNPs. *)
Theorem first_record_capacity (x : SeqRecord) (ref : list Z) (cs : Z) :
  String.length (seq_ x) = length ref ->
  calculate_snp_matrix [x] (Some ref) 110 cs [] = Raise BroadcastError
  <-> 2000000 < triples ref 110 x.
Proof.
  intros HL. unfold calculate_snp_matrix. cbn [for_records string_in existsb].
  assert (G : grown (init_state (Some ref)) (n_snps (init_state (Some ref))
                                             + triples ref 110 x)
              = if 2 * triples ref 110 x >=? 1000000 then 2000000 else 1000000).
  { unfold grown. cbn [init_state n_snps current_length].
    unfold INITIALISATION_LENGTH. rewrite Z.add_0_l.
    destruct (2 * triples ref 110 x >=? 1000000); reflexivity. }
  assert (T0 : 0 <= triples ref 110 x) by (unfold triples; lia).
  destruct (Z.le_gt_cases (triples ref 110 x) 2000000) as [Hfit|Hover].
  - destruct (encode_record_fit ref (init_state (Some ref)) [] x (Inv_init ref 110) HL)
      as (st1 & E & _).
    { rewrite G. cbn [init_state n_snps].
      destruct (Z.geb_spec (2 * triples ref 110 x) 1000000); lia. }
    rewrite E. split; [|lia].
    destruct (negb (cs =? 0) && (cs =? nseqs st1)); cbn [bind];
      destruct (nseqs st1 =? 0); discriminate.
  - rewrite (encode_record_overflow ref (init_state (Some ref)) [] x (Inv_init ref 110) HL).
    + split; [intros _; lia|reflexivity].
    + rewrite G. cbn [init_state n_snps].
      destruct (Z.geb_spec (2 * triples ref 110 x) 1000000); lia.
Qed.

Lemma first_record_capacity_witness :
  calculate_snp_matrix [rec_ "c1" "acgA"] (Some ref_acgt) 110 0 [] = Raise BroadcastError
  <-> 2000000 < triples ref_acgt 110 (rec_ "c1" "acgA").
Proof.
  apply (first_record_capacity (rec_ "c1" "acgA") ref_acgt 0). reflexivity.
Defined.

(** ** [calculate_distance_matrix]: errors and metric properties *)

(** X10.  Two matrices of different widths cannot be compared: the engine
    raises the dimension error of the first matrix product. *)
Theorem distance_dimension_error (A B : matrix) (c : list Z) :
  shape1 A <> shape1 B ->
  calculate_distance_matrix A B c = Raise DimensionError.
Proof.
  intros H. unfold calculate_distance_matrix, matmul at 1.
  cbn [shape0 shape1 scale eq_scalar transpose].
  destruct (Nat.eqb_spec (shape1 A) (shape1 B)); [contradiction|reflexivity].
Qed.

Lemma distance_dimension_error_witness :
  calculate_distance_matrix example_A (csc_matrix [99] [0] [0] 1 3) []
  = Raise DimensionError.
Proof.
  apply (distance_dimension_error example_A (csc_matrix [99] [0] [0] 1 3) []).
  cbn. lia.
Defined.

(** X11.  On any two matrices, a position at which one of the two cells
    holds the unknown code 110 contributes nothing to the entry, whatever
    the other cell holds. *)
Theorem unknown_cell_contributes_zero (A B : matrix) (c : list Z) (p i j : nat) :
  (i < shape0 A)%nat -> (j < shape0 B)%nat ->
  item A i p = 110 \/ item B j p = 110 ->
  contribution A B c p i j = Ok 0.
Proof.
  intros Hi Hj H. rewrite contribution_pos_term by assumption.
  rewrite pos_term_cases. f_equal.
  destruct H as [-> | ->]; cbn [Z.eqb Pos.eqb orb]; [reflexivity|].
  rewrite orb_true_r. reflexivity.
Qed.

Lemma unknown_cell_contributes_zero_witness :
  contribution (csc_matrix [110] [0] [0] 1 1) (csc_matrix [99] [0] [0] 1 1) [] 0 0 0
  = Ok 0.
Proof.
  apply (unknown_cell_contributes_zero (csc_matrix [110] [0] [0] 1 1)
           (csc_matrix [99] [0] [0] 1 1) [] 0 0 0).
  - cbn. lia.
  - cbn. lia.
  - left. reflexivity.
Defined.

Lemma sum_upto_le (n : nat) (f g : nat -> Z) :
  (forall p, (p < n)%nat -> f p <= g p) -> sum_upto n f <= sum_upto n g.
Proof.
  induction n as [|n IH]; intros H; cbn [sum_upto]; [lia|].
  specialize (IH (fun p Hp => H p (Nat.lt_lt_succ_r _ _ Hp))).
  specialize (H n (Nat.lt_succ_diag_r n)). lia.
Qed.

Lemma sum_upto_zero_inv (n : nat) (f : nat -> Z) :
  (forall p, (p < n)%nat -> 0 <= f p) ->
  sum_upto n f = 0 -> forall p, (p < n)%nat -> f p = 0.
Proof.
  induction n as [|n IH]; intros Hf H p Hp; [lia|]. cbn [sum_upto] in H.
  pose proof (sum_upto_nonneg n f (fun q Hq => Hf q (Nat.lt_lt_succ_r _ _ Hq))) as Hs.
  pose proof (Hf n (Nat.lt_succ_diag_r n)) as Hn.
  destruct (Nat.eq_dec p n) as [->|Hne]; [lia|].
  apply IH; [intros q Hq; apply Hf; lia | lia | lia].
Qed.

(** The entry of two encoded rows counts the positions where the rows
    differ. *)
Lemma encoded_entry_hamming (ref : list Z) (accA accB : list SeqRecord)
    (DA DB : snp_dict) (c : list Z) :
  encodes ref 110 accA DA -> encodes ref 110 accB DB ->
  exists d,
    calculate_distance_matrix (snps DA) (snps DB) c = Ok d
    /\ shape0 d = length accA /\ shape1 d = length accB
    /\ forall i j, (i < length accA)%nat -> (j < length accB)%nat ->
         item d i j
         = sum_upto (length ref)
             (fun p => Z_of_bool (negb (item (snps DA) i p =? item (snps DB) j p))).
Proof.
  intros EA EB.
  destruct (encoded_entry ref 110 accA accB DA DB c EA EB) as (d & E & D0 & D1 & H).
  exists d. repeat split; try assumption.
  intros i j Hi Hj. rewrite H by assumption. apply sum_upto_ext. intros p _.
  rewrite (enc_item _ _ _ _ EA), (enc_item _ _ _ _ EB).
  apply pos_term_cells.
  - destruct (row_cell_cases ref (nth i accA empty_record) p) as [(_ & C)|(_ & C & V)];
      [left; exact C|right; rewrite C; exact V].
  - destruct (row_cell_cases ref (nth j accB empty_record) p) as [(_ & C)|(_ & C & V)];
      [left; exact C|right; rewrite C; exact V].
Qed.

Lemma encoded_cell_outside (ref : list Z) (acc : list SeqRecord) (D : snp_dict)
    (i p : nat) :
  encodes ref 110 acc D -> (length ref <= p)%nat -> item (snps D) i p = 0.
Proof.
  intros E Hp. rewrite (enc_item _ _ _ _ E). unfold row_cell.
  destruct (nth_error ref p) eqn:Ec; [|reflexivity].
  assert (p < length ref)%nat by (apply nth_error_Some; congruence). lia.
Qed.

Lemma Z_of_bool_nonneg (b : bool) : 0 <= Z_of_bool b.
Proof. destruct b; cbn; lia. Qed.

(** X12.  Between two sets encoded against one reference the distance of
    two sequences is zero exactly when their rows of the SNP matrices are
    equal, that is, when they have the same SNPs; masked positions play no
    part. *)
Theorem distance_zero_iff_same_row (ref : list Z) (la lb : list SeqRecord)
    (csa csb : Z) (igna ignb : list string) (DA DB : snp_dict)
    (resta restb : list SeqRecord) (c : list Z) :
  calculate_snp_matrix la (Some ref) 110 csa igna = Ok (Some DA, resta) ->
  calculate_snp_matrix lb (Some ref) 110 csb ignb = Ok (Some DB, restb) ->
  exists d,
    calculate_distance_matrix (snps DA) (snps DB) c = Ok d
    /\ forall i j, (i < shape0 (snps DA))%nat -> (j < shape0 (snps DB))%nat ->
         (item d i j = 0 <-> forall p, item (snps DA) i p = item (snps DB) j p).
Proof.
  intros HA HB.
  apply calculate_snp_matrix_inv in HA. destruct HA as (_ & EA & _).
  apply calculate_snp_matrix_inv in HB. destruct HB as (_ & EB & _).
  destruct (encoded_entry_hamming ref _ _ DA DB c EA EB) as (d & E & _ & _ & H).
  exists d. split; [assumption|]. intros i j Hi Hj.
  rewrite (enc_shape0 _ _ _ _ EA) in Hi. rewrite (enc_shape0 _ _ _ _ EB) in Hj.
  rewrite H by assumption. split.
  - intros Hz p. destruct (Nat.lt_ge_cases p (length ref)) as [Hp|Hp].
    + pose proof (sum_upto_zero_inv _ _
                    (fun q _ => Z_of_bool_nonneg _) Hz p Hp) as Hq.
      cbn beta in Hq.
      destruct (Z.eqb_spec (item (snps DA) i p) (item (snps DB) j p));
        [assumption|discriminate].
    + rewrite (encoded_cell_outside ref _ DA i p EA Hp),
        (encoded_cell_outside ref _ DB j p EB Hp). reflexivity.
  - intros Heq. apply sum_upto_zero. intros p _. rewrite Heq, Z.eqb_refl. reflexivity.
Qed.

Lemma distance_zero_iff_same_row_witness :
  exists d,
    calculate_distance_matrix (snps dict_x) (snps dict_y) [] = Ok d
    /\ forall i j, (i < shape0 (snps dict_x))%nat -> (j < shape0 (snps dict_y))%nat ->
         (item d i j = 0 <-> forall p, item (snps dict_x) i p = item (snps dict_y) j p).
Proof.
  apply (distance_zero_iff_same_row ref_a example_x example_y 0 0 [] []
           dict_x dict_y [] []); reflexivity.
Defined.

Lemma encoded_cell_cases (ref : list Z) (acc : list SeqRecord) (D : snp_dict)
    (i p : nat) :
  encodes ref 110 acc D ->
  item (snps D) i p = 0 \/ is_acgt (item (snps D) i p) = true.
Proof.
  intros E. rewrite (enc_item _ _ _ _ E).
  destruct (row_cell_cases ref (nth i acc empty_record) p) as [(_ & C)|(_ & C & V)];
    [left; exact C|right; rewrite C; exact V].
Qed.

(** X13.  The distance satisfies the triangle inequality: for three sets
    encoded against one reference, the distance from [i] to [k] is at most
    the distance from [i] to [j] plus the distance from [j] to [k]. *)
Theorem distance_triangle (ref : list Z) (la lb lc : list SeqRecord)
    (csa csb csc : Z) (igna ignb ignc : list string) (DA DB DC : snp_dict)
    (resta restb restc : list SeqRecord) (c : list Z) :
  calculate_snp_matrix la (Some ref) 110 csa igna = Ok (Some DA, resta) ->
  calculate_snp_matrix lb (Some ref) 110 csb ignb = Ok (Some DB, restb) ->
  calculate_snp_matrix lc (Some ref) 110 csc ignc = Ok (Some DC, restc) ->
  exists dAB dBC dAC,
    calculate_distance_matrix (snps DA) (snps DB) c = Ok dAB
    /\ calculate_distance_matrix (snps DB) (snps DC) c = Ok dBC
    /\ calculate_distance_matrix (snps DA) (snps DC) c = Ok dAC
    /\ forall i j k,
         (i < shape0 (snps DA))%nat -> (j < shape0 (snps DB))%nat ->
         (k < shape0 (snps DC))%nat ->
         item dAC i k <= item dAB i j + item dBC j k.
Proof.
  intros HA HB HC.
  apply calculate_snp_matrix_inv in HA. destruct HA as (_ & EA & _).
  apply calculate_snp_matrix_inv in HB. destruct HB as (_ & EB & _).
  apply calculate_snp_matrix_inv in HC. destruct HC as (_ & EC & _).
  destruct (encoded_entry_hamming ref _ _ DA DB c EA EB) as (dAB & E1 & _ & _ & H1).
  destruct (encoded_entry_hamming ref _ _ DB DC c EB EC) as (dBC & E2 & _ & _ & H2).
  destruct (encoded_entry_hamming ref _ _ DA DC c EA EC) as (dAC & E3 & _ & _ & H3).
  exists dAB, dBC, dAC. repeat (split; [assumption|]).
  intros i j k Hi Hj Hk.
  rewrite (enc_shape0 _ _ _ _ EA) in Hi. rewrite (enc_shape0 _ _ _ _ EB) in Hj.
  rewrite (enc_shape0 _ _ _ _ EC) in Hk.
  rewrite H1, H2, H3 by assumption. rewrite <- sum_upto_add.
  apply sum_upto_le. intros p _.
  destruct (Z.eqb_spec (item (snps DA) i p) (item (snps DC) k p));
    destruct (Z.eqb_spec (item (snps DA) i p) (item (snps DB) j p));
    destruct (Z.eqb_spec (item (snps DB) j p) (item (snps DC) k p));
    cbn; try lia; congruence.
Qed.

Lemma distance_triangle_witness :
  exists dAB dBC dAC,
    calculate_distance_matrix (snps dict_x) (snps dict_y) [] = Ok dAB
    /\ calculate_distance_matrix (snps dict_y) (snps dict_x2) [] = Ok dBC
    /\ calculate_distance_matrix (snps dict_x) (snps dict_x2) [] = Ok dAC
    /\ forall i j k,
         (i < shape0 (snps dict_x))%nat -> (j < shape0 (snps dict_y))%nat ->
         (k < shape0 (snps dict_x2))%nat ->
         item dAC i k <= item dAB i j + item dBC j k.
Proof.
  apply (distance_triangle ref_a example_x example_y example_x2 0 0 0 [] [] []
           dict_x dict_y dict_x2 [] [] []); reflexivity.
Defined.

Lemma sum_upto_const_one (n : nat) : sum_upto n (fun _ => 1) = Z.of_nat n.
Proof. induction n as [|n IH]; cbn [sum_upto]; [reflexivity|]. rewrite IH. lia. Qed.

(** X14.  Bounds of an entry between two sets encoded against one
    reference, from the numbers of SNPs of the two sequences (the non-zero
    cells of their rows): the entry is at least the difference of the two
    numbers and at most their sum, and at most the alignment length.  In
    particular the distance to a sequence without SNPs is the number of SNPs
    of the other sequence. *)
Theorem distance_bounds (ref : list Z) (la lb : list SeqRecord)
    (csa csb : Z) (igna ignb : list string) (DA DB : snp_dict)
    (resta restb : list SeqRecord) (c : list Z) :
  calculate_snp_matrix la (Some ref) 110 csa igna = Ok (Some DA, resta) ->
  calculate_snp_matrix lb (Some ref) 110 csb ignb = Ok (Some DB, restb) ->
  exists d,
    calculate_distance_matrix (snps DA) (snps DB) c = Ok d
    /\ forall i j, (i < shape0 (snps DA))%nat -> (j < shape0 (snps DB))%nat ->
         Z.abs (count_pos (snps DA) i - count_pos (snps DB) j) <= item d i j
         /\ item d i j <= count_pos (snps DA) i + count_pos (snps DB) j
         /\ item d i j <= Z.of_nat (length ref)
         /\ (count_pos (snps DB) j = 0 -> item d i j = count_pos (snps DA) i).
Proof.
  intros HA HB.
  apply calculate_snp_matrix_inv in HA. destruct HA as (_ & EA & _).
  apply calculate_snp_matrix_inv in HB. destruct HB as (_ & EB & _).
  destruct (encoded_entry_hamming ref _ _ DA DB c EA EB) as (d & E & _ & _ & H).
  exists d. split; [assumption|]. intros i j Hi Hj.
  rewrite (enc_shape0 _ _ _ _ EA) in Hi. rewrite (enc_shape0 _ _ _ _ EB) in Hj.
  rewrite H by assumption. unfold count_pos.
  rewrite (enc_shape1 _ _ _ _ EA), (enc_shape1 _ _ _ _ EB).
  set (h := fun p => Z_of_bool (negb (item (snps DA) i p =? item (snps DB) j p))).
  set (fa := fun p => Z_of_bool (item (snps DA) i p >? 0)).
  set (fb := fun p => Z_of_bool (item (snps DB) j p >? 0)).
  assert (Hp : forall p, fa p - fb p <= h p /\ fb p - fa p <= h p
                         /\ h p <= fa p + fb p /\ h p <= 1).
  { intros p. unfold h, fa, fb.
    destruct (encoded_cell_cases ref _ DA i p EA) as [Ha|Ha%is_acgt_facts];
      destruct (encoded_cell_cases ref _ DB j p EB) as [Hb|Hb%is_acgt_facts];
      try rewrite Ha; try rewrite Hb;
      repeat match goal with
             | |- context [?x =? ?y] => destruct (Z.eqb_spec x y)
             | |- context [?x >? ?y] => destruct (Z.gtb_spec x y)
             end; cbn; lia. }
  assert (L1 : sum_upto (length ref) fa - sum_upto (length ref) fb
               <= sum_upto (length ref) h).
  { rewrite <- sum_upto_sub. apply sum_upto_le. intros p _. apply Hp. }
  assert (L2 : sum_upto (length ref) fb - sum_upto (length ref) fa
               <= sum_upto (length ref) h).
  { rewrite <- sum_upto_sub. apply sum_upto_le. intros p _. apply Hp. }
  assert (U1 : sum_upto (length ref) h
               <= sum_upto (length ref) fa + sum_upto (length ref) fb).
  { rewrite <- sum_upto_add. apply sum_upto_le. intros p _. apply Hp. }
  assert (U2 : sum_upto (length ref) h <= Z.of_nat (length ref)).
  { rewrite <- sum_upto_const_one. apply sum_upto_le. intros p _. apply Hp. }
  repeat split; lia.
Qed.

Lemma distance_bounds_witness :
  exists d,
    calculate_distance_matrix (snps dict_x) (snps dict_y) [] = Ok d
    /\ forall i j, (i < shape0 (snps dict_x))%nat -> (j < shape0 (snps dict_y))%nat ->
         Z.abs (count_pos (snps dict_x) i - count_pos (snps dict_y) j) <= item d i j
         /\ item d i j <= count_pos (snps dict_x) i + count_pos (snps dict_y) j
         /\ item d i j <= Z.of_nat (length ref_a)
         /\ (count_pos (snps dict_y) j = 0 -> item d i j = count_pos (snps dict_x) i).
Proof.
  apply (distance_bounds ref_a example_x example_y 0 0 [] []
           dict_x dict_y [] []); reflexivity.
Defined.

(** ** The script: edge cases, selection and termination *)

(** X15.  When every focal record has an ignored name (or the focal
    alignment is empty) the script exits with status 1 before the output
    file is opened: nothing is written, whatever the context alignment and
    the chunk size. *)
Theorem empty_focal_set_exits (reference : string) (focal_seqs : list SeqRecord)
    (ignore_seqs : list string) (alignment : list SeqRecord) (chunk_size : Z) :
  Forall (fun rec => string_in (name rec) ignore_seqs = true) focal_seqs ->
  main reference focal_seqs ignore_seqs alignment chunk_size = ([], Exit1).
Proof.
  intros H. apply first_accepted_none_iff in H. unfold main, calculate_snp_matrix.
  destruct (first_accepted_none 110 0 ignore_seqs focal_seqs
              (init_state (Some (sequence_to_int_array reference 110 true))) 0 H)
    as (-> & _).
  reflexivity.
Qed.

Lemma empty_focal_set_exits_witness :
  main "acgt" [rec_ "f" "acgt"] ["f"%string] example_context 10000 = ([], Exit1).
Proof.
  apply (empty_focal_set_exits "acgt" [rec_ "f" "acgt"] ["f"%string]
           example_context 10000).
  repeat constructor.
Defined.

(** The selected index is in range and has the least adjusted score. *)
Lemma closest_match_least (d : matrix) (mask : list Z) (L : Z) (i : nat) :
  (i < shape0 d)%nat -> (0 < shape1 d)%nat ->
  let j := nth i (closest_match_of d mask L) O in
  (j < shape1 d)%nat
  /\ forall j', (j' < shape1 d)%nat ->
       (adjusted d mask L i j <= adjusted d mask L i j')%Q.
Proof.
  intros Hi Hpos j.
  assert (Hne : adjusted_row d mask L i <> []).
  { unfold adjusted_row. destruct (shape1 d); [lia|]. cbn. discriminate. }
  destruct (argmin_spec _ Hne) as (m & Hm & Hall).
  assert (Ej : j = argmin (adjusted_row d mask L i))
    by (apply closest_match_nth; assumption).
  rewrite <- Ej in Hm.
  assert (Hj : (j < shape1 d)%nat).
  { assert (H : (j < length (adjusted_row d mask L i))%nat)
      by (apply nth_error_Some; congruence).
    unfold adjusted_row in H. rewrite length_map, length_seq in H. exact H. }
  split; [assumption|].
  intros j' Hj'. rewrite (adjusted_row_nth d mask L i j Hj) in Hm.
  injection Hm as <-. apply Hall.
  apply (nth_error_In _ j'). apply adjusted_row_nth. assumption.
Qed.

(** X16.  The penalty breaks ties towards fewer masked positions: a focal
    sequence is never selected when another focal sequence is at the same
    raw distance from the context sequence and has strictly fewer masked
    positions. *)
Theorem fewer_masked_wins (d : matrix) (mask_count_focal : list Z)
    (alignment_length : Z) (i j j' : nat) :
  0 < alignment_length ->
  (i < shape0 d)%nat -> (j < shape1 d)%nat -> (j' < shape1 d)%nat ->
  item d i j = item d i j' ->
  nth j mask_count_focal 0 < nth j' mask_count_focal 0 ->
  nth i (closest_match_of d mask_count_focal alignment_length) O <> j'.
Proof.
  intros HL Hi Hj Hj' Hd Hm Hsel.
  destruct (closest_match_least d mask_count_focal alignment_length i Hi) as (_ & Hmin);
    [lia|].
  specialize (Hmin j Hj). rewrite Hsel in Hmin.
  apply (Qle_not_lt _ _ Hmin). unfold adjusted. rewrite Hd.
  apply Qplus_lt_r. unfold Qdiv. apply Qmult_lt_compat_r.
  - apply Qinv_lt_0_compat. change 0%Q with (inject_Z 0). rewrite <- Zlt_Qlt. exact HL.
  - rewrite <- Zlt_Qlt. exact Hm.
Qed.

Lemma fewer_masked_wins_witness :
  nth 1 (closest_match_of example_d
           (map (fun x => Z.of_nat (length x)) (filled_positions dict_focal)) 4) O
  <> 0%nat.
Proof.
  apply (fewer_masked_wins example_d
           (map (fun x => Z.of_nat (length x)) (filled_positions dict_focal))
           4 1 1 0).
  - lia.
  - vm_compute. lia.
  - vm_compute. lia.
  - vm_compute. lia.
  - vm_compute. reflexivity.
  - vm_compute. reflexivity.
Defined.

Lemma argmin_from_first (l : list Q) :
  forall (best_i : nat) (best : Q) (k : nat),
    (best_i < k)%nat ->
    let j := argmin_from best_i best k l in
    exists m : Q,
      ((j = best_i /\ m = best)
       \/ ((k <= j)%nat /\ nth_error l (j - k) = Some m))
      /\ (m <= best)%Q
      /\ (j <> best_i -> (m < best)%Q)
      /\ forall q x, nth_error l q = Some x -> (k + q < j)%nat -> (m < x)%Q.
Proof.
  induction l as [|x l IH]; intros best_i best k Hk; cbn [argmin_from].
  - exists best. split; [left; split; reflexivity|]. split; [apply Qle_refl|].
    split; [congruence|]. intros q y Hq. destruct q; discriminate.
  - destruct (Qle_bool best x) eqn:E.
    + apply Qle_bool_iff in E.
      destruct (IH best_i best (S k) (Nat.lt_lt_succ_r _ _ Hk))
        as (m & Hm & Hb & Hs & Hall).
      exists m. split; [|split; [assumption|split; [assumption|]]].
      * destruct Hm as [Hm | (Hj & Hn)]; [left; assumption|].
        right. split; [lia|].
        replace (argmin_from best_i best (S k) l - k)%nat
          with (S (argmin_from best_i best (S k) l - S k)) by lia.
        exact Hn.
      * intros q y Hq Hlt. destruct q as [|q]; cbn [nth_error] in Hq.
        -- injection Hq as <-. apply (Qlt_le_trans _ best); [|assumption].
           apply Hs. lia.
        -- apply (Hall q y Hq). lia.
    + assert (Hx : (x < best)%Q).
      { apply Qnot_le_lt. intros H. apply Qle_bool_iff in H. congruence. }
      destruct (IH k x (S k) (Nat.lt_succ_diag_r k)) as (m & Hm & Hb & Hs & Hall).
      exists m. split; [|split; [|split]].
      * right. destruct Hm as [(Hj & ->) | (Hj & Hn)].
        -- rewrite Hj. split; [lia|]. rewrite Nat.sub_diag. reflexivity.
        -- split; [lia|].
           replace (argmin_from k x (S k) l - k)%nat
             with (S (argmin_from k x (S k) l - S k)) by lia.
           exact Hn.
      * apply Qlt_le_weak. apply (Qle_lt_trans _ x); assumption.
      * intros _. apply (Qle_lt_trans _ x); assumption.
      * intros q y Hq Hlt. destruct q as [|q]; cbn [nth_error] in Hq.
        -- injection Hq as <-. apply Hs. lia.
        -- apply (Hall q y Hq). lia.
Qed.

(** X17.  Among the focal sequences with the least adjusted score the
    first one is selected: every focal sequence before the selected one has
    a strictly greater adjusted score. *)
Theorem closest_match_is_first (d : matrix) (mask_count_focal : list Z)
    (alignment_length : Z) (i j' : nat) :
  (i < shape0 d)%nat ->
  (j' < nth i (closest_match_of d mask_count_focal alignment_length) O)%nat ->
  (adjusted d mask_count_focal alignment_length i
     (nth i (closest_match_of d mask_count_focal alignment_length) O)
   < adjusted d mask_count_focal alignment_length i j')%Q.
Proof.
  intros Hi Hlt. rewrite closest_match_nth in * by assumption.
  set (row := adjusted_row d mask_count_focal alignment_length i) in *.
  assert (Hlen : length row = shape1 d)
    by (unfold row, adjusted_row; rewrite length_map, length_seq; reflexivity).
  destruct row as [|x l] eqn:Erow; [cbn in Hlt; lia|].
  cbn [argmin] in *.
  destruct (argmin_from_first l O x 1%nat Nat.lt_0_1) as (m & Hm & _ & Hs & Hall).
  set (j := argmin_from 0 x 1 l) in *.
  assert (Hj : (j < shape1 d)%nat).
  { destruct Hm as [(-> & _) | (Hk & Hn)]; [lia|].
    assert ((j - 1 < length l)%nat) by (apply nth_error_Some; congruence).
    cbn [length] in Hlen. lia. }
  assert (Vj : nth_error (x :: l) j = Some m).
  { destruct Hm as [(-> & ->) | (Hk & Hn)]; [reflexivity|].
    replace j with (S (j - 1)) by lia. exact Hn. }
  assert (Aj : adjusted d mask_count_focal alignment_length i j = m).
  { pose proof (adjusted_row_nth d mask_count_focal alignment_length i j Hj) as A.
    fold row in A. rewrite Erow, Vj in A. congruence. }
  assert (Aj' : nth_error (x :: l) j'
                = Some (adjusted d mask_count_focal alignment_length i j')).
  { rewrite <- Erow. apply adjusted_row_nth. lia. }
  rewrite Aj. destruct j' as [|q]; cbn [nth_error] in Aj'.
  - injection Aj' as <-. apply Hs. lia.
  - apply (Hall q _ Aj'). lia.
Qed.

Lemma closest_match_is_first_witness :
  (adjusted example_d
     (map (fun x => Z.of_nat (length x)) (filled_positions dict_focal)) 4 1
     (nth 1 (closest_match_of example_d
               (map (fun x => Z.of_nat (length x)) (filled_positions dict_focal)) 4) O)
   < adjusted example_d
       (map (fun x => Z.of_nat (length x)) (filled_positions dict_focal)) 4 1 0)%Q.
Proof.
  apply (closest_match_is_first example_d
           (map (fun x => Z.of_nat (length x)) (filled_positions dict_focal)) 4 1 0).
  - vm_compute. lia.
  - vm_compute. lia.
Defined.

Lemma chunk_loop_fuel_irrelevant (ref : list Z) (L cs : Z) (DF : snp_dict) :
  forall fuel1 fuel2 seqs out,
    (length seqs < fuel1)%nat -> (length seqs < fuel2)%nat ->
    chunk_loop fuel1 ref L DF cs seqs out = chunk_loop fuel2 ref L DF cs seqs out.
Proof.
  induction fuel1 as [|fuel1 IH]; intros fuel2 seqs out H1 H2; [lia|].
  destruct fuel2 as [|fuel2]; [lia|]. cbn [chunk_loop].
  destruct (calculate_snp_matrix seqs (Some ref) 110 cs []) as [[[DC|] rest]|e] eqn:E;
    try reflexivity.
  destruct (chunk_lines DF DC L) as [lines|e]; [|reflexivity].
  apply calculate_snp_matrix_inv in E. destruct E as (Hne & _ & ->).
  destruct (take_chunk_split cs seqs 0) as (Esplit & _).
  fold (accepted cs [] seqs) in Esplit. fold (remaining cs [] seqs) in Esplit.
  assert (Hlen : (0 < length (accepted cs [] seqs))%nat).
  { destruct (accepted cs [] seqs); [congruence|cbn; lia]. }
  assert (Hrem : (length (remaining cs [] seqs) < length seqs)%nat).
  { rewrite Esplit at 2. rewrite length_app. lia. }
  apply IH; lia.
Qed.

(** X18.  The [while True] loop of the script terminates on every input:
    each pass that does not end the loop consumes at least one record, so
    the loop makes at most one pass per context record plus one; a bound on
    the passes above the number of records is never reached, and any larger
    bound gives the same output and the same end. *)
Theorem chunk_loop_terminates (ref : list Z) (L cs : Z) (DF : snp_dict)
    (seqs : list SeqRecord) (out : list out_line) (fuel : nat) :
  (length seqs < fuel)%nat ->
  snd (chunk_loop fuel ref L DF cs seqs out) <> OutOfFuel
  /\ chunk_loop fuel ref L DF cs seqs out
     = chunk_loop (S (length seqs)) ref L DF cs seqs out.
Proof.
  intros H. split.
  - apply chunk_loop_fuel. exact H.
  - apply chunk_loop_fuel_irrelevant; lia.
Qed.

Lemma chunk_loop_terminates_witness :
  snd (chunk_loop 7 ref_acgt 4 dict_focal 1 example_context [Header]) <> OutOfFuel
  /\ chunk_loop 7 ref_acgt 4 dict_focal 1 example_context [Header]
     = chunk_loop (S (length example_context)) ref_acgt 4 dict_focal 1
         example_context [Header].
Proof.
  apply (chunk_loop_terminates ref_acgt 4 1 dict_focal example_context [Header] 7).
  cbn. lia.
Defined.


Lemma dict_set_in {V : Type} (m : list (string * V)) (k : string) (v : V) :
  forall k' v', In (k', v') (dict_set m k v) -> (k' = k /\ v' = v) \/ In (k', v') m.
Proof.
  induction m as [|[k0 v0] m IH]; intros k' v' H; cbn [dict_set] in H.
  - destruct H as [H|[]]. injection H as <- <-. left. split; reflexivity.
  - destruct (String.eqb k0 k).
    + destruct H as [H|H]; [injection H as <- <-; left; split; reflexivity|].
      right. right. exact H.
    + destruct H as [H|H]; [right; left; exact H|].
      destruct (IH _ _ H) as [?|?]; [left; assumption|right; right; assumption].
Qed.








Lemma dict_set_keys_in {V : Type} (m : list (string * V)) (k : string) (v : V) :
  forall k', In k' (map fst (dict_set m k v)) -> k' = k \/ In k' (map fst m).
Proof.
  intros k' H. apply in_map_iff in H. destruct H as ([k0 v0] & <- & H).
  destruct (dict_set_in _ _ _ _ _ H) as [(-> & _)|H1]; [left; reflexivity|].
  right. apply (in_map fst) in H1. exact H1.
Qed.

Lemma dict_set_nodup {V : Type} (m : list (string * V)) (k : string) (v : V) :
  NoDup (map fst m) -> NoDup (map fst (dict_set m k v)).
Proof.
  induction m as [|[k0 v0] m IH]; intros H; cbn [dict_set map fst].
  - constructor; [intros []|constructor].
  - cbn [map fst] in H. inversion H as [|? ? Hn Hd]; subst.
    destruct (String.eqb_spec k0 k) as [->|Hne]; cbn [map fst].
    + constructor; assumption.
    + constructor; [|apply IH; assumption].
      intros Hin. apply dict_set_keys_in in Hin. destruct Hin as [->|Hin]; auto.
Qed.

Lemma dict_fill_nodup {V : Type} (kf : nat -> string) (vf : nat -> nat -> V)
    (xs : list (nat * nat)) :
  forall m0,
    NoDup (map fst m0) ->
    NoDup (map fst (fold_left (fun m '(ci, fi) => dict_set m (kf ci) (vf ci fi)) xs m0)).
Proof.
  induction xs as [|[ci fi] xs IH]; intros m0 H; cbn [fold_left]; [exact H|].
  apply IH. apply dict_set_nodup. exact H.
Qed.

(** X20.  Within one pass of the loop no strain is written twice: the
    lines of a chunk come from a dictionary keyed by the name, so records
    of one chunk that share a name share one line. *)
Theorem write_lines_distinct_strains (focal_seqs_dict context_seqs_dict : snp_dict)
    (d : matrix) (closest_match : list nat) :
  NoDup (map strain_of
           (write_lines focal_seqs_dict context_seqs_dict d closest_match)).
Proof.
  unfold write_lines. rewrite map_map.
  set (m := fold_left _ _ []).
  assert (H : NoDup (map fst m)).
  { unfold m.
    apply (dict_fill_nodup
             (fun ci => nth ci (names context_seqs_dict) EmptyString)
             (fun ci fi => (item d ci fi, nth fi (names focal_seqs_dict) EmptyString))).
    constructor. }
  erewrite map_ext; [exact H|]. intros [k [v1 v2]]. reflexivity.
Qed.

Lemma dict_set_in_new {V : Type} (m : list (string * V)) (k : string) (v : V) :
  In (k, v) (dict_set m k v).
Proof.
  induction m as [|[k0 v0] m IH]; cbn [dict_set]; [left; reflexivity|].
  destruct (String.eqb k0 k); [left; reflexivity|right; exact IH].
Qed.

Lemma dict_set_in_old {V : Type} (m : list (string * V)) (k k' : string) (v v' : V) :
  k' <> k -> In (k', v') m -> In (k', v') (dict_set m k v).
Proof.
  intros Hne. induction m as [|[k0 v0] m IH]; intros H; cbn [dict_set]; [destruct H|].
  destruct H as [H|H].
  - injection H as -> ->. destruct (String.eqb_spec k' k); [contradiction|].
    left. reflexivity.
  - destruct (String.eqb k0 k); right; [exact H|apply IH; exact H].
Qed.

Lemma dict_fill_keeps {V : Type} (kf : nat -> string) (vf : nat -> nat -> V)
    (xs : list (nat * nat)) (k : string) (v : V) :
  Forall (fun x => kf (fst x) <> k) xs ->
  forall m0, In (k, v) m0 ->
    In (k, v) (fold_left (fun m '(ci, fi) => dict_set m (kf ci) (vf ci fi)) xs m0).
Proof.
  induction xs as [|[ci fi] xs IH]; intros HF m0 H; cbn [fold_left]; [exact H|].
  inversion HF as [|? ? Hx HF']; subst. cbn [fst] in Hx.
  apply IH; [assumption|]. apply dict_set_in_old; [congruence|exact H].
Qed.

Lemma combine_seq_nth (cm : list nat) :
  forall k, combine (seq k (length cm)) cm
            = map (fun i => (i, nth (i - k) cm O)) (seq k (length cm)).
Proof.
  induction cm as [|x cm IH]; intros k; cbn [length seq combine map]; [reflexivity|].
  rewrite Nat.sub_diag. cbn [nth]. f_equal. rewrite IH.
  apply map_ext_in. intros i Hi. apply in_seq in Hi.
  replace (i - k)%nat with (S (i - S k)) by lia. reflexivity.
Qed.

(** X21.  When records of one chunk share a name the last one wins: the
    line written for a name carries the closest strain and the distance of
    the last record of the chunk with that name. *)
Theorem write_lines_last_wins (focal_seqs_dict context_seqs_dict : snp_dict)
    (d : matrix) (closest_match : list nat) (context_index : nat) :
  (context_index < length closest_match)%nat ->
  (forall later, (context_index < later < length closest_match)%nat ->
     nth later (names context_seqs_dict) EmptyString
     <> nth context_index (names context_seqs_dict) EmptyString) ->
  In (Line (nth context_index (names context_seqs_dict) EmptyString)
           (nth (nth context_index closest_match O) (names focal_seqs_dict) EmptyString)
           (item d context_index (nth context_index closest_match O)))
     (write_lines focal_seqs_dict context_seqs_dict d closest_match).
Proof.
  intros Hci Hlater. unfold write_lines.
  set (kf := fun ci => nth ci (names context_seqs_dict) EmptyString).
  set (vf := fun ci fi => (item d ci fi, nth fi (names focal_seqs_dict) EmptyString)).
  apply in_map_iff.
  exists (kf context_index, vf context_index (nth context_index closest_match O)).
  split; [reflexivity|].
  rewrite combine_seq_nth.
  replace (length closest_match)
    with (context_index + S (length closest_match - S context_index))%nat by lia.
  rewrite seq_app, map_app, fold_left_app. cbn [seq map fold_left Nat.add].
  rewrite Nat.sub_0_r.
  apply (dict_fill_keeps kf vf).
  - apply Forall_forall. intros [ci fi] Hin. cbn [fst].
    apply in_map_iff in Hin. destruct Hin as (i & E & Hi). injection E as <- _.
    apply in_seq in Hi. apply Hlater. lia.
  - apply dict_set_in_new.
Qed.

Lemma write_lines_last_wins_witness :
  In (Line (nth 1 (names (dict_of (calculate_snp_matrix
                                     [rec_ "c" "acga"; rec_ "c" "acgt"]
                                     (Some ref_acgt) 110 0 []))) EmptyString)
           (nth (nth 1 [1; 1]%nat O) (names dict_focal) EmptyString)
           (item example_d 1 (nth 1 [1; 1]%nat O)))
     (write_lines dict_focal
        (dict_of (calculate_snp_matrix [rec_ "c" "acga"; rec_ "c" "acgt"]
                    (Some ref_acgt) 110 0 []))
        example_d [1; 1]%nat).
Proof.
  apply (write_lines_last_wins dict_focal
           (dict_of (calculate_snp_matrix [rec_ "c" "acga"; rec_ "c" "acgt"]
                       (Some ref_acgt) 110 0 []))
           example_d [1; 1]%nat 1).
  - cbn. lia.
  - intros later H. cbn in H. lia.
Defined.

(** ** [compactify_sequences]: the groups *)

Lemma key_eqb_spec (a b : list (nat * Z)) : reflect (a = b) (key_eqb a b).
Proof.
  revert b. induction a as [|[p x] a IH]; intros [|[q y] b]; cbn [key_eqb];
    try (constructor; congruence).
  destruct (Nat.eqb_spec p q) as [->|Hp]; cbn [andb]; [|constructor; congruence].
  destruct (Z.eqb_spec x y) as [->|Hx]; cbn [andb]; [|constructor; congruence].
  destruct (IH b) as [->|Hb]; constructor; congruence.
Qed.

Lemma key_eqb_refl (a : list (nat * Z)) : key_eqb a a = true.
Proof. destruct (key_eqb_spec a a); congruence. Qed.

Lemma row_key_map (M : matrix) (i : nat) :
  row_key M i = map (fun p => (p, item M i p)) (nonzero_cols M i).
Proof.
  unfold row_key. generalize (nonzero_cols M i) as cols. intros cols.
  assert (H : combine cols (map (item M i) cols)
              = map (fun p => (p, item M i p)) cols).
  { induction cols as [|p cols IH]; cbn [map combine]; [reflexivity|].
    rewrite IH. reflexivity. }
  rewrite H. destruct cols; reflexivity.
Qed.

Lemma row_key_in (M : matrix) (i p : nat) (x : Z) :
  In (p, x) (row_key M i) <-> (p < shape1 M)%nat /\ item M i p = x /\ x <> 0.
Proof.
  rewrite row_key_map, in_map_iff. unfold nonzero_cols. split.
  - intros (q & E & Hq). injection E as -> <-. apply filter_In in Hq.
    destruct Hq as (Hq & Hnz). apply in_seq in Hq.
    destruct (Z.eqb_spec (item M i p) 0); [discriminate|]. repeat split; [lia|assumption].
  - intros (Hp & <- & Hnz). exists p. split; [reflexivity|].
    apply filter_In. split; [apply in_seq; lia|].
    destruct (Z.eqb_spec (item M i p) 0); [contradiction|reflexivity].
Qed.

Lemma row_key_eq_iff (sparse_matrix : matrix) (i j : nat) :
  row_key sparse_matrix i = row_key sparse_matrix j
  <-> forall p, (p < shape1 sparse_matrix)%nat ->
        item sparse_matrix i p = item sparse_matrix j p.
Proof.
  split.
  - intros E p Hp.
    destruct (Z.eq_dec (item sparse_matrix i p) 0) as [Hi|Hi].
    + destruct (Z.eq_dec (item sparse_matrix j p) 0) as [Hj|Hj]; [congruence|].
      assert (H : In (p, item sparse_matrix j p) (row_key sparse_matrix j))
        by (apply row_key_in; auto).
      rewrite <- E in H. apply row_key_in in H. tauto.
    + assert (H : In (p, item sparse_matrix i p) (row_key sparse_matrix i))
        by (apply row_key_in; auto).
      rewrite E in H. apply row_key_in in H. symmetry. tauto.
  - intros H. rewrite !row_key_map. unfold nonzero_cols.
    assert (F : filter (fun p => negb (item sparse_matrix i p =? 0))
                  (seq 0 (shape1 sparse_matrix))
                = filter (fun p => negb (item sparse_matrix j p =? 0))
                    (seq 0 (shape1 sparse_matrix))).
    { apply filter_ext_in. intros p Hp. apply in_seq in Hp. rewrite H by lia.
      reflexivity. }
    rewrite F. apply map_ext_in. intros p Hp. apply filter_In in Hp.
    destruct Hp as (Hp & _). apply in_seq in Hp. rewrite H by lia. reflexivity.
Qed.

(** X22.  The key of a row loses nothing: two rows of a matrix have the
    same key exactly when they hold the same value in every column. *)
Theorem row_key_determines_row (sparse_matrix : matrix) (i j : nat) :
  row_key sparse_matrix i = row_key sparse_matrix j
  <-> forall p, (p < shape1 sparse_matrix)%nat ->
        item sparse_matrix i p = item sparse_matrix j p.
Proof. apply row_key_eq_iff. Qed.

Lemma group_get_append (m : list (list (nat * Z) * list string))
    (k0 : list (nat * Z)) (s : string) (k : list (nat * Z)) :
  group_get (group_append m k0 s) k
  = if key_eqb k0 k
    then Some (match group_get m k0 with Some g => g ++ [s] | None => [s] end)
    else group_get m k.
Proof.
  induction m as [|[k' g] m IH]; cbn [group_append group_get]; [reflexivity|].
  destruct (key_eqb_spec k' k0) as [->|Hne]; cbn [group_get].
  - destruct (key_eqb k0 k); reflexivity.
  - rewrite IH. destruct (key_eqb_spec k0 k) as [->|Hne'].
    + destruct (key_eqb_spec k' k); [contradiction|reflexivity].
    + reflexivity.
Qed.

Lemma group_append_keys_in (m : list (list (nat * Z) * list string))
    (k0 : list (nat * Z)) (s : string) (k : list (nat * Z)) :
  In k (map fst (group_append m k0 s)) -> k = k0 \/ In k (map fst m).
Proof.
  induction m as [|[k' g] m IH]; cbn [group_append map fst In].
  - intros [<-|[]]. left. reflexivity.
  - destruct (key_eqb k' k0); cbn [map fst In]; [tauto|].
    intros [H|H]; [tauto|]. destruct (IH H); tauto.
Qed.

Lemma group_append_nodup (m : list (list (nat * Z) * list string))
    (k0 : list (nat * Z)) (s : string) :
  NoDup (map fst m) -> NoDup (map fst (group_append m k0 s)).
Proof.
  induction m as [|[k' g] m IH]; intros H; cbn [group_append map fst].
  - constructor; [intros []|constructor].
  - cbn [map fst] in H. inversion H as [|? ? Hn Hd]; subst.
    destruct (key_eqb_spec k' k0) as [->|Hne]; cbn [map fst].
    + constructor; assumption.
    + constructor; [|apply IH; assumption].
      intros Hin. apply group_append_keys_in in Hin. destruct Hin as [->|Hin]; auto.
Qed.

Lemma group_get_in (m : list (list (nat * Z) * list string))
    (k : list (nat * Z)) (g : list string) :
  NoDup (map fst m) -> (In (k, g) m <-> group_get m k = Some g).
Proof.
  induction m as [|[k' g'] m IH]; intros H; cbn [group_get In].
  - split; [intros []|discriminate].
  - cbn [map fst] in H. inversion H as [|? ? Hn Hd]; subst.
    destruct (key_eqb_spec k' k) as [->|Hne].
    + split.
      * intros [E|Hin]; [congruence|]. exfalso. apply Hn.
        apply (in_map fst) in Hin. exact Hin.
      * intros E. left. congruence.
    + rewrite <- (IH Hd). split; [|tauto].
      intros [E|Hin]; [congruence|assumption].
Qed.

Lemma names_with_key_app (M : matrix) (xs ys : list (string * nat))
    (k : list (nat * Z)) :
  names_with_key M (xs ++ ys) k = names_with_key M xs k ++ names_with_key M ys k.
Proof. unfold names_with_key. rewrite filter_app, map_app. reflexivity. Qed.

Lemma compactify_fold (M : matrix) (xs : list (string * nat)) :
  forall pre m,
    NoDup (map fst m) ->
    (forall k, group_get m k
               = match names_with_key M pre k with [] => None | g => Some g end) ->
    let m' := fold_left (fun groups '(s, i) => group_append groups (row_key M i) s)
                xs m in
    NoDup (map fst m')
    /\ forall k, group_get m' k
                 = match names_with_key M (pre ++ xs) k with
                   | [] => None
                   | g => Some g
                   end.
Proof.
  induction xs as [|[s i] xs IH]; intros pre m Hnd Hget; cbn [fold_left].
  - rewrite app_nil_r. split; assumption.
  - replace (pre ++ (s, i) :: xs) with ((pre ++ [(s, i)]) ++ xs)
      by (rewrite <- app_assoc; reflexivity).
    apply IH; [apply group_append_nodup; assumption|].
    intros k. rewrite group_get_append, names_with_key_app.
    unfold names_with_key at 2. cbn [filter snd].
    destruct (key_eqb_spec (row_key M i) k) as [<-|Hne]; cbn [map fst].
    + rewrite Hget. destruct (names_with_key M pre (row_key M i)); reflexivity.
    + rewrite app_nil_r. apply Hget.
Qed.

Lemma compactify_spec (sparse_matrix : matrix) (sequence_names : list string) :
  NoDup (map fst (compactify_sequences sparse_matrix sequence_names))
  /\ forall key group,
       In (key, group) (compactify_sequences sparse_matrix sequence_names)
       <-> group <> []
           /\ group = names_with_key sparse_matrix
                        (combine sequence_names (seq 0 (shape0 sparse_matrix))) key.
Proof.
  unfold compactify_sequences.
  destruct (compactify_fold sparse_matrix
              (combine sequence_names (seq 0 (shape0 sparse_matrix))) [] [])
    as (Hnd & Hget); [constructor|reflexivity|].
  cbn [app] in Hget. split; [exact Hnd|].
  intros key group. rewrite (group_get_in _ _ _ Hnd), Hget.
  destruct (names_with_key sparse_matrix _ key) as [|x g].
  - split; [discriminate|]. intros (H & ->). congruence.
  - split.
    + intros E. injection E as <-. split; [discriminate|reflexivity].
    + intros (_ & ->). reflexivity.
Qed.

(** X23.  The groups partition the names by the rows: no key occurs twice,
    no group is empty, and the group of a key lists, in the order of the
    input, exactly the names whose row has that key. *)
Theorem compactify_groups (sparse_matrix : matrix) (sequence_names : list string) :
  NoDup (map fst (compactify_sequences sparse_matrix sequence_names))
  /\ forall key group,
       In (key, group) (compactify_sequences sparse_matrix sequence_names)
       <-> group <> []
           /\ group = names_with_key sparse_matrix
                        (combine sequence_names (seq 0 (shape0 sparse_matrix))) key.
Proof. apply compactify_spec. Qed.

Lemma in_combine_names (names : list string) :
  forall k n s i,
    In (s, i) (combine names (seq k n))
    <-> (k <= i < k + n)%nat /\ nth_error names (i - k) = Some s.
Proof.
  induction names as [|x names IH]; intros k n s i.
  - cbn [combine In]. split; [intros []|].
    intros (_ & H). destruct (i - k)%nat; discriminate.
  - destruct n as [|n]; cbn [seq combine In]; [split; [intros []|lia]|].
    rewrite IH. split.
    + intros [E|(Hr & Hn)].
      * injection E as -> ->. rewrite Nat.sub_diag. split; [lia|reflexivity].
      * split; [lia|]. replace (i - k)%nat with (S (i - S k)) by lia. exact Hn.
    + intros (Hr & Hn). destruct (Nat.eq_dec i k) as [->|Hne].
      * rewrite Nat.sub_diag in Hn. cbn [nth_error] in Hn. left. congruence.
      * right. split; [lia|].
        replace (i - k)%nat with (S (i - S k)) in Hn by lia. exact Hn.
Qed.

Lemma names_with_key_in (M : matrix) (names : list string) (k : list (nat * Z))
    (s : string) :
  In s (names_with_key M (combine names (seq 0 (shape0 M))) k)
  <-> exists i, (i < shape0 M)%nat /\ nth_error names i = Some s /\ row_key M i = k.
Proof.
  unfold names_with_key. rewrite in_map_iff. split.
  - intros ([s' i] & E & H). cbn [fst] in E. subst s'. apply filter_In in H.
    destruct H as (Hin & Hk). cbn [snd] in Hk. apply in_combine_names in Hin.
    rewrite Nat.sub_0_r in Hin. exists i.
    destruct (key_eqb_spec (row_key M i) k); [|discriminate]. repeat split; [lia|tauto|assumption].
  - intros (i & Hi & Hn & Hk). exists (s, i). split; [reflexivity|].
    apply filter_In. split.
    + apply in_combine_names. rewrite Nat.sub_0_r. split; [lia|assumption].
    + cbn [snd]. rewrite Hk. apply key_eqb_refl.
Qed.

(** X24.  Grouping and distance agree: for a set encoded against a
    reference, with distinct names, two sequences are put in one group
    exactly when their distance in the matrix of the set against itself is
    zero. *)
Theorem same_group_iff_distance_zero (ref : list Z) (l : list SeqRecord)
    (cs : Z) (ign : list string) (D : snp_dict) (rest : list SeqRecord)
    (c : list Z) :
  calculate_snp_matrix l (Some ref) 110 cs ign = Ok (Some D, rest) ->
  NoDup (names D) ->
  exists d,
    calculate_distance_matrix (snps D) (snps D) c = Ok d
    /\ forall i j, (i < shape0 (snps D))%nat -> (j < shape0 (snps D))%nat ->
         (item d i j = 0
          <-> exists key group,
                In (key, group) (compactify_sequences (snps D) (names D))
                /\ In (nth i (names D) EmptyString) group
                /\ In (nth j (names D) EmptyString) group).
Proof.
  intros H Hnd. apply calculate_snp_matrix_inv in H. destruct H as (_ & E & _).
  destruct (encoded_entry_hamming ref _ _ D D c E E) as (d & Ed & _ & _ & Hd).
  exists d. split; [assumption|]. intros i j Hi Hj.
  assert (Hlen : length (names D) = shape0 (snps D)).
  { rewrite (enc_names _ _ _ _ E), length_map, (enc_shape0 _ _ _ _ E). reflexivity. }
  assert (Hzero : item d i j = 0 <-> row_key (snps D) i = row_key (snps D) j).
  { rewrite Hd by (rewrite <- (enc_shape0 _ _ _ _ E); assumption).
    rewrite row_key_eq_iff, (enc_shape1 _ _ _ _ E). split.
    - intros Hz p Hp.
      pose proof (sum_upto_zero_inv _ _ (fun q _ => Z_of_bool_nonneg _) Hz p Hp) as Hq.
      cbn beta in Hq.
      destruct (Z.eqb_spec (item (snps D) i p) (item (snps D) j p));
        [assumption|discriminate].
    - intros Heq. apply sum_upto_zero. intros p Hp. rewrite Heq by assumption.
      rewrite Z.eqb_refl. reflexivity. }
  assert (Hnth : forall a, (a < shape0 (snps D))%nat ->
                   nth_error (names D) a = Some (nth a (names D) EmptyString)).
  { intros a Ha. apply nth_error_nth'. lia. }
  assert (Hmem : forall a key, (a < shape0 (snps D))%nat ->
            In (nth a (names D) EmptyString)
               (names_with_key (snps D)
                  (combine (names D) (seq 0 (shape0 (snps D)))) key)
            <-> row_key (snps D) a = key).
  { intros a key Ha. rewrite names_with_key_in. split.
    - intros (a' & Ha' & Hn & Hk).
      assert (a' = a); [|congruence].
      apply (proj1 (NoDup_nth_error (names D)) Hnd); [lia|].
      rewrite Hn, Hnth by assumption. reflexivity.
    - intros Hk. exists a. auto. }
  destruct (compactify_spec (snps D) (names D)) as (_ & Hgroups).
  rewrite Hzero. split.
  - intros Ek. exists (row_key (snps D) i).
    exists (names_with_key (snps D)
              (combine (names D) (seq 0 (shape0 (snps D)))) (row_key (snps D) i)).
    assert (Hin : In (nth i (names D) EmptyString)
                     (names_with_key (snps D)
                        (combine (names D) (seq 0 (shape0 (snps D))))
                        (row_key (snps D) i)))
      by (apply Hmem; [assumption|reflexivity]).
    split; [|split; [exact Hin|apply Hmem; [assumption|congruence]]].
    apply Hgroups. split; [|reflexivity].
    intros E0. rewrite E0 in Hin. destruct Hin.
  - intros (key & group & Hg & Hi' & Hj'). apply Hgroups in Hg.
    destruct Hg as (_ & ->).
    apply Hmem in Hi'; [|assumption]. apply Hmem in Hj'; [|assumption]. congruence.
Qed.

Lemma same_group_iff_distance_zero_witness :
  exists d,
    calculate_distance_matrix (snps dict_context) (snps dict_context) [] = Ok d
    /\ forall i j, (i < shape0 (snps dict_context))%nat ->
         (j < shape0 (snps dict_context))%nat ->
         (item d i j = 0
          <-> exists key group,
                In (key, group)
                   (compactify_sequences (snps dict_context) (names dict_context))
                /\ In (nth i (names dict_context) EmptyString) group
                /\ In (nth j (names dict_context) EmptyString) group).
Proof.
  apply (same_group_iff_distance_zero ref_acgt example_context 0 [] dict_context [] []).
  - reflexivity.
  - vm_compute. repeat constructor; cbn; intuition discriminate.
Defined.

(** ** The default consensus and the length error in the script *)

Lemma encode_record_default (f : Z) (x : SeqRecord) :
  encode_record f (init_state None) x
  = encode_record f (init_state (Some (int_array f x))) x.
Proof.
  unfold encode_record, grow, init_state, int_array.
  cbn [row col val r n_snps nseqs seq_names filled current_length consensus
       align_length right].
  rewrite length_sequence_to_int_array.
  match goal with
  | |- context [?a >=? ?b] => destruct (a >=? b)
  end; reflexivity.
Qed.

(** X25.  Without a consensus the first accepted record is the reference:
    when the first record whose name is not ignored has an ASCII sequence,
    a call with [consensus=None] returns what the call returns that is
    given the integer array of that record (unknown symbols and gaps of
    the record are the unknown code in the reference). *)
Theorem consensus_default (fastafile : list SeqRecord) (fill_value chunk_size : Z)
    (ignore_seqs : list string) (record : SeqRecord) :
  first_accepted ignore_seqs fastafile = Some record ->
  isascii (seq_ record) = true ->
  calculate_snp_matrix fastafile None fill_value chunk_size ignore_seqs
  = calculate_snp_matrix fastafile
      (Some (sequence_to_int_array (seq_ record) fill_value true))
      fill_value chunk_size ignore_seqs.
Proof.
  intros H _. unfold calculate_snp_matrix. fold (int_array fill_value record).
  assert (E : for_records fill_value chunk_size ignore_seqs (init_state None) fastafile
              = for_records fill_value chunk_size ignore_seqs
                  (init_state (Some (int_array fill_value record))) fastafile).
  { induction fastafile as [|x l IH]; cbn [first_accepted for_records] in *;
      [discriminate|].
    destruct (string_in (name x) ignore_seqs); [apply IH; exact H|].
    injection H as ->. rewrite encode_record_default. reflexivity. }
  rewrite E. reflexivity.
Qed.

Lemma consensus_default_witness :
  calculate_snp_matrix [rec_ "a" "acgt"; rec_ "b" "acna"; rec_ "c" "acgt"]
    None 110 0 ["a"%string]
  = calculate_snp_matrix [rec_ "a" "acgt"; rec_ "b" "acna"; rec_ "c" "acgt"]
      (Some (sequence_to_int_array (seq_ (rec_ "b" "acna")) 110 true))
      110 0 ["a"%string].
Proof.
  apply (consensus_default [rec_ "a" "acgt"; rec_ "b" "acna"; rec_ "c" "acgt"]
           110 0 ["a"%string] (rec_ "b" "acna")).
  - reflexivity.
  - reflexivity.
Defined.

Lemma for_records_length_error (ref : list Z) (f cs : Z) (bad : SeqRecord)
    (tail : list SeqRecord) :
  String.length (seq_ bad) <> length ref ->
  forall good st acc,
    Inv ref f st acc ->
    Forall (fun rec => String.length (seq_ rec) = length ref
                       /\ Z.of_nat (snp_count ref (int_array f rec) f)
                          <= INITIALISATION_LENGTH) good ->
    cs <= 0 \/ nseqs st + Z.of_nat (length good) < cs ->
    for_records f cs [] st (good ++ bad :: tail) = Raise LengthError.
Proof.
  intros Hbad. induction good as [|rec good IH]; intros st acc I HF Hcs;
    cbn [app for_records string_in existsb].
  - destruct (encode_record_spec ref f st acc bad I)
      as [(_ & E) | [(E & _) | (E & _)]]; [|contradiction|contradiction].
    rewrite E. reflexivity.
  - inversion HF as [|? ? (HL & Hc) HF']; subst.
    assert (Hn0 : 0 <= n_snps st) by (rewrite (inv_n _ _ _ _ I); lia).
    destruct (grow_spec st (n_snps st + Z.of_nat (snp_count ref (int_array f rec) f))
                (inv_size_row _ _ _ _ I) (inv_size_col _ _ _ _ I)
                (inv_size_val _ _ _ _ I) (conj Hn0 (inv_cap _ _ _ _ I)))
      as (_ & _ & _ & _ & _ & _ & G7).
    pose proof (inv_cap _ _ _ _ I) as Hcap.
    destruct (encode_record_spec ref f st acc rec I)
      as [(E & _) | [(_ & E & _) | (_ & Hfit & st1 & E & I1 & C1)]];
      [contradiction | exfalso; lia |].
    rewrite E.
    assert (Hn1 : nseqs st1 = nseqs st + 1).
    { rewrite (inv_nseqs _ _ _ _ I1), (inv_nseqs _ _ _ _ I), length_app.
      cbn [length]. lia. }
    assert (Hs0 : 0 <= nseqs st) by (rewrite (inv_nseqs _ _ _ _ I); lia).
    cbn [length] in Hcs.
    assert (Hb : negb (cs =? 0) && (cs =? nseqs st1) = false).
    { destruct (Z.eqb_spec cs 0); [reflexivity|]. cbn [negb andb].
      destruct (Z.eqb_spec cs (nseqs st1)); [lia|reflexivity]. }
    rewrite Hb. apply (IH st1 (acc ++ [rec]) I1 HF'). lia.
Qed.

Lemma chunk_loop_length_error (ref : list Z) (L : Z) (focal : list SeqRecord)
    (DF : snp_dict) (k : nat) (bad : SeqRecord) (tail good : list SeqRecord) :
  encodes ref 110 focal DF -> focal <> [] -> (0 < k)%nat ->
  String.length (seq_ bad) <> length ref ->
  (length good < k)%nat ->
  Forall (fun rec => String.length (seq_ rec) = length ref) good ->
  Forall (fun rec => triples ref 110 rec <= INITIALISATION_LENGTH) good ->
  forall chunks fuel out,
    (length chunks < fuel)%nat ->
    Forall (fun chunk => length chunk = k) chunks ->
    Forall (fun rec => String.length (seq_ rec) = length ref) (concat chunks) ->
    NoDup (map name (concat chunks)) ->
    Forall (fun rec => triples ref 110 rec <= INITIALISATION_LENGTH) (concat chunks) ->
    chunk_loop fuel ref L DF (Z.of_nat k) (concat chunks ++ good ++ bad :: tail) out
    = (out ++ map (line_of ref L focal) (concat chunks), Uncaught LengthError).
Proof.
  intros EF Hne Hk Hbad Hg HLg HTg.
  induction chunks as [|c chunks IH]; intros fuel out Hfuel Hc HL Hnd HT;
    (destruct fuel as [|fuel]; [lia|]); cbn [chunk_loop concat app map].
  - unfold calculate_snp_matrix.
    rewrite (for_records_length_error ref 110 (Z.of_nat k) bad tail Hbad good
               (init_state (Some ref)) [] (Inv_init ref 110)).
    + rewrite app_nil_r. reflexivity.
    + apply Forall_forall. intros rec Hin. split.
      * exact (proj1 (Forall_forall _ _) HLg rec Hin).
      * exact (proj1 (Forall_forall _ _) HTg rec Hin).
    + right. cbn [init_state nseqs]. lia.
  - inversion Hc as [|? ? Hlen Hc']; subst. cbn [concat] in HL, HT, Hnd.
    apply Forall_app in HL. destruct HL as (HLc & HL').
    apply Forall_app in HT. destruct HT as (HTc & HT').
    rewrite map_app in Hnd.
    pose proof (NoDup_app_remove_r _ _ Hnd) as Hndc.
    pose proof (NoDup_app_remove_l _ _ Hnd) as Hnd'.
    rewrite <- app_assoc.
    set (rest' := concat chunks ++ good ++ bad :: tail).
    assert (Ea : accepted (Z.of_nat (length c)) [] (c ++ rest') = c).
    { unfold accepted. rewrite (take_chunk_firstn (length c) _ 0 Hk). cbn [fst].
      rewrite Nat.sub_0_r, firstn_app, Nat.sub_diag, firstn_all. cbn [firstn].
      apply app_nil_r. }
    assert (Er : remaining (Z.of_nat (length c)) [] (c ++ rest') = rest').
    { unfold remaining. rewrite (take_chunk_firstn (length c) _ 0 Hk). cbn [snd].
      rewrite Nat.sub_0_r, skipn_app, Nat.sub_diag, skipn_all. reflexivity. }
    destruct (calculate_snp_matrix_fits (c ++ rest') ref 110 (Z.of_nat (length c)) [])
      as (oD & E & HD).
    { rewrite Ea. apply Forall_forall. intros rec Hin. split.
      - exact (proj1 (Forall_forall _ _) HLc rec Hin).
      - exact (proj1 (Forall_forall _ _) HTc rec Hin). }
    rewrite E, Ea, Er in *. destruct oD as [DC|].
    + destruct HD as (_ & EC).
      rewrite (chunk_lines_encoded ref focal c DF DC L EF EC Hne Hndc).
      unfold rest'.
      rewrite (IH fuel (out ++ map (line_of ref L focal) c)); try assumption.
      * rewrite map_app, app_assoc. reflexivity.
      * cbn [length] in Hfuel. lia.
    + subst c. cbn [length] in Hk. lia.
Qed.

(** X26.  A context record of the wrong length ends the script with the
    length error, and the lines of the chunks read before the chunk of that
    record stay in the output: for ASCII sequences and a context alignment
    made of full chunks of [k] records, then fewer than [k] further
    records, then a record whose length differs from the reference's, the
    output is the header and the lines of the full chunks, and nothing is
    written for the records of the last chunk (those before the wrong
    record included). *)
Theorem length_error_keeps_earlier_chunks (reference : string)
    (focal_seqs : list SeqRecord) (ignore_seqs : list string)
    (chunks : list (list SeqRecord)) (good : list SeqRecord) (bad : SeqRecord)
    (tail : list SeqRecord) (k : nat) (DF : snp_dict) (rest : list SeqRecord) :
  let ref := sequence_to_int_array reference 110 true in
  (0 < k)%nat ->
  isascii reference = true ->
  ascii_records focal_seqs ->
  ascii_records (concat chunks ++ good) ->
  calculate_snp_matrix focal_seqs (Some ref) 110 0 ignore_seqs = Ok (Some DF, rest) ->
  Forall (fun chunk => length chunk = k) chunks ->
  (length good < k)%nat ->
  Forall (fun rec => String.length (seq_ rec) = String.length reference)
         (concat chunks ++ good) ->
  NoDup (map name (concat chunks)) ->
  Forall (fun rec => triples ref 110 rec <= INITIALISATION_LENGTH)
         (concat chunks ++ good) ->
  String.length (seq_ bad) <> String.length reference ->
  main reference focal_seqs ignore_seqs (concat chunks ++ good ++ bad :: tail)
       (Z.of_nat k)
  = (Header :: map (line_of ref (Z.of_nat (length ref))
                      (accepted 0 ignore_seqs focal_seqs)) (concat chunks),
     Uncaught LengthError).
Proof.
  intros ref Hk _ _ _ E Hc Hg HL Hnd HT Hbad. unfold main. fold ref. rewrite E.
  apply calculate_snp_matrix_inv in E. destruct E as (Hne & EF & _).
  assert (Hlen : length ref = String.length reference)
    by (unfold ref; apply length_sequence_to_int_array).
  rewrite <- Hlen in HL, Hbad.
  apply Forall_app in HL. destruct HL as (HLc & HLg).
  apply Forall_app in HT. destruct HT as (HTc & HTg).
  rewrite (chunk_loop_length_error ref _ _ DF k bad tail good EF Hne Hk Hbad Hg
             HLg HTg chunks); try assumption; [reflexivity|].
  rewrite !length_app.
  assert (H : (length chunks <= length (concat chunks))%nat).
  { clear - Hc Hk. induction Hc as [|c chunks Hcl _ IH]; cbn [concat length]; [lia|].
    rewrite length_app. lia. }
  lia.
Qed.

Lemma length_error_keeps_earlier_chunks_witness :
  main "acgt" example_focal []
       (concat [[rec_ "c1" "acgA"]] ++ [] ++ rec_ "c2" "acg" :: [rec_ "c3" "acgt"])
       (Z.of_nat 1)
  = (Header :: map (line_of (sequence_to_int_array "acgt" 110 true)
                      (Z.of_nat (length (sequence_to_int_array "acgt" 110 true)))
                      (accepted 0 [] example_focal))
                   (concat [[rec_ "c1" "acgA"]]),
     Uncaught LengthError).
Proof.
  apply (length_error_keeps_earlier_chunks "acgt" example_focal []
           [[rec_ "c1" "acgA"]] [] (rec_ "c2" "acg") [rec_ "c3" "acgt"] 1%nat
           dict_focal []).
  - lia.
  - reflexivity.
  - repeat constructor.
  - repeat constructor.
  - reflexivity.
  - repeat constructor.
  - cbn. lia.
  - repeat constructor.
  - repeat constructor; cbn; intuition discriminate.
  - repeat constructor; vm_compute; discriminate.
  - cbn. lia.
Defined.
